(** * Mortgage64 / libdragon audio core: sample buffer, WAV64, VADPCM, XM64, binout

    A shallow embedding of the C sources of the audio streaming core and of
    the asset tools that feed it, with the properties its specification
    states about them.

    Conventions.
    - A C [int] is a [Z].  Signed overflow is undefined in C and is not part
      of the model: the arithmetic on [int] is the arithmetic of [Z].
      Unsigned quantities ([uint8_t], [uint32_t], [uint64_t]) carry their
      wrap-around explicitly ([Z.land] with a mask, or [mod]).
    - [/] and [%] on [int] truncate towards zero: [Z.quot] and [Z.rem].
    - A failed [assert]/[assertf], or a dereferenced NULL pointer, aborts the
      program: the operation returns [None].
    - RDRAM is a total map from byte addresses to byte values. *)

From Stdlib Require Import ZArith Lia List String Bool.
From stdpp Require Import base option list gmap strings.

Open Scope Z_scope.

(** ** C helpers shared by the modules *)

(** [assert(cond)]: continue on success, abort otherwise. *)
Definition assertf (cond : bool) : option unit :=
  if cond then Some tt else None.

(** [ROUND_UP(n, d)] as the C macro writes it:
    [(((_n) + (_d) - 1) / (_d) * (_d))]. *)
Definition ROUND_UP (n d : Z) : Z := Z.quot (n + d - 1) d * d.

(** [MIN(a, b)]: [_a < _b ? _a : _b]. *)
Definition MIN (a b : Z) : Z := if a <? b then a else b.

(** Truncation of a value to an unsigned integer of [w] bits. *)
Definition to_uint (w : Z) (v : Z) : Z := v mod 2 ^ w.


(** * Part I: the programs *)

(** ** The sample buffer (src/audio/samplebuffer.c) *)

Module SampleBuffer.

(** Uncached RDRAM, byte addressed. *)
Definition ram := Z -> Z.

(** [samplebuffer_t]: the fields the operations read and write.  The bound
    waveform and its read callback ([wave], [wv_read]) are the parameters of
    the section below. *)
Record samplebuffer_t := mk_samplebuffer {
  ptr_and_flags : Z;   (* uint32_t: buffer address, bps shift in the low bits *)
  size : Z;            (* capacity, in frames *)
  wpos : Z;            (* logical index of the first frame held *)
  widx : Z;            (* write cursor: number of valid frames *)
  ridx : Z;            (* read cursor: first frame still needed *)
  wnext : Z;           (* expected next append position *)
  state : Z;           (* address of the codec state region *)
  state_size : Z
}.

(** The buffer together with the memory that backs it. *)
Record sbstate := mk_sbstate { sb : samplebuffer_t; mem : ram }.

Definition set_flags (b : samplebuffer_t) (v : Z) : samplebuffer_t :=
  mk_samplebuffer v (size b) (wpos b) (widx b) (ridx b) (wnext b) (state b) (state_size b).
Definition set_size (b : samplebuffer_t) (v : Z) : samplebuffer_t :=
  mk_samplebuffer (ptr_and_flags b) v (wpos b) (widx b) (ridx b) (wnext b) (state b) (state_size b).
Definition set_wpos (b : samplebuffer_t) (v : Z) : samplebuffer_t :=
  mk_samplebuffer (ptr_and_flags b) (size b) v (widx b) (ridx b) (wnext b) (state b) (state_size b).
Definition set_widx (b : samplebuffer_t) (v : Z) : samplebuffer_t :=
  mk_samplebuffer (ptr_and_flags b) (size b) (wpos b) v (ridx b) (wnext b) (state b) (state_size b).
Definition set_ridx (b : samplebuffer_t) (v : Z) : samplebuffer_t :=
  mk_samplebuffer (ptr_and_flags b) (size b) (wpos b) (widx b) v (wnext b) (state b) (state_size b).
Definition set_wnext (b : samplebuffer_t) (v : Z) : samplebuffer_t :=
  mk_samplebuffer (ptr_and_flags b) (size b) (wpos b) (widx b) (ridx b) v (state b) (state_size b).

(** Modelled from the spec: samplebuffer.h is not among the sources.  The
    buffer address is 8-byte aligned and the bits-per-sample shift is kept
    in the two low bits of the tagged pointer:
    [SAMPLES_BPS_SHIFT(buf) = ptr_and_flags & 3],
    [SAMPLES_PTR(buf) = ptr_and_flags & ~3],
    [SAMPLES_PTR_MAKE(ptr, bps) = ptr | bps]. *)
Definition SAMPLES_BPS_SHIFT (b : samplebuffer_t) : Z := Z.land (ptr_and_flags b) 3.
Definition SAMPLES_PTR (b : samplebuffer_t) : Z := Z.land (ptr_and_flags b) (Z.lnot 3).
Definition SAMPLES_PTR_MAKE (ptr bps : Z) : Z := Z.lor ptr bps.

(** Modelled from the spec: n64sys.h is not among the sources.  The uncached
    view of an address is its alias in the uncached segment. *)
Definition UncachedAddr (a : Z) : Z := Z.lor a 0x20000000.

(** [ROUNDUP8_BPS(nsamples, bps)]:
    [(((nsamples)+((8>>(bps))-1)) >> (3-(bps)) << (3-(bps)))]. *)
Definition ROUNDUP8_BPS (nsamples bps : Z) : Z :=
  Z.shiftl (Z.shiftr (nsamples + (Z.shiftr 8 bps - 1)) (3 - bps)) (3 - bps).

(** [(x << bps) & m] is not zero. *)
Definition bits_set (x bps m : Z) : bool := negb (Z.land (Z.shiftl x bps) m =? 0).

(** *** samplebuffer_init *)
Definition samplebuffer_init (uncached_mem nbytes state_size : Z)
  : option samplebuffer_t :=
  _ ← assertf (UncachedAddr uncached_mem =? uncached_mem);
  let ptr_and_flags := to_uint 32 uncached_mem in
  _ ← assertf (Z.land ptr_and_flags 7 =? 0);
  Some (mk_samplebuffer ptr_and_flags nbytes 0 0 0 (-1)
          (if state_size =? 0 then 0 else uncached_mem + nbytes)
          (if state_size =? 0 then 0 else state_size)).

(** *** samplebuffer_set_bps *)
Definition samplebuffer_set_bps (b : samplebuffer_t) (bits_per_sample : Z)
  : option samplebuffer_t :=
  _ ← assertf ((bits_per_sample =? 8) || (bits_per_sample =? 16)
               || (bits_per_sample =? 32));
  _ ← assertf ((widx b =? 0) && (ridx b =? 0) && (wpos b =? 0));
  let nbytes := Z.shiftl (size b) (SAMPLES_BPS_SHIFT b) in
  let bps := if bits_per_sample =? 8 then 0
             else if bits_per_sample =? 16 then 1 else 2 in
  let b1 := set_flags b (SAMPLES_PTR_MAKE (SAMPLES_PTR b) bps) in
  Some (set_size b1 (Z.shiftr nbytes bps)).

(** *** samplebuffer_flush *)
Definition samplebuffer_flush (b : samplebuffer_t) : samplebuffer_t :=
  set_wnext (set_wpos (set_widx (set_ridx b 0) 0) 0) (-1).

(** *** samplebuffer_undo *)
Definition samplebuffer_undo (b : samplebuffer_t) (wlen : Z)
  : option samplebuffer_t :=
  _ ← assertf (widx b >=? wlen);
  Some (set_widx b (widx b - wlen)).

(** A 64-bit word is the 8 bytes it occupies in memory. *)
Definition load64 (m : ram) (a : Z) : list Z :=
  map (fun k => m (a + k)) [0; 1; 2; 3; 4; 5; 6; 7].

Definition store64 (m : ram) (a : Z) (w : list Z) : ram :=
  fun x => if (a <=? x) && (x <? a + 8)
           then nth (Z.to_nat (x - a)) w 0 else m x.

(** [for (int i=0;i<n;i++) *dst64++ = *src64++;], the [n] iterations
    counted upwards from [i]. *)
Fixpoint copy64 (n : nat) (m : ram) (dst src : Z) : ram :=
  match n with
  | O => m
  | S n' => copy64 n' (store64 m dst (load64 m src)) (dst + 8) (src + 8)
  end.

(** *** samplebuffer_discard
    The RSP queue synchronisation before the copy has no effect on the
    buffer or on memory and is left out. *)
Definition samplebuffer_discard (s : sbstate) (wpos_ : Z) : option sbstate :=
  let b := sb s in
  let bps := SAMPLES_BPS_SHIFT b in
  let idx := wpos_ - wpos b in
  if idx <=? 0 then Some s else
  let idx := if idx >? widx b then widx b else idx in
  let odd := bits_set idx bps 1 in
  let idx := if odd then idx - 1 else idx in
  if odd && (idx =? 0) then Some s else
  let kept_bytes := Z.shiftl (widx b - idx) bps in
  m' ← (if kept_bytes >? 0 then
          let src := SAMPLES_PTR b + Z.shiftl idx bps in
          let dst := SAMPLES_PTR b in
          _ ← assertf (Z.land (to_uint 32 dst) 7 =? 0);
          let kept_bytes := ROUND_UP kept_bytes 8 in
          Some (copy64 (Z.to_nat (Z.quot kept_bytes 8)) (mem s) dst src)
        else Some (mem s));
  let b1 := set_wpos b (wpos b + idx) in
  let b2 := set_widx b1 (widx b1 - idx) in
  let b3 := set_ridx b2 (ridx b2 - idx) in
  let b4 := if ridx b3 <? 0 then set_ridx b3 0 else b3 in
  Some (mk_sbstate b4 m').

(** [while ((ridx << bps) & 7) ridx--;] with the iterations bounded by
    [fuel]; eight iterations always suffice ([rollback_aligned]). *)
Fixpoint rollback (fuel : nat) (ridx_ bps : Z) : Z :=
  match fuel with
  | O => ridx_
  | S f => if bits_set ridx_ bps 7 then rollback f (ridx_ - 1) bps else ridx_
  end.

(** *** samplebuffer_append: the pointer returned and the new state. *)
Definition samplebuffer_append (s : sbstate) (wlen : Z) : option (Z * sbstate) :=
  let b := sb s in
  s1 ← (if widx b + wlen >? size b then
          _ ← assertf (widx b >=? ridx b);
          let ridx_ := rollback 8 (ridx b) (SAMPLES_BPS_SHIFT b) in
          samplebuffer_discard s (wpos b + ridx_)
        else Some s);
  let b1 := sb s1 in
  _ ← assertf (Z.rem (Z.shiftl (wpos b1) (SAMPLES_BPS_SHIFT b1)) 2 =? 0);
  _ ← assertf (widx b1 + wlen <=? size b1);
  let data := SAMPLES_PTR b1 + Z.shiftl (widx b1) (SAMPLES_BPS_SHIFT b1) in
  Some (data, mk_sbstate (set_widx b1 (widx b1 + wlen)) (mem s1)).

(** The read callback of the bound waveform,
    [wv_read(ctx, sbuf, wpos, wlen, seeking)]: it works on the codec's own
    state [C] and on the buffer, which it reaches through
    [samplebuffer_append] and [samplebuffer_undo]. *)
Definition WaveformRead (C : Type) : Type :=
  C -> sbstate -> Z -> Z -> bool -> option (C * sbstate).

Section Get.
Context {C : Type} (wv_read : WaveformRead C).

(** *** samplebuffer_get: the pointer returned, the updated [*wlen], the
    codec state and the buffer. *)
Definition samplebuffer_get (c : C) (s : sbstate) (wpos_ wlen : Z)
  : option (Z * Z * C * sbstate) :=
  let b := sb s in
  let bps := SAMPLES_BPS_SHIFT b in
  '(c1, s1) ←
    (if (widx b =? 0) || (wpos_ <? wpos b) || (wpos_ >? wpos b + widx b) then
       let seeking := negb (wpos_ =? wnext b) in
       let b1 := set_wpos (samplebuffer_flush b) wpos_ in
       let len := wlen in
       let odd := bits_set (wpos b1) bps 1 in
       let b2 := if odd then set_wpos b1 (wpos b1 - 1) else b1 in
       let len := if odd then len + 1 else len in
       '(c', s') ← wv_read c (mk_sbstate b2 (mem s)) (wpos b2)
                     (ROUNDUP8_BPS len bps) seeking;
       Some (c', mk_sbstate (set_wnext (sb s') (wpos (sb s') + widx (sb s')))
                            (mem s'))
     else
       let b1 := set_ridx b (wpos_ - wpos b) in
       let reuse := wpos b1 + widx b1 - wpos_ in
       if reuse <? wlen then
         _ ← assertf (wpos_ + reuse =? wnext b1);
         '(c', s') ← wv_read c (mk_sbstate b1 (mem s)) (wpos_ + reuse)
                       (ROUNDUP8_BPS (wlen - reuse) bps) false;
         Some (c', mk_sbstate (set_wnext (sb s') (wpos (sb s') + widx (sb s')))
                              (mem s'))
       else Some (c, mk_sbstate b1 (mem s)));
  let b1 := sb s1 in
  _ ← assertf ((wpos_ >=? wpos b1) && (wpos_ <? wpos b1 + widx b1));
  let idx := wpos_ - wpos b1 in
  let len := widx b1 - idx in
  let wlen' := if len <? wlen then len else wlen in
  Some (SAMPLES_PTR b1 + Z.shiftl idx (SAMPLES_BPS_SHIFT b1), wlen', c1, s1).

End Get.

(** A read callback reaches the buffer through [samplebuffer_append] and
    [samplebuffer_undo] only; its calls, in order, are a script. *)
Inductive producer_call := Append (wlen : Z) | Undo (wlen : Z).

Fixpoint run_calls (s : sbstate) (calls : list producer_call) : option sbstate :=
  match calls with
  | [] => Some s
  | Append n :: rest =>
      '(_, s1) ← samplebuffer_append s n; run_calls s1 rest
  | Undo n :: rest =>
      b ← samplebuffer_undo (sb s) n; run_calls (mk_sbstate b (mem s)) rest
  end.

(** The callback that issues the calls [f wpos wlen seeking]. *)
Definition script_read (f : Z -> Z -> bool -> list producer_call)
  : WaveformRead unit :=
  fun c s wpos_ wlen seeking =>
    s' ← run_calls s (f wpos_ wlen seeking); Some (c, s').

(** The raw PCM codec of wav64.c: [raw_waveform_read] appends [wlen] frames. *)
Definition raw_read : Z -> Z -> bool -> list producer_call :=
  fun _ wlen _ => [Append wlen].

(** The public operations on one sample buffer. *)
Inductive op :=
| OpInit (uncached_mem nbytes state_size : Z)
| OpSetBps (bits_per_sample : Z)
| OpGet (wpos_ wlen : Z)
| OpAppend (wlen : Z)
| OpUndo (wlen : Z)
| OpDiscard (wpos_ : Z)
| OpFlush.

Section Step.
Variable f : Z -> Z -> bool -> list producer_call.

Definition step (s : sbstate) (o : op) : option sbstate :=
  match o with
  | OpInit a n ss => b ← samplebuffer_init a n ss; Some (mk_sbstate b (mem s))
  | OpSetBps bits => b ← samplebuffer_set_bps (sb s) bits; Some (mk_sbstate b (mem s))
  | OpGet w n =>
      '(_, _, _, s') ← samplebuffer_get (script_read f) tt s w n; Some s'
  | OpAppend n => '(_, s') ← samplebuffer_append s n; Some s'
  | OpUndo n => b ← samplebuffer_undo (sb s) n; Some (mk_sbstate b (mem s))
  | OpDiscard w => samplebuffer_discard s w
  | OpFlush => Some (mk_sbstate (samplebuffer_flush (sb s)) (mem s))
  end.

Fixpoint run (s : sbstate) (ops : list op) : option sbstate :=
  match ops with
  | [] => Some s
  | o :: rest => s' ← step s o; run s' rest
  end.

(** The states a buffer goes through: any successful [samplebuffer_init],
    then any successful operations. *)
Inductive reachable : sbstate -> Prop :=
| reach_init a n ss b m :
    samplebuffer_init a n ss = Some b -> reachable (mk_sbstate b m)
| reach_step s o s' :
    reachable s -> step s o = Some s' -> reachable s'.

End Step.

(** The invariant of the cursors. *)
Definition cursors_ok (b : samplebuffer_t) : Prop :=
  0 <= ridx b /\ ridx b <= widx b /\ widx b <= size b.

(** The 2-byte phase of the window: [wpos << bps] is even. *)
Definition phase_ok (b : samplebuffer_t) : Prop :=
  Z.land (Z.shiftl (wpos b) (SAMPLES_BPS_SHIFT b)) 1 = 0.

(** A script never retracts more than it has appended so far ([bal]), and
    appends no negative length. *)
Fixpoint balanced (bal : Z) (calls : list producer_call) : Prop :=
  match calls with
  | [] => True
  | Append n :: rest => 0 <= n /\ balanced (bal + n) rest
  | Undo n :: rest => 0 <= n <= bal /\ balanced (bal - n) rest
  end.

Definition balanced_read (f : Z -> Z -> bool -> list producer_call) : Prop :=
  forall wpos_ wlen seeking, 0 <= wlen -> balanced 0 (f wpos_ wlen seeking).

(** The lengths an operation is called with respect the cursors. *)
Definition op_ok (s : sbstate) (o : op) : Prop :=
  match o with
  | OpInit _ n _ => 0 <= n
  | OpGet _ n => 0 <= n
  | OpAppend n => 0 <= n
  | OpUndo n => 0 <= n <= widx (sb s) - ridx (sb s)
  | _ => True
  end.

Fixpoint ops_ok (f : Z -> Z -> bool -> list producer_call)
    (s : sbstate) (ops : list op) : Prop :=
  match ops with
  | [] => True
  | o :: rest =>
      op_ok s o /\
      match step f s o with
      | Some s' => ops_ok f s' rest
      | None => True
      end
  end.

(** *** Vocabulary of the properties, and sample states *)

(** The index of the first frame kept by [samplebuffer_discard]. *)
Definition discard_idx (b : samplebuffer_t) (w : Z) : Z :=
  let idx := w - wpos b in
  let idx := if idx >? widx b then widx b else idx in
  if bits_set idx (SAMPLES_BPS_SHIFT b) 1 then idx - 1 else idx.

Definition discard_mem (s : sbstate) (idx : Z) : ram :=
  let b := sb s in
  let bps := SAMPLES_BPS_SHIFT b in
  let kept_bytes := Z.shiftl (widx b - idx) bps in
  if kept_bytes >? 0 then
    copy64 (Z.to_nat (Z.quot (ROUND_UP kept_bytes 8) 8)) (mem s)
      (SAMPLES_PTR b) (SAMPLES_PTR b + Z.shiftl idx bps)
  else mem s.

(** The buffer handed to the read callback when [samplebuffer_get] decodes
    from scratch, and the length it asks for. *)
Definition get_seek_buf (b : samplebuffer_t) (w : Z) : samplebuffer_t :=
  let b1 := set_wpos (samplebuffer_flush b) w in
  if bits_set (wpos b1) (SAMPLES_BPS_SHIFT b) 1
  then set_wpos b1 (wpos b1 - 1) else b1.

Definition get_seek_len (b : samplebuffer_t) (w n : Z) : Z :=
  ROUNDUP8_BPS (if bits_set w (SAMPLES_BPS_SHIFT b) 1 then n + 1 else n)
    (SAMPLES_BPS_SHIFT b).

Definition get_restarts (b : samplebuffer_t) (w : Z) : bool :=
  (widx b =? 0) || (w <? wpos b) || (w >? wpos b + widx b).

Definition stamp_wnext (s : sbstate) : sbstate :=
  mk_sbstate (set_wnext (sb s) (wpos (sb s) + widx (sb s))) (mem s).

Definition blank : sbstate :=
  mk_sbstate (mk_samplebuffer 0 0 0 0 0 0 0 0) (fun _ => 0).

Definition full16 : sbstate :=
  mk_sbstate (mk_samplebuffer 0xA0100001 32 0 32 0 32 0 0)
             (fun a => a mod 256).

Definition fresh8 : sbstate :=
  mk_sbstate (mk_samplebuffer 0xA0100000 64 0 0 0 (-1) 0 0) (fun _ => 0).

Definition fresh8_got : sbstate :=
  mk_sbstate (mk_samplebuffer 0xA0100000 64 4 8 0 12 0 0) (fun _ => 0).

(** *** Further vocabulary *)


(** The byte [k] of the frame of logical index [L]. *)
Definition frame_byte (s : sbstate) (L k : Z) : Z :=
  mem s (SAMPLES_PTR (sb s)
         + Z.shiftl (L - wpos (sb s)) (SAMPLES_BPS_SHIFT (sb s)) + k).

(** A buffer of 32 16-bit frames, full, of which the first 16 have been
    read; the byte at address [a] is [a mod 256]. *)
Definition half_read16 : sbstate :=
  mk_sbstate (mk_samplebuffer 0xA0100001 32 0 32 16 32 0 0)
             (fun a => a mod 256).

End SampleBuffer.

(** ** The VADPCM Huffman overlay
    (tools/audioconv64/huff_vadpcm.c, src/audio/wav64_vadpcm.c) *)

Module Huff.

Definition HUFF_TABLE_SIZE : nat := 16.
Definition HUFF_CONTEXTS : nat := 3.
Definition HUFF_CONTEXT_LEN : Z := 72.

(** [HuffNode]: a leaf carries its symbol, an inner node has [symbol = -1]. *)
Inductive HuffNode :=
| Leaf (symbol frequency : Z)
| Parent (frequency : Z) (lt rt : HuffNode).

Definition frequency (n : HuffNode) : Z :=
  match n with Leaf _ f => f | Parent f _ _ => f end.

Record HuffCode := mk_code { value : Z; length : Z }.

Definition compare_freq (a b : HuffNode) : Z := frequency a - frequency b.

(** [qsort(heap, hsize, sizeof(HuffNode* ), compare_freq)].  C leaves the
    order of elements that compare equal unspecified; the model keeps them
    in their order (insertion sort). *)
Fixpoint insert_node (x : HuffNode) (l : list HuffNode) : list HuffNode :=
  match l with
  | [] => [x]
  | y :: rest =>
      if compare_freq x y <=? 0 then x :: y :: rest
      else y :: insert_node x rest
  end.

Definition qsort (l : list HuffNode) : list HuffNode :=
  fold_right insert_node [] l.

(** The [while (hsize > 1)] loop of [build_huffman_tree]; each iteration
    removes one node, so [fuel = hsize] iterations are enough.  With an
    empty heap the C code returns an uninitialised pointer: [None]. *)
Fixpoint merge_heap (fuel : nat) (heap : list HuffNode) : option HuffNode :=
  match heap with
  | [] => None
  | [root] => Some root
  | lt :: rt :: rest =>
      match fuel with
      | O => None
      | S fuel' =>
          let parent := Parent (frequency lt + frequency rt) lt rt in
          merge_heap fuel' (qsort (rest ++ [parent]))
      end
  end.

Definition build_huffman_tree (frequencies : list Z) : option HuffNode :=
  let heap :=
    omap (fun '(i, f) => if f =? 0 then None else Some (Leaf (Z.of_nat i) f))
         (imap (fun i f => (i, f)) frequencies) in
  merge_heap (List.length heap) (qsort heap).

Fixpoint generate_huffman_codes (root : HuffNode) (code len : Z)
    (codes : list HuffCode) : list HuffCode :=
  match root with
  | Leaf symbol _ => <[Z.to_nat symbol := mk_code code len]> codes
  | Parent _ lt rt =>
      let codes := generate_huffman_codes lt (Z.lor (Z.shiftl code 1) 0)
                     (len + 1) codes in
      generate_huffman_codes rt (Z.lor (Z.shiftl code 1) 1) (len + 1) codes
  end.

(** The context of nibble [i] of a frame: [(i < 2) ? i : 2]. *)
Definition context_of (i : nat) : nat := if (i <? 2)%nat then i else 2%nat.

(** [freq->freq[c][sym]++] *)
Definition bump (c : nat) (sym : Z) (freq : list (list Z)) : list (list Z) :=
  alter (alter Z.succ (Z.to_nat sym)) c freq.

(** One pass of [for (int i = 0; i < 18; i+=2)] over the 9 bytes of a
    frame, counting the two nibbles of each byte. *)
Definition count_frame (frame : list Z) (freq : list (list Z)) : list (list Z) :=
  fold_left
    (fun fr j =>
       let byte := nth j frame 0 in
       let sym0 := Z.shiftr byte 4 in
       let sym1 := Z.land byte 15 in
       bump (context_of (2 * j + 1)) sym1 (bump (context_of (2 * j)) sym0 fr))
    (seq 0 9) freq.

(** [while (data_len > 0)]: one iteration per frame of 9 bytes. *)
Fixpoint count_frames (nframes : nat) (input_data : list Z)
    (freq : list (list Z)) : list (list Z) :=
  match nframes with
  | O => freq
  | S n => count_frames n (drop 9 input_data) (count_frame (take 9 input_data) freq)
  end.

Definition sumZ (l : list Z) : Z := fold_left Z.add l 0.

(** The normalisation of one context: [(freq * 255 + sum - 1) / sum]. *)
Definition normalize (fr : list Z) : option (list Z) :=
  let sum := sumZ fr in
  if sum =? 0 then Some fr
  else mapM (fun f =>
               let nfreq := Z.quot (f * 255 + sum - 1) sum in
               _ ← assertf (negb (nfreq =? 0) || (f =? 0));
               Some nfreq) fr.

Definition calculate_frequencies (input_data : list Z) : option (list (list Z)) :=
  let data_len := Z.of_nat (List.length input_data) in
  _ ← assertf (Z.rem data_len 9 =? 0);
  let freq := count_frames (Z.to_nat (Z.quot data_len 9)) input_data
                (repeat (repeat 0 HUFF_TABLE_SIZE) HUFF_CONTEXTS) in
  mapM normalize freq.

(** The [while (1)] loop that builds the code of one context and halves
    the frequencies until no code is longer than 8 bits. *)
Fixpoint build_context (fuel : nat) (fr : list Z) (codes : list HuffCode)
  : option (list HuffCode) :=
  match fuel with
  | O => None
  | S fuel' =>
      let codes := map (fun c => mk_code (value c) (-1)) codes in
      root ← build_huffman_tree fr;
      let codes := generate_huffman_codes root 0 0 codes in
      if forallb (fun c => length c <=? 8) codes then Some codes
      else build_context fuel'
             (map (fun f => if f >? 1 then Z.quot f 2 else f) fr) codes
  end.

(** The serialisation of one context: 8 bytes of packed lengths, then the
    16 code values.  The countdown of [outctxlen] is checked once, on the
    total, in [huffv_compress]. *)
Definition serialize_context (codes : list HuffCode) : option (list Z) :=
  lens ← mapM (fun j =>
                 let c0 := nth (2 * j) codes (mk_code 0 0) in
                 let c1 := nth (2 * j + 1) codes (mk_code 0 0) in
                 _ ← assertf (length c0 <? 16);
                 _ ← assertf (length c1 <? 16);
                 let l0 := if length c0 <? 0 then 0xF else length c0 in
                 let l1 := if length c1 <? 0 then 0xF else length c1 in
                 Some (to_uint 8 (Z.lor (Z.lor 0 (Z.shiftl l0 4)) (Z.shiftl l1 0))))
              (seq 0 8);
  vals ← mapM (fun c => _ ← assertf (value c <? 256); Some (to_uint 8 (value c)))
              codes;
  Some (lens ++ vals).

(** The bit writer: [buffer] is a [uint32_t], [out] the bytes written so
    far (in order). *)
Record bitwriter := mk_bw { buffer : Z; bit_pos : Z; out : list Z }.

(** [while (bit_pos >= 8) output[written++] = buffer >> (bit_pos - 8)];
    at most [fuel] bytes. *)
Fixpoint drain (fuel : nat) (output_len : Z) (w : bitwriter) : option bitwriter :=
  if bit_pos w >=? 8 then
    match fuel with
    | O => None
    | S fuel' =>
        _ ← assertf (Z.of_nat (List.length (out w)) <? output_len);
        drain fuel' output_len
          (mk_bw (buffer w) (bit_pos w - 8)
                 (out w ++ [to_uint 8 (Z.shiftr (buffer w) (bit_pos w - 8))]))
    end
  else Some w.

Definition put_code (c : HuffCode) (w : bitwriter) : option bitwriter :=
  _ ← assertf (length c >=? 0);
  Some (mk_bw (to_uint 32 (Z.lor (Z.shiftl (buffer w) (length c)) (value c)))
              (bit_pos w + length c) (out w)).

Definition encode_frame (ctx : list (list HuffCode)) (output_len : Z)
    (frame : list Z) (w : bitwriter) : option bitwriter :=
  foldl
    (fun ow j =>
       w ← ow;
       let byte := nth j frame 0 in
       let sym0 := Z.shiftr byte 4 in
       let sym1 := Z.land byte 15 in
       let code_at c sym :=
         nth (Z.to_nat sym) (nth c ctx []) (mk_code 0 (-1)) in
       let k0 := code_at (context_of (2 * j)) sym0 in
       let k1 := code_at (context_of (2 * j + 1)) sym1 in
       _ ← assertf (length k0 >=? 0);
       _ ← assertf (length k1 >=? 0);
       w ← put_code k0 w;
       w ← put_code k1 w;
       drain 4 output_len w)
    (Some w) (seq 0 9).

Fixpoint encode_frames (nframes : nat) (ctx : list (list HuffCode))
    (output_len : Z) (input_data : list Z) (w : bitwriter) : option bitwriter :=
  match nframes with
  | O => Some w
  | S n =>
      w ← encode_frame ctx output_len (take 9 input_data) w;
      encode_frames n ctx output_len (drop 9 input_data) w
  end.

(** *** huffv_compress: the bytes written to [output] and to [outctx]. *)
Definition huffv_compress (input_data : list Z) (output_len outctxlen : Z)
  : option (list Z * list Z) :=
  let data_len := Z.of_nat (List.length input_data) in
  _ ← assertf (data_len >? 0);
  freq ← calculate_frequencies input_data;
  ctx ← mapM (fun fr => build_context 16 fr (repeat (mk_code 0 0) HUFF_TABLE_SIZE))
             freq;
  sctx ← mapM serialize_context ctx;
  let outctx := concat sctx in
  _ ← assertf (Z.of_nat (List.length outctx) =? outctxlen);
  _ ← assertf (Z.rem data_len 9 =? 0);
  w ← encode_frames (Z.to_nat (Z.quot data_len 9)) ctx output_len input_data
        (mk_bw 0 0 []);
  w ← (if bit_pos w >? 0 then
         _ ← assertf (Z.of_nat (List.length (out w)) <? output_len);
         _ ← assertf (bit_pos w <? 8);
         Some (mk_bw (buffer w) (bit_pos w)
                 (out w ++ [to_uint 8 (Z.shiftl (buffer w) (8 - bit_pos w))]))
       else Some w);
  Some (out w, outctx).

(** [HuffSerializedCtx] / [wav64_vadpcm_huffctx_t]: 8 bytes of lengths,
    16 bytes of values. *)
Record HuffSerializedCtx := mk_sctx { lengths : list Z; values : list Z }.

(** The context stored at [ctx_data + i * 24]. *)
Definition sctx_at (ctx_data : list Z) (i : nat) : HuffSerializedCtx :=
  mk_sctx (take 8 (drop (i * 24) ctx_data))
          (take 16 (drop (i * 24 + 8) ctx_data)).

(** [lengths[sym/2] >> (4 * (~sym&1)) & 0xF] *)
Definition stored_length (c : HuffSerializedCtx) (sym : nat) : Z :=
  Z.land (Z.shiftr (nth (sym / 2) (lengths c) 0)
                   (4 * Z.land (Z.lnot (Z.of_nat sym)) 1)) 0xF.

(** [for (k = 0; k < count; k++) { assert(codes[code + k] == 0);
    codes[code + k] = table_value; }], from [k] upwards. *)
Fixpoint fill (count : nat) (k : nat) (code : nat) (table_value : Z)
    (codes : list Z) : option (list Z) :=
  match count with
  | O => Some codes
  | S count' =>
      _ ← assertf (nth (code + k) codes 0 =? 0);
      fill count' (S k) code table_value (<[(code + k)%nat := table_value]> codes)
  end.

(** The body of the loop over the symbols: an unused symbol is skipped,
    the code of a used one fills its slots.  [fits value len] is the check
    the caller makes on a code value. *)
Definition add_symbol (fits : Z -> Z -> bool) (c : HuffSerializedCtx)
    (ocodes : option (list Z)) (sym : nat) : option (list Z) :=
  codes ← ocodes;
  let len := stored_length c sym in
  if len =? 0xF then Some codes else
  _ ← assertf (len <=? 8);
  let v := nth sym (values c) 0 in
  _ ← assertf (fits v len);
  let shift := 8 - len in
  let code := Z.shiftl v shift in
  let table_value :=
    to_uint 8 (Z.lor (Z.shiftl (Z.of_nat sym) 4) (Z.land len 0xF)) in
  fill (Z.to_nat (Z.shiftl 1 shift)) 0 (Z.to_nat code) table_value codes.

(** The table of one context: start from 256 zero entries, add the
    symbols, check that no entry is left at zero. *)
Definition build_lookup (fits : Z -> Z -> bool) (c : HuffSerializedCtx)
  : option (list Z) :=
  codes ← foldl (add_symbol fits c) (Some (repeat 0 256)) (seq 0 HUFF_TABLE_SIZE);
  _ ← assertf (forallb (fun e => negb (e =? 0)) codes);
  Some codes.

(** *** huffv_decompress_init (the converter):
    [assert(sctx->values[sym] < (1 << len))]. *)
Definition huffv_decompress_init (ctx_data : list Z) (ctx_len : Z)
  : option (list (list Z)) :=
  _ ← assertf (ctx_len =? HUFF_CONTEXT_LEN);
  mapM (fun i => build_lookup (fun v len => v <? Z.shiftl 1 len) (sctx_at ctx_data i))
       (seq 0 HUFF_CONTEXTS).

(** *** wav64_vadpcm_init_huffman (the player):
    [assert((ctx[i].values[j] >> len) == 0)]. *)
Definition wav64_vadpcm_init_huffman (huff_ctx : list HuffSerializedCtx)
  : option (list (list Z)) :=
  mapM (fun i =>
          build_lookup (fun v len => Z.shiftr v len =? 0)
            (nth i huff_ctx (mk_sctx [] [])))
       (seq 0 3).

(** The bit reader of [huffv_decompress]: [bit_buffer] is a [uint32_t]. *)
Record bitreader := mk_br { bit_buffer : Z; bit_count : Z; comp_index : Z }.

(** [while (bit_count < 8)]: refill one byte at a time. *)
Fixpoint refill (fuel : nat) (compressed : list Z) (r : bitreader)
  : option bitreader :=
  if bit_count r <? 8 then
    match fuel with
    | O => None
    | S fuel' =>
        let bb := to_uint 32 (Z.shiftl (bit_buffer r) 8) in
        let bb := if comp_index r <? Z.of_nat (List.length compressed)
                  then Z.lor bb (nth (Z.to_nat (comp_index r)) compressed 0)
                  else bb in
        refill fuel' compressed (mk_br bb (bit_count r + 8) (comp_index r + 1))
    end
  else Some r.

(** One symbol: the nibble decoded and the reader after it. *)
Definition decode_symbol (compressed : list Z) (lookup : list (list Z))
    (n : nat) (r : bitreader) : option (Z * bitreader) :=
  r ← refill 2 compressed r;
  let index := Z.land (Z.shiftr (bit_buffer r) (bit_count r - 8)) 0xFF in
  let code_val := nth (Z.to_nat index) (nth (context_of n) lookup []) 0 in
  let symbol := Z.shiftr code_val 4 in
  let code_len := Z.land code_val 0x0F in
  _ ← assertf (code_len <=? 8);
  Some (to_uint 8 symbol, mk_br (bit_buffer r) (bit_count r - code_len) (comp_index r)).

(** The 18 nibbles of a block, then the 9 bytes they make. *)
Definition decode_block (compressed : list Z) (lookup : list (list Z))
    (r : bitreader) : option (list Z * bitreader) :=
  '(nibbles, r) ← foldl
     (fun acc n =>
        '(nibbles, r) ← acc;
        '(sym, r) ← decode_symbol compressed lookup n r;
        Some (nibbles ++ [sym], r))
     (Some ([], r)) (seq 0 18);
  Some (map (fun i =>
               to_uint 8 (Z.lor (Z.shiftl (nth (2 * i) nibbles 0) 4)
                                (Z.land (nth (2 * i + 1) nibbles 0) 0x0F)))
            (seq 0 9), r).

Fixpoint decode_blocks (num_blocks : nat) (compressed : list Z)
    (lookup : list (list Z)) (r : bitreader) (output : list Z)
  : option (list Z * bitreader) :=
  match num_blocks with
  | O => Some (output, r)
  | S n =>
      '(bytes, r) ← decode_block compressed lookup r;
      decode_blocks n compressed lookup r (output ++ bytes)
  end.

(** *** huffv_decompress: the bytes written to [output] and the number of
    bits consumed. *)
Definition huffv_decompress (compressed : list Z) (lookup : list (list Z))
    (output_len : Z) : option (list Z * Z) :=
  _ ← assertf (Z.rem output_len 9 =? 0);
  let num_blocks := Z.quot output_len 9 in
  '(output, r) ← decode_blocks (Z.to_nat num_blocks) compressed lookup
                   (mk_br 0 0 0) [];
  Some (output, comp_index r * 8 - bit_count r).

(** Compress, build the tables from the serialised contexts, decompress:
    the check [wav64_write] runs after [huffv_compress]. *)
Definition roundtrip (input_data : list Z) (output_len : Z) : option (list Z) :=
  '(compressed, ctx) ← huffv_compress input_data output_len HUFF_CONTEXT_LEN;
  lookup ← huffv_decompress_init ctx HUFF_CONTEXT_LEN;
  '(output, _) ← huffv_decompress compressed lookup
                   (Z.of_nat (List.length input_data));
  Some output.

(** *** Vocabulary of the properties, and sample contexts *)

(** The table entry of a used symbol. *)
Definition entry_of (c : HuffSerializedCtx) (sym : nat) : Z :=
  to_uint 8 (Z.lor (Z.shiftl (Z.of_nat sym) 4) (Z.land (stored_length c sym) 0xF)).

(** After the symbols below [s]: every entry is empty or is the entry of
    one of them. *)
Definition filled_by (c : HuffSerializedCtx) (s : nat) (codes : list Z) : Prop :=
  List.length codes = 256%nat /\
  forall j, (j < 256)%nat ->
    nth j codes 0 = 0 \/
    exists sym, (sym < s)%nat /\ stored_length c sym <> 0xF /\
                stored_length c sym <= 8 /\ nth j codes 0 = entry_of c sym.

(** A frame of silence: control byte 0 and residuals 0. *)
Definition silence : list Z := repeat 0 9%nat.

(** The context of a stream whose only symbol is 0: symbol 0 has length 0,
    the other symbols are unused ([0xF]). *)
Definition lone_zero : HuffSerializedCtx :=
  mk_sctx [0x0F; 0xFF; 0xFF; 0xFF; 0xFF; 0xFF; 0xFF; 0xFF] (repeat 0 16%nat).

(** The context whose only symbol is 5, with length 0. *)
Definition lone_five : HuffSerializedCtx :=
  mk_sctx [0xFF; 0xFF; 0xF0; 0xFF; 0xFF; 0xFF; 0xFF; 0xFF] (repeat 0 16%nat).

(** The bits of the code of [sym], most significant first. *)
Definition code_bits (c : HuffSerializedCtx) (sym : nat) : list bool :=
  let len := stored_length c sym in
  map (fun i => Z.testbit (nth sym (values c) 0) (len - 1 - Z.of_nat i))
      (seq 0 (Z.to_nat len)).

Definition used_symbols (c : HuffSerializedCtx) : list nat :=
  filter (fun sym => stored_length c sym <> 0xF) (seq 0 HUFF_TABLE_SIZE).

Fixpoint is_prefix (a b : list bool) : bool :=
  match a, b with
  | [], _ => true
  | x :: a', y :: b' => Bool.eqb x y && is_prefix a' b'
  | _ :: _, [] => false
  end.

(** A context is a valid prefix code: the lengths are at most 8, each value
    fits its length, no code is a prefix of another, and the codes cover
    every 8-bit lookahead (Kraft sum 1). *)
Definition valid_prefix_code (c : HuffSerializedCtx) : bool :=
  let syms := used_symbols c in
  forallb (fun s => (stored_length c s <=? 8)
                    && (nth s (values c) 0 <? 2 ^ stored_length c s)) syms
  && forallb (fun s1 =>
       forallb (fun s2 => (s1 =? s2)%nat
                          || negb (is_prefix (code_bits c s1) (code_bits c s2)))
               syms) syms
  && (sumZ (map (fun s => 2 ^ (8 - stored_length c s)) syms) =? 256).

(** *** Further vocabulary *)

(** The bits the reader has consumed: [comp_index * 8 - bit_count]. *)
Definition consumed (r : bitreader) : Z := comp_index r * 8 - bit_count r.

(** The three tables of a stream: 256 entries each, every entry with a
    length of at most 8 in its low nibble. *)
Definition tables_ok (lookup : list (list Z)) : Prop :=
  List.length lookup = 3%nat /\
  forall t, In t lookup ->
    List.length t = 256%nat /\
    forall j, (j < 256)%nat -> 0 <= Z.land (nth j t 0) 0x0F <= 8.

(** A context of two symbols: 0 with the code [0], 1 with the code [1]. *)
Definition coin : HuffSerializedCtx :=
  mk_sctx [0x11; 0xFF; 0xFF; 0xFF; 0xFF; 0xFF; 0xFF; 0xFF]
          (0 :: 1 :: repeat 0 14%nat).

(** The three contexts of a stream, all of them [coin]. *)
Definition coin_data : list Z :=
  concat (repeat (lengths coin ++ values coin) 3).

(** The slots of the table that start with the code of [sym]. *)
Definition code_slots (c : HuffSerializedCtx) (sym : nat) (j : nat) : Prop :=
  let len := stored_length c sym in
  let v := nth sym (values c) 0 in
  v * 2 ^ (8 - len) <= Z.of_nat j < (v + 1) * 2 ^ (8 - len).

(** The symbol has a code: its stored length is not the marker 0xF. *)
Definition used (c : HuffSerializedCtx) (sym : nat) : Prop :=
  (sym < 16)%nat /\ stored_length c sym <> 0xF.

(** The check [huffv_decompress_init] makes on a code value. *)
Definition fits_init : Z -> Z -> bool := fun v len => v <? Z.shiftl 1 len.

(** After the symbols below [s]: every slot is empty or holds the entry
    of one of them, and the slots that hold the entry of a symbol are
    those that start with its code. *)
Definition exact_by (c : HuffSerializedCtx) (s : nat) (codes : list Z) : Prop :=
  List.length codes = 256%nat /\
  (forall sym, (sym < s)%nat -> used c sym -> stored_length c sym <= 8) /\
  forall j, (j < 256)%nat ->
    (nth j codes 0 = 0 \/
     exists sym, (sym < s)%nat /\ used c sym /\ nth j codes 0 = entry_of c sym) /\
    forall sym, (sym < s)%nat -> used c sym ->
      (code_slots c sym j <-> nth j codes 0 = entry_of c sym).

(** What the bit writer has put out so far fits the output buffer. *)
Definition out_ok (output_len : Z) (w : bitwriter) : Prop :=
  Z.of_nat (List.length (out w)) <= output_len /\
  Forall (fun b => 0 <= b < 256) (out w).

(** The leaves of a tree, left to right: symbol and frequency. *)
Fixpoint leaves (n : HuffNode) : list (Z * Z) :=
  match n with
  | Leaf s f => [(s, f)]
  | Parent _ lt rt => leaves lt ++ leaves rt
  end.

(** Every inner node carries the sum of the frequencies of its two
    children. *)
Fixpoint sums_ok (n : HuffNode) : Prop :=
  match n with
  | Leaf _ _ => True
  | Parent f lt rt => f = frequency lt + frequency rt /\ sums_ok lt /\ sums_ok rt
  end.

(** The symbols that occur, with their frequencies, in increasing order of
    the symbol. *)
Definition occurring (frequencies : list Z) : list (Z * Z) :=
  omap (fun '(i, f) => if f =? 0 then None else Some (Z.of_nat i, f))
       (imap (fun i f => (i, f)) frequencies).

(** The leaves and the total frequency of the trees of a heap. *)
Definition heap_leaves (h : list HuffNode) : list (Z * Z) := flat_map leaves h.

Definition heap_weight (h : list HuffNode) : Z := sumZ (map frequency h).

(** The codes [generate_huffman_codes] assigns below a node reached with
    [code] and [len], left to right. *)
Fixpoint tree_codes (n : HuffNode) (code len : Z) : list (Z * HuffCode) :=
  match n with
  | Leaf s _ => [(s, mk_code code len)]
  | Parent _ lt rt =>
      tree_codes lt (Z.lor (Z.shiftl code 1) 0) (len + 1)
      ++ tree_codes rt (Z.lor (Z.shiftl code 1) 1) (len + 1)
  end.

(** The code [k1] is a prefix of the code [k2]: the first [length k1] bits
    of [k2] are [k1]. *)
Definition code_prefix (k1 k2 : HuffCode) : Prop :=
  length k1 <= length k2 /\
  Z.shiftr (value k2) (length k2 - length k1) = value k1.

(** The table [codes] with each code of [l] stored at its symbol. *)
Definition put_codes (codes : list HuffCode) (l : list (Z * HuffCode)) : list HuffCode :=
  foldl (fun cs '(s, k) => <[Z.to_nat s := k]> cs) codes l.

End Huff.

(** ** Big-endian output and placeholders (tools/common/binout.c) *)

Module Binout.

(** A [FILE] opened for writing: its bytes and the file position. *)
Record FILE := mk_file { data : list Z; fpos : Z }.

(** [fputc(v, f)]: the byte goes at the file position, which may be inside
    the file (after an [fseek]), at its end, or past it (the gap reads as
    zeros). *)
Definition fputc (v : Z) (f : FILE) : FILE :=
  let p := Z.to_nat (fpos f) in
  let d := if (p <? List.length (data f))%nat then <[p := v]> (data f)
           else data f ++ repeat 0 (p - List.length (data f)) ++ [v] in
  mk_file d (fpos f + 1).

Definition ftell (f : FILE) : Z := fpos f.
Definition fseek (f : FILE) (pos : Z) : FILE := mk_file (data f) pos.

(** [_wconv(type, v)] for a [type] of [tbits] bits and a value [v] of a
    signed type of [vbits] bits: when the value is wider than the type, its
    bits above the type must be a sign extension. *)
Definition wconv (tbits vbits : Z) (v : Z) : option Z :=
  _ ← (if tbits <? vbits then
         let ext := Z.shiftr (Z.shiftr v (tbits - 1)) 1 in
         assertf ((ext =? 0) || (ext =? -1))
       else Some tt);
  Some (to_uint tbits v).

(** [_w8], [_w16], [_w32], [_w64]: the inner conversions are on values
    that already fit and cannot fail. *)
Definition _w8 (f : FILE) (v : Z) : FILE := fputc v f.
Definition _w16 (f : FILE) (v : Z) : FILE :=
  _w8 (_w8 f (Z.shiftr v 8)) (Z.land v 0xff).
Definition _w32 (f : FILE) (v : Z) : FILE :=
  _w16 (_w16 f (Z.shiftr v 16)) (Z.land v 0xffff).
Definition _w64 (f : FILE) (v : Z) : FILE :=
  _w32 (_w32 f (Z.shiftr v 32)) (Z.land v 0xffffffff).

(** The writer of a field of [bits] bits. *)
Definition _w (bits : Z) : FILE -> Z -> FILE :=
  if bits =? 8 then _w8 else if bits =? 16 then _w16
  else if bits =? 32 then _w32 else _w64.

(** [w8], [w16], [w32], [w64] applied to a value of a type of [vbits]
    bits. *)
Definition w (bits vbits : Z) (f : FILE) (v : Z) : option FILE :=
  v' ← wconv bits vbits v; Some (_w bits f v').

(** [w8_at] .. [w64_at]: write at [pos], then come back. *)
Definition w_at (bits vbits : Z) (f : FILE) (pos v : Z) : option FILE :=
  v' ← wconv bits vbits v;
  let cur := ftell f in
  _ ← assertf (cur >=? 0);
  Some (fseek (_w bits (fseek f pos) v') cur).

Record placeholder_data := mk_pd {
  offset : Z;                      (* int64_t, -1 until set *)
  pending_offsets_64 : list Z;     (* uint64_t* *)
  pending_offsets_32 : list Z;     (* uint32_t* *)
  pending_offsets_16 : list Z;     (* uint16_t* *)
  pending_offsets_8 : list Z       (* uint8_t* *)
}.

(** The writer's state: the output file and [placeholder_hash]. *)
Record state := mk_state { file : FILE; placeholder_hash : gmap string placeholder_data }.

(** [__placeholder_get_data]: the entry of [name], created with offset -1
    and no pending reference when absent. *)
Definition __placeholder_get_data (name : string)
    (h : gmap string placeholder_data) : placeholder_data :=
  match h !! name with
  | Some d => d
  | None => mk_pd (-1) [] [] [] []
  end.

(** [for (i...) wN_at(file, pending[i], data->offset)] *)
Definition patch_all (bits : Z) (off : Z) (pending : list Z) (f : FILE)
  : option FILE :=
  foldl (fun of_ pos => f ← of_; w_at bits 64 f pos off) (Some f) pending.

(** *** __placeholder_make.  The pending 64-bit references are patched
    with [w32_at], as in the source. *)
Definition __placeholder_make (s : state) (off : Z) (name : string)
  : option state :=
  let d := __placeholder_get_data name (placeholder_hash s) in
  f ← patch_all 32 off (pending_offsets_64 d) (file s);
  f ← patch_all 32 off (pending_offsets_32 d) f;
  f ← patch_all 16 off (pending_offsets_16 d) f;
  f ← patch_all 8 off (pending_offsets_8 d) f;
  Some (mk_state f (<[name := mk_pd off [] [] [] []]> (placeholder_hash s))).

(** [placeholder_set]: the offset is the current file position. *)
Definition placeholder_set (s : state) (name : string) : option state :=
  __placeholder_make s (ftell (file s)) name.

Definition placeholder_set_offset (s : state) (off : Z) (name : string)
  : option state :=
  __placeholder_make s off name.

(** The position a pending array keeps for a reference at [pos].  The
    arrays are [uint64_t*], [uint32_t*], [uint16_t*] and [uint8_t*], and
    [stbds_arrpush(data->pending_offsets_N, ftell(file))] converts the
    position to the element type: the 16-bit and the 8-bit array keep its
    low 16 and 8 bits.  A file position is an [int] in binout.c
    ([int pos = ftell(f)], [_w32_at(FILE *f, int pos, ...)]), which the
    two wide arrays hold as it is. *)
Definition pending_pos (bits pos : Z) : Z :=
  if (bits =? 8) || (bits =? 16) then to_uint bits pos else pos.

(** [stbds_arrpush(data->pending_offsets_N, ftell(file))] *)
Definition push_pending (bits : Z) (d : placeholder_data) (pos : Z)
  : placeholder_data :=
  if bits =? 8 then
    mk_pd (offset d) (pending_offsets_64 d) (pending_offsets_32 d)
          (pending_offsets_16 d) (pending_offsets_8 d ++ [pending_pos 8 pos])
  else if bits =? 16 then
    mk_pd (offset d) (pending_offsets_64 d) (pending_offsets_32 d)
          (pending_offsets_16 d ++ [pending_pos 16 pos]) (pending_offsets_8 d)
  else if bits =? 32 then
    mk_pd (offset d) (pending_offsets_64 d)
          (pending_offsets_32 d ++ [pending_pos 32 pos])
          (pending_offsets_16 d) (pending_offsets_8 d)
  else
    mk_pd (offset d) (pending_offsets_64 d ++ [pending_pos 64 pos])
          (pending_offsets_32 d) (pending_offsets_16 d) (pending_offsets_8 d).

(** *** __w8_placeholder_named .. __w64_placeholder_named, by width. *)
Definition __w_placeholder_named (bits : Z) (s : state) (name : string)
  : option state :=
  let d := __placeholder_get_data name (placeholder_hash s) in
  if offset d =? -1 then
    f ← w bits 32 (file s) 0;
    Some (mk_state f (<[name := push_pending bits d (ftell (file s))]>
                        (placeholder_hash s)))
  else
    f ← w bits 64 (file s) (offset d);
    Some (mk_state f (<[name := d]> (placeholder_hash s))).

Definition __w64_placeholder_named := __w_placeholder_named 64.
Definition __w32_placeholder_named := __w_placeholder_named 32.
Definition __w16_placeholder_named := __w_placeholder_named 16.
Definition __w8_placeholder_named := __w_placeholder_named 8.

(** The unsigned value of a big-endian field. *)
Definition be_value (bytes : list Z) : Z :=
  fold_left (fun acc b => acc * 256 + b) bytes 0.

(** The field of [bits] bits at [pos]. *)
Definition field (f : FILE) (pos : Z) (bits : Z) : list Z :=
  take (Z.to_nat (bits / 8)) (drop (Z.to_nat pos) (data f)).

Definition empty : state := mk_state (mk_file [] 0) ∅.

(** Emit a placeholder of each width under one name, set the name at the
    end of the 15 bytes, then emit a 64-bit placeholder again. *)
Definition all_widths : option state :=
  s ← __w64_placeholder_named empty "x";
  s ← __w32_placeholder_named s "x";
  s ← __w16_placeholder_named s "x";
  s ← __w8_placeholder_named s "x";
  s ← placeholder_set s "x";
  __w64_placeholder_named s "x".

(** *** w32_placeholder, walign, wpad *)

(** [w32_placeholder]: the position of the field, and the file after the
    zero written there. *)
Definition w32_placeholder (f : FILE) : option (Z * FILE) :=
  let pos := ftell f in
  f' ← w 32 32 f 0; Some (pos, f').

(** [while (pos++ % align) w8(f, 0);] with the iterations bounded by
    [fuel]; a division by zero aborts. *)
Fixpoint walign_loop (fuel : nat) (f : FILE) (pos align : Z) : option FILE :=
  _ ← assertf (negb (align =? 0));
  if negb (Z.rem pos align =? 0) then
    match fuel with
    | O => None
    | S fuel' => f' ← w 8 32 f 0; walign_loop fuel' f' (pos + 1) align
    end
  else Some f.

(** [walign]: fewer than [|align|] iterations reach a multiple. *)
Definition walign (f : FILE) (align : Z) : option FILE :=
  let pos := ftell f in
  _ ← assertf (pos >=? 0);
  walign_loop (Z.to_nat (Z.abs align)) f pos align.

(** [wpad]: [while (size--) w8(f, 0);].  A negative [size] never reaches
    zero: the counter runs past [INT_MIN], which C leaves undefined. *)
Definition wpad (f : FILE) (size_ : Z) : option FILE :=
  if size_ <? 0 then None
  else foldl (fun of_ _ => f ← of_; w 8 32 f 0) (Some f) (seq 0 (Z.to_nat size_)).

(** The bytes [bs] put one after the other from the file position. *)
Definition put_bytes (f : FILE) (bs : list Z) : FILE :=
  foldl (fun f b => fputc b f) f bs.

End Binout.

(** ** The readers of the XM module loader (src/audio/libxm/context.c) *)

Module XmLoader.
Import Binout.

(** [fread(&u8, 1, 1, in)]: the byte at the file position.  At the end of
    the file nothing is read and [u8] stays uninitialised: [None]. *)
Definition fread1 (f : FILE) : option (Z * FILE) :=
  _ ← assertf (fpos f >=? 0);
  b ← data f !! Z.to_nat (fpos f);
  Some (b, mk_file (data f) (fpos f + 1)).

(** [_R8], [_R16], [_R32], [_R64]: the high half is read first. *)
Definition _R8 (f : FILE) : option (Z * FILE) := fread1 f.

Definition _R16 (f : FILE) : option (Z * FILE) :=
  '(hi2, f) ← _R8 f; '(lo2, f) ← _R8 f;
  Some (Z.lor (Z.shiftl hi2 8) lo2, f).

Definition _R32 (f : FILE) : option (Z * FILE) :=
  '(hi4, f) ← _R16 f; '(lo4, f) ← _R16 f;
  Some (Z.lor (Z.shiftl hi4 16) lo4, f).

Definition _R64 (f : FILE) : option (Z * FILE) :=
  '(hi8, f) ← _R32 f; '(lo8, f) ← _R32 f;
  Some (Z.lor (Z.shiftl hi8 32) lo8, f).

(** The reader of a field of [bits] bits. *)
Definition _R (bits : Z) : FILE -> option (Z * FILE) :=
  if bits =? 8 then _R8 else if bits =? 16 then _R16
  else if bits =? 32 then _R32 else _R64.

(** A value of one byte. *)
Definition byte (b : Z) : Prop := 0 <= b < 256.

End XmLoader.

(** ** The WAV64 container (src/audio/wav64.c) *)

Module Wav64.

Definition WAV64_ID : list Z := [87; 86; 54; 52].   (* "WV64" *)
Definition WAV64_FORMAT_RAW : Z := 0.
Definition WAV64_FORMAT_VADPCM : Z := 1.
Definition WAV64_FORMAT_OPUS : Z := 3.
Definition WAV64_NUM_FORMATS : Z := 4.
Definition WAV64_FLAG_OWNED_FD : Z := 1.
Definition WAV64_STREAMING_FULL : Z := 0.
Definition WAV64_STREAMING_NONE : Z := 1.
Definition VADPCM_FLAG_HUFFMAN : Z := 1.

(** [sizeof(wav64_header_t)] and [sizeof(wav64_state_vadpcm_t)]: two
    vectors of 8 [int16_t] and an [int], aligned to 16 bytes. *)
Definition sizeof_header : Z := 28.
Definition sizeof_state_vadpcm : Z := 48.

(** [wav64_header_t], packed, as the big-endian CPU reads it. *)
Record wav64_header_t := mk_header {
  h_id : list Z;
  h_version : Z;        (* int8_t *)
  h_format : Z;         (* int8_t *)
  h_channels : Z;       (* int8_t *)
  h_nbits : Z;          (* int8_t *)
  h_freq : Z;           (* int32_t *)
  h_len : Z;            (* int32_t *)
  h_loop_len : Z;       (* int32_t *)
  h_start_offset : Z;   (* uint32_t *)
  h_state_size : Z      (* uint32_t *)
}.

(** The value of a [w]-bit pattern read as a signed integer. *)
Definition as_signed (w v : Z) : Z := if v <? 2 ^ (w - 1) then v else v - 2 ^ w.

Definition be32 (bytes : list Z) (off : nat) : Z :=
  Binout.be_value (take 4 (drop off bytes ++ repeat 0 4)).

(** [read(file_handle, &head, sizeof(head))]; bytes past the end of the
    file read as zero. *)
Definition read_header (content : list Z) : wav64_header_t :=
  mk_header (take 4 content)
    (as_signed 8 (nth 4 content 0)) (as_signed 8 (nth 5 content 0))
    (as_signed 8 (nth 6 content 0)) (as_signed 8 (nth 7 content 0))
    (as_signed 32 (be32 content 8)) (as_signed 32 (be32 content 12))
    (as_signed 32 (be32 content 16)) (be32 content 20) (be32 content 24).

(** The read callbacks a waveform can point to. *)
Inductive reader :=
| wav64_none_read | wav64_none_read_memcopy
| waveform_vadpcm_read | waveform_opus_read.

(** [waveform_t], the fields [internal_open] fills. *)
Record waveform_t := mk_waveform {
  name : string;
  channels : Z;
  bits : Z;
  frequency : Z;
  len : Z;
  loop_len : Z;
  state_size : Z;
  read : option reader
}.

(** [wav64_state_t]; [ext] is the extension region as it was read from
    the file (NULL when freed).  The two fields of the extension headers
    that hold a pointer the codecs allocate and free are kept beside it:
    [huff_tbl] of [wav64_header_vadpcm_t] (at +4) and [mode] of
    [wav64_opus_header_ext] (at +12).  They start with what the file
    has there. *)
Record wav64_state_t := mk_wav64_state {
  format : Z;
  ext : option (list Z);
  huff_tbl : option Z;
  mode : option Z;
  samples : option Z;
  current_fd : Z;
  base_offset : Z;
  flags : Z
}.

(** [wav64_t]: the waveform and the pointer to the heap block. *)
Record wav64_t := mk_wav64 { wave : waveform_t; st : option Z }.

(** [memset(wav, 0, sizeof(wav64_t))] *)
Definition wav64_zero : wav64_t :=
  mk_wav64 (mk_waveform EmptyString 0 0 0 0 0 0 None) None.

Inductive block :=
| StateBlock (s : wav64_state_t)
| TableBlock (t : list (list Z))
| ModeBlock.                       (* an [OpusCustomMode] *)

(** What the library shares with the rest of the program: the heap, the
    open file descriptors, the waveform playing on each mixer channel (by
    address), and whether [__wav64_init_compression_lvl3] has run. *)
Record world := mk_world {
  heap : gmap Z block;
  fds : gset Z;
  mixer : list (option Z);
  opus_registered : bool
}.

(** Modelled from the spec: mixer.c is not among the sources.
    [mixer_ch_playing_waveform(ch)] is the waveform the voice plays, or
    NULL; [mixer_ch_stop(ch)] stops the voice; [mixer_ch_play(ch, wave)]
    starts [wave] on it. *)
Definition mixer_ch_playing_waveform (m : list (option Z)) (ch : nat) : option Z :=
  default None (m !! ch).
Definition mixer_ch_stop (m : list (option Z)) (ch : nat) : list (option Z) :=
  <[ch := None]> m.
Definition mixer_ch_play (m : list (option Z)) (ch : nat) (wave_ : Z)
  : list (option Z) :=
  <[ch := Some wave_]> m.

(** [algos[format].init != NULL] *)
Definition algo_registered (w : world) (fmt : Z) : bool :=
  (fmt =? WAV64_FORMAT_RAW) || (fmt =? WAV64_FORMAT_VADPCM)
  || ((fmt =? WAV64_FORMAT_OPUS) && opus_registered w).

(** [malloc]: the block must be new. *)
Definition alloc (a : Z) (b : block) (h : gmap Z block) : option (gmap Z block) :=
  match h !! a with None => Some (<[a := b]> h) | Some _ => None end.

(** [free]: the block must be live. *)
Definition free (a : Z) (h : gmap Z block) : option (gmap Z block) :=
  match h !! a with Some _ => Some (delete a h) | None => None end.

(** [wav64_none_init] *)
Definition wav64_none_init (s : wav64_state_t) : reader :=
  match samples s with
  | None => wav64_none_read
  | Some _ => wav64_none_read_memcopy
  end.

(** What the environment answers during [internal_open]: the descriptor
    [must_open] returns, the position of a descriptor passed in, the
    addresses [memalign] and [malloc] return, when samples are preloaded
    the [*wlen] the one-shot decode reports, and what the Opus library
    answers (below). *)
Record open_env := mk_env {
  new_fd : Z;
  fd_pos : Z;
  heap_addr : Z;
  tbl_addr : Z;
  decoded : Z;
  opus_err : Z;
  mode_addr : Z;
  opus_decoder_size : Z
}.

(** [wav64_vadpcm_init]: the state size is checked, and the tables are
    built when the stream is Huffman-compressed; [tbl] is the address
    [malloc] returns for them, stored in [vhead->huff_tbl].  Without
    Huffman the field keeps what the file has there. *)
Definition wav64_vadpcm_init (h : gmap Z block) (s : wav64_state_t)
    (state_size_ tbl : Z) : option (gmap Z block * wav64_state_t) :=
  _ ← assertf (state_size_ =? sizeof_state_vadpcm);
  e ← ext s;
  if negb (Z.land (nth 2 e 0) VADPCM_FLAG_HUFFMAN =? 0) then
    tables ← Huff.wav64_vadpcm_init_huffman
                (map (Huff.sctx_at (drop 12 e)) (seq 0 3));
    h' ← alloc tbl (TableBlock tables) h;
    Some (h', mk_wav64_state (format s) (ext s) (Some tbl) (mode s) (samples s)
                (current_fd s) (base_offset s) (flags s))
  else Some (h, s).

(** Modelled from the spec: libopus is not among the sources.
    [opus_custom_mode_create] builds the decoder-configuration object of
    the file on the heap, or reports an error and returns NULL;
    [opus_custom_decoder_get_size] is the size of a decoder for it;
    [opus_custom_mode_destroy] frees the object.  The error code, the
    address of the object and the size are the environment's. *)
Definition OPUS_OK : Z := 0.

Definition opus_custom_mode_create (h : gmap Z block) (e : open_env)
  : option (gmap Z block * option Z) :=
  if opus_err e =? OPUS_OK then
    h' ← alloc (mode_addr e) ModeBlock h; Some (h', Some (mode_addr e))
  else Some (h, None).

Definition opus_custom_mode_destroy (h : gmap Z block) (m : option Z)
  : option (gmap Z block) :=
  match m with Some a => free a h | None => Some h end.

(** [wav64_opus_init]: the mode is created and stored in [ext->mode];
    the creation must have succeeded and the state must hold a decoder. *)
Definition wav64_opus_init (h : gmap Z block) (s : wav64_state_t)
    (state_size_ : Z) (e : open_env) : option (gmap Z block * wav64_state_t) :=
  '(h', m) ← opus_custom_mode_create h e;
  let s' := mk_wav64_state (format s) (ext s) (huff_tbl s) m (samples s)
              (current_fd s) (base_offset s) (flags s) in
  _ ← assertf (opus_err e =? OPUS_OK);
  _ ← assertf (state_size_ >=? opus_decoder_size e);
  Some (h', s').

(** [algos[format].init(wav, state_size)], for a format whose [init] is
    registered. *)
Definition algo_init (h : gmap Z block) (s : wav64_state_t)
    (state_size_ : Z) (e : open_env)
  : option (gmap Z block * wav64_state_t * reader) :=
  if format s =? WAV64_FORMAT_RAW then Some (h, s, wav64_none_init s)
  else if format s =? WAV64_FORMAT_VADPCM then
    '(h', s') ← wav64_vadpcm_init h s state_size_ (tbl_addr e);
    Some (h', s', waveform_vadpcm_read)
  else
    '(h', s') ← wav64_opus_init h s state_size_ e;
    Some (h', s', waveform_opus_read).

(** [if (algos[format].close) algos[format].close(wav)].
    [wav64_vadpcm_close] frees [vhead->huff_tbl] when it is not NULL;
    [wav64_opus_close], registered with the Opus codec, destroys
    [ext->mode]; the raw codec has no close hook. *)
Definition algo_close (registered : bool) (h : gmap Z block) (s : wav64_state_t)
  : option (gmap Z block * wav64_state_t) :=
  if format s =? WAV64_FORMAT_VADPCM then
    match huff_tbl s with
    | Some t =>
        h' ← free t h;
        Some (h', mk_wav64_state (format s) (ext s) None (mode s) (samples s)
                    (current_fd s) (base_offset s) (flags s))
    | None => Some (h, s)
    end
  else if (format s =? WAV64_FORMAT_OPUS) && registered then
    h' ← opus_custom_mode_destroy h (mode s);
    Some (h', s)
  else Some (h, s).

(** [strchr(s, ':') != NULL]; 58 is the code of the colon. *)
Fixpoint has_colon (s : string) : bool :=
  match s with
  | EmptyString => false
  | String c s' => Ascii.eqb c (Ascii.ascii_of_nat 58) || has_colon s'
  end.

(** The extension of a file: the [start_offset - sizeof(wav64_header_t)]
    bytes after the header. *)
Definition ext_of (content : list Z) : list Z :=
  take (Z.to_nat (h_start_offset (read_header content) - sizeof_header))
       (drop 28 content).

(** A pointer field of the extension header, as the big-endian CPU reads
    it from the bytes of the file: NULL when they are zero.  Bytes past
    the end of the extension read as zero. *)
Definition ext_ptr (ext_data : list Z) (off : nat) : option Z :=
  let v := be32 ext_data off in if v =? 0 then None else Some v.

(** *** internal_open.  [content] is the file from the header on;
    [streaming_mode] is that of [parms] ([WAV64_STREAMING_FULL] when
    [parms] is NULL). *)
Definition internal_open (w : world) (e : open_env) (file_handle : Z)
    (file_name : string) (content : list Z) (streaming_mode : Z)
  : option (world * wav64_t) :=
  let owned_fd := file_handle <? 0 in
  let file_name :=
    if owned_fd && negb (has_colon file_name)
    then ("rom:/" ++ file_name)%string else file_name in
  let start_offset := if owned_fd then 0 else fd_pos e in
  let fds1 := if owned_fd then {[new_fd e]} ∪ fds w else fds w in
  let file_handle := if owned_fd then new_fd e else file_handle in
  let head := read_header content in
  _ ← assertf (bool_decide (h_id head = WAV64_ID));
  _ ← assertf (h_version head =? 4);
  _ ← assertf (h_format head <? WAV64_NUM_FORMATS);
  (* [algos[head.format]]: a negative format passes the test above and
     reads before the first entry of the table, which is undefined *)
  _ ← (if h_format head <? 0 then None else Some tt);
  _ ← assertf (algo_registered w (h_format head));
  let preload := streaming_mode =? WAV64_STREAMING_NONE in
  let wave0 :=
    mk_waveform file_name (h_channels head) (h_nbits head) (h_freq head)
      (h_len head) (h_loop_len head) (h_state_size head) None in
  let ext_data := ext_of content in
  let st0 :=
    mk_wav64_state (h_format head) (Some ext_data) (ext_ptr ext_data 4)
      (ext_ptr ext_data 12) None file_handle
      (h_start_offset head + start_offset)
      (if owned_fd then WAV64_FLAG_OWNED_FD else 0) in
  h0 ← alloc (heap_addr e) (StateBlock st0) (heap w);
  '(h1, st1, rd) ← algo_init h0 st0 (h_state_size head) e;
  let wave1 :=
    mk_waveform (name wave0) (channels wave0) (bits wave0) (frequency wave0)
      (len wave0) (loop_len wave0) (state_size wave0) (Some rd) in
  if preload then
    _ ← assertf (decoded e =? len wave1);
    '(h2, st2) ← algo_close (opus_registered w) h1 st1;
    let st3 :=
      mk_wav64_state WAV64_FORMAT_RAW None (huff_tbl st2) (mode st2)
        (Some (heap_addr e)) (current_fd st2) (base_offset st2) (flags st2) in
    let wave2 :=
      mk_waveform (name wave1) (channels wave1) (bits wave1) (frequency wave1)
        (len wave1) (loop_len wave1) (state_size wave1)
        (Some (wav64_none_init st3)) in
    Some (mk_world (<[heap_addr e := StateBlock st3]> h2) fds1 (mixer w)
            (opus_registered w),
          mk_wav64 wave2 (Some (heap_addr e)))
  else
    Some (mk_world (<[heap_addr e := StateBlock st1]> h1) fds1 (mixer w)
            (opus_registered w),
          mk_wav64 wave1 (Some (heap_addr e))).

(** *** wav64_open *)
Definition wav64_open (w : world) (e : open_env) (file_name : string)
    (content : list Z) : option (world * wav64_t) :=
  internal_open w e (-1) file_name content WAV64_STREAMING_FULL.

(** *** wav64_set_loop *)
Definition wav64_set_loop (wav : wav64_t) (loop : bool) : wav64_t :=
  let wv := wave wav in
  let ll := if loop then len wv else 0 in
  let ll := if (bits wv =? 8) && negb (Z.land ll 1 =? 0) then ll - 1 else ll in
  mk_wav64 (mk_waveform (name wv) (channels wv) (bits wv) (frequency wv)
              (len wv) ll (state_size wv) (read wv)) (st wav).

(** *** wav64_close, for a [wav64_t] that lives at address [self] outside
    the heap block (one opened with [wav64_open]). *)
Definition wav64_close (w : world) (self : Z) (wav : wav64_t)
  : option (world * wav64_t) :=
  match st wav with
  | None => Some (w, wav)
  | Some heap_ =>
      s ← match heap w !! heap_ with
          | Some (StateBlock s) => Some s
          | _ => None
          end;
      let mixer' :=
        foldl (fun m i =>
                 if bool_decide (mixer_ch_playing_waveform m i = Some self)
                 then mixer_ch_stop m i else m)
              (mixer w) (seq 0 (List.length (mixer w))) in
      '(h1, s1) ← algo_close (opus_registered w) (heap w) s;
      let fds' :=
        if (current_fd s1 >=? 0)
           && negb (Z.land (flags s1) WAV64_FLAG_OWNED_FD =? 0)
        then fds w ∖ {[current_fd s1]} else fds w in
      h2 ← free heap_ h1;
      Some (mk_world h2 fds' mixer' (opus_registered w), wav64_zero)
  end.

(** *** Vocabulary of the properties, and a sample file *)

(** A raw 8-bit mono file of 17 frames that loops over its whole length:
    header, no extension, 17 samples. *)
Definition odd_loop_file : list Z :=
  WAV64_ID ++ [4; 0; 1; 8] ++ [0; 0; 0x56; 0x22] ++ [0; 0; 0; 17]
  ++ [0; 0; 0; 17] ++ [0; 0; 0; 28] ++ [0; 0; 0; 0] ++ repeat 0x80 17.

Definition quiet : world := mk_world ∅ ∅ (repeat None 32) false.
Definition env0 : open_env :=
  mk_env 3 0 0x80200000 0x80300000 0 OPUS_OK 0x80400000 0.




(** *** wav64_play, and a Huffman-compressed file *)


(** [wav64_play]: the waveform at [self] starts on channel [ch]. *)
Definition wav64_play (w : world) (self : Z) (ch : nat) : world :=
  mk_world (heap w) (fds w) (mixer_ch_play (mixer w) ch self) (opus_registered w).

End Wav64.

(** ** The WAV64 writer of the converter (tools/audioconv64/conv_wav64.cpp) *)

Module ConvWav64.
Import Binout.

(** [wav_data_t] (conv_common.h).  [samples] holds the [cnt * channels]
    samples of the waveform; the skip points, which only the VADPCM
    encoder reads, are left out. *)
Record wav_data_t := mk_wav {
  samples : list Z;        (* int16_t *)
  cnt : Z;
  channels : Z;
  bitsPerSample : Z;
  sampleRate : Z;
  looping : bool;
  loopOffset : Z
}.

(** The value an [int] takes when it is stored in an [int16_t]. *)
Definition to_int16 (v : Z) : Z :=
  let u := to_uint 16 v in if u <? 0x8000 then u else u - 0x10000.

(** [int loop_len = wav->looping ? wav->cnt - wav->loopOffset : 0;], and
    0 for a loop offset after the end. *)
Definition initial_loop_len (wav : wav_data_t) : Z :=
  let loop_len := if looping wav then cnt wav - loopOffset wav else 0 in
  if loop_len <? 0 then 0 else loop_len.

(** The copy loop of the VADPCM case, after the [realloc]:
    [samples[cnt*channels + i] = samples[loopOffset*channels + i]].  The
    element written at step [i] is the one after those written so far;
    reading an element that has not been written yet gives no defined
    value. *)
Definition copy_loop_start (wav : wav_data_t) (ncopy : Z) : option (list Z) :=
  foldl (fun acc i =>
           l ← acc;
           _ ← assertf (0 <=? loopOffset wav * channels wav);
           v ← l !! (Z.to_nat (loopOffset wav * channels wav) + i)%nat;
           Some (l ++ [v]))
        (Some (samples wav)) (seq 0 (Z.to_nat (ncopy * channels wav))).

(** The first [switch (format)] of [wav64_write]: the loop is adjusted to
    what the player of the format can do.  It gives the waveform and the
    loop length to write. *)
Definition adjust_loop (wav : wav_data_t) (format loop_len : Z)
  : option (wav_data_t * Z) :=
  if format =? 0 then
    if negb (Z.land loop_len 1 =? 0) && (bitsPerSample wav =? 8) then
      Some (mk_wav (samples wav) (cnt wav) (channels wav) (bitsPerSample wav)
              (sampleRate wav) (looping wav) (loopOffset wav + 1),
            loop_len - 1)
    else Some (wav, loop_len)
  else if format =? 1 then
    '(wav, loop_len) ←
      (if looping wav && negb (Z.rem (loopOffset wav) 32 =? 0) then
         let ncopy := 32 - Z.rem (loopOffset wav) 32 in
         smp ← copy_loop_start wav ncopy;
         Some (mk_wav smp (cnt wav + ncopy) (channels wav) (bitsPerSample wav)
                 (sampleRate wav) (looping wav) (loopOffset wav + ncopy),
               (cnt wav + ncopy) - (loopOffset wav + ncopy))
       else Some (wav, loop_len));
    Some (mk_wav (samples wav) (cnt wav) (channels wav) 16
            (sampleRate wav) (looping wav) (loopOffset wav), loop_len)
  else if format =? 3 then
    Some (mk_wav (samples wav) (cnt wav) (channels wav) 16
            (sampleRate wav) (looping wav) (loopOffset wav), loop_len)
  else Some (wav, loop_len).

(** [v = ((v & 0xFF00) >> 8) | ((v & 0x00FF) << 8)] on an [int16_t]. *)
Definition swap16 (v : Z) : Z :=
  to_int16 (Z.lor (Z.shiftr (Z.land v 0xFF00) 8) (Z.shiftl (Z.land v 0x00FF) 8)).

(** The two bytes of an [int16_t] in the memory of the host, which is
    little-endian (the byte swap of the sample loop is written for one). *)
Definition host_bytes (v : Z) : list Z :=
  [Z.land v 0xFF; Z.land (Z.shiftr v 8) 0xFF].

(** The sample loop of the raw format: each sample is byte-swapped in
    place, and its first byte (8 bits per sample) or both (16) are
    written with [fwrite]. *)
Definition write_samples (f : FILE) (wav : wav_data_t) : option (FILE * list Z) :=
  foldl (fun acc i =>
           '(f, smp) ← acc;
           v ← smp !! i;
           let v := swap16 v in
           Some (put_bytes f
                   (take (if bitsPerSample wav =? 8 then 1 else 2) (host_bytes v)),
                 <[i := v]> smp))
        (Some (f, samples wav)) (seq 0 (Z.to_nat (cnt wav * channels wav))).

Definition WV64 : list Z := [87; 86; 54; 52].     (* "WV64" *)

Section Write.
(** The second [switch] runs, for VADPCM and Opus, encoders that are
    outside the sources: a parameter, given the format, [outfn],
    [basepos], the writer and the waveform; it gives [failed] too. *)
Variable write_compressed :
  Z -> string -> Z -> state -> wav_data_t -> option (state * wav_data_t * bool).

(** *** wav64_write.  The result is what the function returns
    ([!failed]), the writer and the waveform as the call leaves them. *)
Definition wav64_write (outfn : string) (s : state) (wav : wav_data_t)
    (format : Z) : option (bool * state * wav_data_t) :=
  let basepos := ftell (file s) in
  '(wav, loop_len) ← adjust_loop wav format (initial_loop_len wav);
  let f := put_bytes (file s) WV64 in
  f ← w 8 32 f 4;
  f ← w 8 32 f format;
  f ← w 8 32 f (channels wav);
  f ← w 8 32 f (bitsPerSample wav);
  f ← w 32 32 f (sampleRate wav);
  f ← w 32 32 f (cnt wav);
  f ← w 32 32 f loop_len;
  s ← __w32_placeholder_named (mk_state f (placeholder_hash s))
         (outfn ++ "/samples");
  s ← __w32_placeholder_named s (outfn ++ "/state_size");
  if format =? 0 then
    s ← placeholder_set_offset s 0 (outfn ++ "/state_size");
    s ← placeholder_set_offset s (ftell (file s) - basepos) (outfn ++ "/samples");
    '(f, smp) ← write_samples (file s) wav;
    Some (true, mk_state f (placeholder_hash s),
          mk_wav smp (cnt wav) (channels wav) (bitsPerSample wav)
            (sampleRate wav) (looping wav) (loopOffset wav))
  else if (format =? 1) || (format =? 3) then
    '(s, wav, failed) ← write_compressed format outfn basepos s wav;
    Some (negb failed, s, wav)
  else Some (true, s, wav).

End Write.

(** *** Vocabulary of the properties *)

(** A file written from start to end, the position after the last byte. *)
Definition eof (d : list Z) : FILE := mk_file d (Z.of_nat (List.length d)).

(** The loop length [wav64_write] stores for the raw format. *)
Definition raw_loop_len (wav : wav_data_t) : Z :=
  let ll := initial_loop_len wav in
  if Z.odd ll && (bitsPerSample wav =? 8) then ll - 1 else ll.

(** The bytes the sample loop writes for one sample: its high byte, and
    for 16 bits per sample its low byte after it. *)
Definition sample_bytes (bits v : Z) : list Z :=
  if bits =? 8 then [Z.land (Z.shiftr v 8) 0xFF]
  else [Z.land (Z.shiftr v 8) 0xFF; Z.land v 0xFF].

(** A mono 8-bit waveform of three samples that loops from its start, and
    a 16-bit stereo one of 40 frames that loops from frame 5. *)
Definition odd_loop : wav_data_t :=
  mk_wav [0x1234; -2; 0x7F00] 3 1 8 22050 true 0.
Definition late_loop : wav_data_t :=
  mk_wav (map Z.of_nat (seq 0 80)) 40 2 16 44100 true 5.

(** No compressed format is written in the examples. *)
Definition no_encoder
  : Z -> string -> Z -> state -> wav_data_t -> option (state * wav_data_t * bool) :=
  fun _ _ _ _ _ => None.

End ConvWav64.

(** ** The VADPCM read hook (src/audio/wav64_vadpcm.c) *)

Module Vadpcm.
Import SampleBuffer.

Definition VADPCM_FLAG_HUFFMAN : Z := 1.
Definition MAX_VADPCM_FRAMES : Z := 94.
Definition sizeof_state_vadpcm : Z := 48.

(** [wav64_vadpcm_skippoint_t] *)
Record skippoint := mk_skippoint {
  sp_state : list (list Z);   (* two vectors of 8 int16_t *)
  sp_bitpos : Z;
  sp_offset : Z
}.

(** What the hook reads of the [wav64_t]: the waveform attributes, the
    file, and the VADPCM extension header. *)
Record vadpcm_wav := mk_vwav {
  channels : Z;
  len : Z;
  loop_len : Z;
  base_offset : Z;
  file_size : Z;
  flags : Z;
  skip_points : list skippoint        (* [num_skippoints] entries *)
}.

(** What the hook does besides appending to the sample buffer, in order:
    the calls on the file descriptor and the commands queued to the RSP. *)
Inductive event :=
| Lseek (off : Z)
| Read (nbytes : Z)
| HuffvDecompress (nframe nbytes : Z)
| RspCopyState (src : option (list (list Z)))     (* NULL clears the state *)
| RspDecompress (nframes : Z) (stereo : bool)
| HighpriBegin
| HighpriEnd
| HighpriSync.

(** The per-voice state ([bitpos]; the two state vectors live in RSP
    commands), the position of the file descriptor, and the events so far. *)
Record codec := mk_codec { file_pos : Z; bitpos : Z; log : list event }.

Definition emit (c : codec) (evs : list event) : codec :=
  mk_codec (file_pos c) (bitpos c) (log c ++ evs).

Definition lseek (c : codec) (off : Z) : codec :=
  mk_codec off (bitpos c) (log c ++ [Lseek off]).

Definition set_bitpos (c : codec) (b : Z) : codec :=
  mk_codec (file_pos c) b (log c).

Definition is_huffman (wav : vadpcm_wav) : bool :=
  negb (Z.land (flags wav) VADPCM_FLAG_HUFFMAN =? 0).

(** [for (i...) if (wpos == skip_points[i].offset) {...; break;}] *)
Definition find_skip_point (wav : vadpcm_wav) (wpos_ : Z) : option skippoint :=
  List.find (fun sp => wpos_ =? sp_offset sp) (skip_points wav).

(** The first part of [waveform_vadpcm_read]: [if (seeking) {...} else
    {...}]. *)
Definition vadpcm_seek (wav : vadpcm_wav) (c : codec) (wpos_ : Z)
    (seeking : bool) : option codec :=
  if seeking then
    let c := emit c [HighpriBegin] in
    c ← (if wpos_ =? 0 then
           let c := emit c [RspCopyState None] in
           let c := lseek c (base_offset wav) in
           Some (set_bitpos c 0)
         else
           match find_skip_point wav wpos_ with
           | Some sp =>
               let c := set_bitpos c (sp_bitpos sp) in
               let c := emit c [RspCopyState (Some (sp_state sp))] in
               Some (if is_huffman wav then c
                     else lseek c (base_offset wav + Z.quot wpos_ 16 * 9))
           | None => None      (* assertf(found, ...) *)
           end);
    Some (emit c [HighpriEnd])
  else
    _ ← assertf (Z.rem wpos_ 16 =? 0);
    Some (if is_huffman wav then c
          else lseek c (base_offset wav + Z.quot wpos_ 16 * 9)).

(** [read(fd, buf, n)]: the bytes left in the file bound the count. *)
Definition read_file (wav : vadpcm_wav) (c : codec) (n : Z) : codec * Z :=
  let got := Z.max 0 (Z.min n (file_size wav - file_pos c)) in
  (mk_codec (file_pos c + got) (bitpos c) (log c ++ [Read n]), got).

Section Read.
(** The Huffman decompressor of the player works on the bytes of the
    file and on the tables; here it is a parameter, given the frame
    number and the number of bytes to produce. *)
Variable huffv_decompress : vadpcm_wav -> codec -> Z -> Z -> option codec.

(** The [while (wlen > 0)] loop; each iteration decodes at least one
    frame, so [fuel = wlen] iterations are enough. *)
Fixpoint decode_loop (fuel : nat) (wav : vadpcm_wav) (c : codec) (s : sbstate)
    (wpos_ wlen : Z) (highpri : bool) : option (codec * sbstate * Z * bool) :=
  if wlen >? 0 then
    match fuel with
    | O => None
    | S fuel' =>
        let max_vadpcm_frames :=
          if channels wav =? 1 then MAX_VADPCM_FRAMES
          else Z.quot MAX_VADPCM_FRAMES 2 in
        let nframes := MIN (Z.quot wlen 16) max_vadpcm_frames in
        '(dest, s) ← samplebuffer_append s (nframes * 16);
        let src_bytes := 9 * nframes * channels wav in
        c ← (if is_huffman wav then
               huffv_decompress wav c (Z.quot wpos_ 16) src_bytes
             else
               let '(c, read_bytes) := read_file wav c src_bytes in
               _ ← assertf (src_bytes =? read_bytes);
               Some c);
        let c := if highpri then c else emit c [HighpriBegin] in
        _ ← assertf ((nframes >? 0) && (nframes <=? 256));
        let c := emit c [RspDecompress nframes (channels wav =? 2)] in
        decode_loop fuel' wav c s (wpos_ + 16 * nframes) (wlen - 16 * nframes) true
    end
  else Some (c, s, wpos_, highpri).

(** *** waveform_vadpcm_read *)
Definition waveform_vadpcm_read (wav : vadpcm_wav) : WaveformRead codec :=
  fun c s wpos_ wlen seeking =>
    _ ← assertf (state_size (sb s) >=? sizeof_state_vadpcm);
    c ← vadpcm_seek wav c wpos_ seeking;
    let wlen := ROUND_UP wlen 32 in
    if wlen =? 0 then Some (c, s) else
    match decode_loop (Z.to_nat wlen) wav c s wpos_ wlen false with
    | None => None
    | Some (c, s, wpos_, highpri) =>
        let c := if highpri : bool then emit c [HighpriEnd] else c in
        if negb (loop_len wav =? 0) && (wpos_ >? len wav) then
          b ← samplebuffer_undo (sb s) (wpos_ - len wav);
          Some (emit c [HighpriSync], mk_sbstate b (mem s))
        else Some (c, s)
    end.

End Read.

(** *** Sample streams and voices *)

(** No Huffman stream is read in the scenarios below. *)
Definition no_huffv : vadpcm_wav -> codec -> Z -> Z -> option codec :=
  fun _ _ _ _ => None.

(** A mono VADPCM waveform of 64 frames (36 bytes of payload at offset
    0x100), not Huffman-compressed, without skip points. *)
Definition plain : vadpcm_wav := mk_vwav 1 64 0 0x100 (0x100 + 36) 0 [].

(** The same waveform with the skip point the converter records for a
    loop that starts at sample 32. *)
Definition saved : list (list Z) :=
  [[1; 2; 3; 4; 5; 6; 7; 8]; [0; 0; 0; 0; 0; 0; 0; 0]].
Definition with_skip : vadpcm_wav :=
  mk_vwav 1 64 32 0x100 (0x100 + 36) 0 [mk_skippoint saved 0 32].

(** A voice buffer of 64 16-bit frames with room for the codec state,
    never read before. *)
Definition voice : sbstate :=
  mk_sbstate (mk_samplebuffer 0xA0100001 64 0 0 0 (-1) 0xA0100080 48)
             (fun _ => 0).

Definition idle : codec := mk_codec 0 0 [].

(** The buffer as [samplebuffer_get] hands it to the hook on a first
    access at sample 32. *)
Definition voice_at_32 : sbstate :=
  mk_sbstate (mk_samplebuffer 0xA0100001 64 32 0 0 (-1) 0xA0100080 48)
             (fun _ => 0).

Definition seek_events : list event :=
  [HighpriBegin; RspCopyState (Some saved); Lseek (0x100 + 18); HighpriEnd;
   Read 18; HighpriBegin; RspDecompress 2 false; HighpriEnd].

(** *** Further vocabulary *)

(** The frames [waveform_vadpcm_read] leaves in the buffer of the [wlen]
    it is asked for from [wpos]: whole pairs of VADPCM frames, cut at the
    end of a looping waveform. *)
Definition frames_kept (wav : vadpcm_wav) (wpos_ wlen : Z) : Z :=
  let decoded := ROUND_UP wlen 32 in
  if negb (loop_len wav =? 0) && (wpos_ + decoded >? len wav)
  then len wav - wpos_ else decoded.

(** The waveform [with_skip] stored inside a larger file. *)
Definition bundled : vadpcm_wav :=
  mk_vwav 1 64 32 0x100 0x1000 0 [mk_skippoint saved 0 32].

End Vadpcm.

(** ** The XM64 player tick (src/audio/xm64.c) *)

Module Xm64.

(** The C [float]s of the player are values of a type [F] with the few
    operations [tick] applies to them. *)
Class FloatOps (F : Type) := {
  Fzero : F;
  Fmul : F -> F -> F;
  Fsub : F -> F -> F;
  Fge0 : F -> bool;          (* x >= 0 *)
  Fle0 : F -> bool;          (* x <= 0 *)
  ceilf : F -> Z;
  Fint : Z -> F              (* int to float *)
}.

Section Player.
Context {F : Type} {ops : FloatOps F}.

Record xm_sample_t := mk_sample { wave : Z }.          (* the wav64_t it plays *)
Record xm_instrument_t := mk_instrument { i_muted : bool }.

(** [xm_channel_context_t], the fields [tick] reads and writes. *)
Record xm_channel_context_t := mk_channel {
  instrument : option xm_instrument_t;
  sample : option xm_sample_t;
  sample_position : F;
  frequency : F;
  actual_volume : F * F;
  muted : bool
}.

(** [xm_context_t]; [module.num_channels] is the length of [channels]. *)
Record xm_context_t := mk_context {
  channels : list xm_channel_context_t;
  global_volume : F;
  amplification : F;
  loop_count : Z;
  remaining_samples_in_tick : F;
  current_table_index : Z;
  current_row : Z;
  current_tick : Z
}.

Record xm64player_t := mk_player {
  ctx : xm_context_t;
  first_ch : nat;
  playing : bool;
  stop_requested : bool;
  looping : bool;
  seek_patidx : Z;
  seek_row : Z;
  seek_tick : Z
}.

(** The row/tick step of the XM engine (libxm/play.c) is outside the
    sources: a parameter. *)
Variable xm_tick : xm_context_t -> xm_context_t.

(** Modelled from the spec: mixer.c is not among the sources.  A voice
    plays a waveform or is stopped, and has a position, a frequency and
    two volumes; [starts] counts the times a waveform was started on it. *)
Record voice := mk_voice {
  v_wave : option Z;
  v_pos : F;
  v_freq : F;
  v_vol : F * F;
  v_starts : nat
}.

Definition mixer := nat -> voice.

Definition upd (mx : mixer) (ch : nat) (v : voice) : mixer :=
  fun c => if (c =? ch)%nat then v else mx c.

Definition mixer_ch_playing (mx : mixer) (ch : nat) : bool :=
  match v_wave (mx ch) with Some _ => true | None => false end.
Definition mixer_ch_playing_waveform (mx : mixer) (ch : nat) : option Z :=
  v_wave (mx ch).
Definition mixer_ch_get_pos (mx : mixer) (ch : nat) : F := v_pos (mx ch).
Definition mixer_ch_stop (mx : mixer) (ch : nat) : mixer :=
  let v := mx ch in
  upd mx ch (mk_voice None (v_pos v) (v_freq v) (v_vol v) (v_starts v)).
Definition mixer_ch_play (mx : mixer) (ch : nat) (w : Z) : mixer :=
  let v := mx ch in
  upd mx ch (mk_voice (Some w) Fzero (v_freq v) (v_vol v) (S (v_starts v))).
Definition mixer_ch_set_pos (mx : mixer) (ch : nat) (p : F) : mixer :=
  let v := mx ch in
  upd mx ch (mk_voice (v_wave v) p (v_freq v) (v_vol v) (v_starts v)).
Definition mixer_ch_set_freq (mx : mixer) (ch : nat) (f : F) : mixer :=
  let v := mx ch in
  upd mx ch (mk_voice (v_wave v) (v_pos v) f (v_vol v) (v_starts v)).
Definition mixer_ch_set_vol (mx : mixer) (ch : nat) (l r : F) : mixer :=
  let v := mx ch in
  upd mx ch (mk_voice (v_wave v) (v_pos v) (v_freq v) (l, r) (v_starts v)).

(** [wav64_play(w, ch)] is [mixer_ch_play(ch, &w->wave)]. *)
Definition wav64_play (mx : mixer) (w : Z) (ch : nat) : mixer :=
  mixer_ch_play mx ch w.

Definition set_position (c : xm_channel_context_t) (p : F) : xm_channel_context_t :=
  mk_channel (instrument c) (sample c) p (frequency c) (actual_volume c) (muted c).

Definition set_channels (x : xm_context_t) (chs : list xm_channel_context_t)
  : xm_context_t :=
  mk_context chs (global_volume x) (amplification x) (loop_count x)
    (remaining_samples_in_tick x) (current_table_index x) (current_row x)
    (current_tick x).

(** [xm_seek] (libxm/context.c).  Its parameters are [uint8_t pot],
    [uint8_t row] and [uint16_t tick]: the [int]s the player passes are
    cut to 8, 8 and 16 bits. *)
Definition xm_seek (x : xm_context_t) (pot row tick_ : Z) : xm_context_t :=
  mk_context (channels x) (global_volume x) (amplification x) (loop_count x)
    Fzero (to_uint 8 pot) (to_uint 8 row) (to_uint 16 tick_).

(** [for (i...) mixer_ch_stop(first_ch+i)] over [n] channels from [i]. *)
Fixpoint stop_all (first_ch_ i n : nat) (mx : mixer) : mixer :=
  match n with
  | O => mx
  | S n' => stop_all first_ch_ (S i) n' (mixer_ch_stop mx (first_ch_ + i))
  end.

(** [stop(ctx, xmp)] *)
Definition stop (xmp : xm64player_t) (mx : mixer) : xm64player_t * mixer :=
  (mk_player (ctx xmp) (first_ch xmp) false false (looping xmp)
     (seek_patidx xmp) (seek_row xmp) (seek_tick xmp),
   stop_all (first_ch xmp) 0 (List.length (channels (ctx xmp))) mx).

(** [ch->muted || ch->instrument->muted]; the instrument is read only
    when the channel is not muted, and must not be NULL then. *)
Definition channel_muted (c : xm_channel_context_t) : option bool :=
  if muted c then Some true
  else ins ← instrument c; Some (i_muted ins).

(** The body of the last loop of [tick] for the channel [c] of voice
    [v]. *)
Definition dispatch_one (gvol : F) (v : nat) (c : xm_channel_context_t)
    (mx : mixer) : option mixer :=
  match sample c with
  | Some smp =>
      if Fge0 (sample_position c) then
        let w := wave smp in
        is_muted ← channel_muted c;
        let mx := if bool_decide (mixer_ch_playing_waveform mx v = Some w)
                  then mx else wav64_play mx w v in
        let mx := mixer_ch_set_pos mx v (sample_position c) in
        let mx := mixer_ch_set_freq mx v (frequency c) in
        Some (mixer_ch_set_vol mx v
                (if is_muted : bool then Fint 0
                 else Fmul gvol (fst (actual_volume c)))
                (if is_muted : bool then Fint 0
                 else Fmul gvol (snd (actual_volume c))))
      else Some (mixer_ch_stop mx v)
  | None => Some (mixer_ch_stop mx v)
  end.

(** The last loop of [tick], over the channels from index [i]. *)
Fixpoint dispatch (gvol : F) (first_ch_ i : nat)
    (chs : list xm_channel_context_t) (mx : mixer) : option mixer :=
  match chs with
  | [] => Some mx
  | c :: rest =>
      mx ← dispatch_one gvol (first_ch_ + i) c mx;
      dispatch gvol first_ch_ (S i) rest mx
  end.

(** The first loop of [tick]: read the position of the playing voices
    back. *)
Definition sync_positions (first_ch_ : nat) (mx : mixer)
    (chs : list xm_channel_context_t) : list xm_channel_context_t :=
  imap (fun i c =>
          if mixer_ch_playing mx (first_ch_ + i)
          then set_position c (mixer_ch_get_pos mx (first_ch_ + i)) else c)
       chs.

Definition with_ctx (xmp : xm64player_t) (x : xm_context_t) : xm64player_t :=
  mk_player x (first_ch xmp) (playing xmp) (stop_requested xmp) (looping xmp)
    (seek_patidx xmp) (seek_row xmp) (seek_tick xmp).

(** The pending seek, if any: seek, rewind the channels, stop the
    voices. *)
Definition do_seek (xmp : xm64player_t) (mx : mixer) : xm64player_t * mixer :=
  if seek_patidx xmp >=? 0 then
    let x := xm_seek (ctx xmp) (seek_patidx xmp) (seek_row xmp) (seek_tick xmp) in
    let x := set_channels x (map (fun c => set_position c (Fint 0)) (channels x)) in
    (mk_player x (first_ch xmp) (playing xmp) (stop_requested xmp)
       (looping xmp) (-1) (seek_row xmp) (seek_tick xmp),
     stop_all (first_ch xmp) 0 (List.length (channels x)) mx)
  else (xmp, mx).

(** *** tick: the delay returned, the player and the mixer. *)
Definition tick (xmp : xm64player_t) (mx : mixer)
  : option (Z * xm64player_t * mixer) :=
  let xmp :=
    with_ctx xmp
      (set_channels (ctx xmp)
         (sync_positions (first_ch xmp) mx (channels (ctx xmp)))) in
  if stop_requested xmp then
    let '(xmp, mx) := stop xmp mx in Some (0, xmp, mx)
  else
    let '(xmp, mx) := do_seek xmp mx in
    _ ← assertf (Fle0 (remaining_samples_in_tick (ctx xmp)));
    let xmp := with_ctx xmp (xm_tick (ctx xmp)) in
    if negb (looping xmp) && (loop_count (ctx xmp) >? 0) then
      let '(xmp, mx) := stop xmp mx in Some (0, xmp, mx)
    else
      let x := ctx xmp in
      let gvol := Fmul (global_volume x) (amplification x) in
      mx ← dispatch gvol (first_ch xmp) 0 (channels x) mx;
      let delay := ceilf (remaining_samples_in_tick x) in
      let x :=
        mk_context (channels x) (global_volume x) (amplification x)
          (loop_count x) (Fsub (remaining_samples_in_tick x) (Fint delay))
          (current_table_index x) (current_row x) (current_tick x) in
      Some (delay, with_ctx xmp x, mx).

(** *** Vocabulary of the properties *)

Definition stopped (v : voice) : voice :=
  mk_voice None (v_pos v) (v_freq v) (v_vol v) (v_starts v).

(** What the last loop of [tick] makes of the voice [v] of channel [c]. *)
Definition voice_after (gvol : F) (c : xm_channel_context_t) (v : voice)
  : option voice :=
  match sample c with
  | Some smp =>
      if Fge0 (sample_position c) then
        m ← channel_muted c;
        Some (mk_voice (Some (wave smp)) (sample_position c) (frequency c)
                (if m : bool then (Fint 0, Fint 0)
                 else (Fmul gvol (fst (actual_volume c)),
                       Fmul gvol (snd (actual_volume c))))
                (if bool_decide (v_wave v = Some (wave smp))
                 then v_starts v else S (v_starts v)))
      else Some (stopped v)
  | None => Some (stopped v)
  end.

(** The mixer the last loop starts from: the voices of the player are
    stopped first when a seek is pending. *)
Definition before_dispatch (xmp : xm64player_t) (mx : mixer) : mixer :=
  if seek_patidx xmp >=? 0
  then stop_all (first_ch xmp) 0 (List.length (channels (ctx xmp))) mx
  else mx.

(** The tick ends the playback: a stop was requested, or the song has
    looped and looping is off. *)
Definition ends (xmp xmp' : xm64player_t) : bool :=
  stop_requested xmp || (negb (looping xmp) && (loop_count (ctx xmp') >? 0)).

End Player.

Arguments xm_channel_context_t : clear implicits.
Arguments xm_context_t : clear implicits.
Arguments xm64player_t : clear implicits.
Arguments voice : clear implicits.
Arguments mixer : clear implicits.

(** *** A two-channel module, with integers for the floats *)

#[export] Instance FloatOps_Z : FloatOps Z := {
  Fzero := 0;
  Fmul := Z.mul;
  Fsub := Z.sub;
  Fge0 := fun x => 0 <=? x;
  Fle0 := fun x => x <=? 0;
  ceilf := fun x => x;
  Fint := fun x => x
}.

Definition lead : xm_channel_context_t Z :=
  mk_channel (Some (mk_instrument false)) (Some (mk_sample 0x80100000))
    0 8363 (64, 32) false.

Definition rest_ : xm_channel_context_t Z :=
  mk_channel None None 0 0 (0, 0) false.

Definition song : xm_context_t Z := mk_context [lead; rest_] 1 1 0 0 0 0 0.

Definition player (stop_requested_ : bool) : xm64player_t Z :=
  mk_player song 0 true stop_requested_ true (-1) 0 0.

Definition silent : mixer Z := fun _ => mk_voice None 0 0 (0, 0) 0.

(** The engine step of the example leaves the context as it is. *)
Definition tickZ (stop_requested_ : bool) :=
  tick (fun x => x) (player stop_requested_) silent.

(** *** xm64player_seek *)

Section PlayerMore.
Context {F : Type} {ops : FloatOps F}.

(** [xm64player_seek]: the seek is only recorded; the next tick does it. *)
Definition xm64player_seek (xmp : xm64player_t F) (patidx row tick_ : Z)
  : xm64player_t F :=
  mk_player (ctx xmp) (first_ch xmp) (playing xmp) (stop_requested xmp)
    (looping xmp) patidx row tick_.

(** The player after a seek done at once: the engine sought, the channels
    rewound, no seek pending. *)
Definition sought (xmp : xm64player_t F) (patidx row tick_ : Z) : xm64player_t F :=
  mk_player
    (set_channels (xm_seek (ctx xmp) patidx row tick_)
       (map (fun c => set_position c (Fint 0)) (channels (ctx xmp))))
    (first_ch xmp) (playing xmp) (stop_requested xmp) (looping xmp)
    (-1) row tick_.

End PlayerMore.

End Xm64.


(** * Part II: their properties *)

Lemma assertf_Some (b : bool) (u : unit) : assertf b = Some u -> b = true.
Proof. destruct b; [reflexivity | discriminate]. Qed.

Lemma land_1_mod2 (x : Z) : Z.land x 1 = x mod 2.
Proof. change 1 with (Z.ones 1). rewrite Z.land_ones by lia. reflexivity. Qed.

Lemma land_7_mod8 (x : Z) : Z.land x 7 = x mod 8.
Proof. change 7 with (Z.ones 3). rewrite Z.land_ones by lia. reflexivity. Qed.

(** ** The sample buffer *)

Module SampleBufferFacts.
Import SampleBuffer.

(** *** Lemmas on the operations *)

Lemma bps_range b : 0 <= SAMPLES_BPS_SHIFT b <= 3.
Proof.
  unfold SAMPLES_BPS_SHIFT. change 3 with (Z.ones 2) at 1 2.
  rewrite Z.land_ones by lia. change (2^2) with 4.
  pose proof (Z.mod_pos_bound (ptr_and_flags b) 4). lia.
Qed.

Lemma bits_set_1 x bps :
  0 <= bps -> bits_set x bps 1 = negb ((x * 2 ^ bps) mod 2 =? 0).
Proof.
  intros Hb. unfold bits_set. rewrite land_1_mod2, Z.shiftl_mul_pow2 by lia.
  reflexivity.
Qed.

Lemma bits_set_1_pred x bps :
  0 <= bps -> bits_set x bps 1 = true -> bits_set (x - 1) bps 1 = false.
Proof.
  intros Hb. rewrite !bits_set_1 by lia. intros H.
  apply negb_true_iff, Z.eqb_neq in H. apply negb_false_iff, Z.eqb_eq.
  destruct (Z.eq_dec bps 0) as [->|Hne].
  - change (2 ^ 0) with 1 in *. rewrite Z.mul_1_r in *.
    pose proof (Z.mod_pos_bound x 2). 
    replace (x - 1) with (x + (-1) * 1) by lia.
    rewrite Z.mul_comm. 
    pose proof (Z.div_mod x 2). pose proof (Z.div_mod (x + 1 * -1) 2).
    pose proof (Z.mod_pos_bound (x + 1 * -1) 2). lia.
  - exfalso. apply H. replace bps with (1 + (bps - 1)) by lia.
    rewrite Z.pow_add_r by lia. change (2 ^ 1) with 2.
    replace (x * (2 * 2 ^ (bps - 1))) with (x * 2 ^ (bps - 1) * 2) by lia.
    apply Z.mod_mul. lia.
Qed.

Lemma discard_spec s w s' :
  samplebuffer_discard s w = Some s' ->
  s' = s \/
  (0 < w - wpos (sb s) /\
   let b := sb s in
   let idx := discard_idx b w in
   s' = mk_sbstate
          (mk_samplebuffer (ptr_and_flags b) (size b) (wpos b + idx)
             (widx b - idx) (Z.max 0 (ridx b - idx)) (wnext b) (state b)
             (state_size b))
          (discard_mem s idx)).
Proof.
  unfold samplebuffer_discard. intros H.
  destruct (w - wpos (sb s) <=? 0) eqn:E0; [left; congruence|].
  apply Z.leb_gt in E0.
  fold (discard_idx (sb s) w) in H.
  set (idx := discard_idx (sb s) w) in *.
  match type of H with context [if ?c then _ else _] => destruct c eqn:E1 end;
    [left; congruence|].
  right. split; [lia|]. cbv zeta.
  apply bind_Some in H as (m' & Hm & H).
  injection H as <-. f_equal.
  - unfold set_ridx, set_widx, set_wpos; simpl.
    destruct (ridx (sb s) - idx <? 0) eqn:E2; simpl.
    + apply Z.ltb_lt in E2. f_equal. lia.
    + apply Z.ltb_ge in E2. f_equal. lia.
  - unfold discard_mem. 
    destruct (Z.shiftl (widx (sb s) - idx) (SAMPLES_BPS_SHIFT (sb s)) >? 0).
    + apply bind_Some in Hm as (u & Hu & Hm). congruence.
    + congruence.
Qed.

Lemma discard_idx_phase b w : bits_set (discard_idx b w) (SAMPLES_BPS_SHIFT b) 1 = false.
Proof.
  unfold discard_idx.
  set (i := if w - wpos b >? widx b then widx b else w - wpos b).
  destruct (bits_set i (SAMPLES_BPS_SHIFT b) 1) eqn:E; [|exact E].
  apply bits_set_1_pred; [apply bps_range | exact E].
Qed.

Lemma bits_set_0 bps m : bits_set 0 bps m = false.
Proof. unfold bits_set. rewrite Z.shiftl_0_l. reflexivity. Qed.

Lemma discard_idx_bounds b w :
  0 < w - wpos b -> 0 <= widx b ->
  0 <= discard_idx b w /\ discard_idx b w <= widx b /\
  discard_idx b w <= w - wpos b /\
  (w - wpos b <= widx b -> w - wpos b - 1 <= discard_idx b w).
Proof.
  intros Hw Hx. unfold discard_idx.
  set (i := if w - wpos b >? widx b then widx b else w - wpos b).
  assert (Hi : 0 <= i /\ i <= widx b /\ i <= w - wpos b /\
               (w - wpos b <= widx b -> i = w - wpos b)).
  { subst i. destruct (w - wpos b >? widx b) eqn:E.
    - apply Z.gtb_lt in E. lia.
    - rewrite Z.gtb_ltb in E. apply Z.ltb_ge in E. lia. }
  destruct (bits_set i (SAMPLES_BPS_SHIFT b) 1) eqn:E; [|lia].
  assert (i <> 0) by (intros ->; rewrite bits_set_0 in E; discriminate).
  lia.
Qed.

Lemma discard_cursors s w s' :
  cursors_ok (sb s) -> samplebuffer_discard s w = Some s' -> cursors_ok (sb s').
Proof.
  intros Hok H. apply discard_spec in H as [->|[Hw H]]; [exact Hok|].
  cbv zeta in H. subst s'. unfold cursors_ok in *. simpl.
  pose proof (discard_idx_bounds (sb s) w). lia.
Qed.

(** A compaction that starts at or below the read cursor keeps the number
    of unread frames. *)
Lemma discard_unread s w s' :
  cursors_ok (sb s) -> w - wpos (sb s) <= ridx (sb s) ->
  samplebuffer_discard s w = Some s' ->
  widx (sb s') - ridx (sb s') = widx (sb s) - ridx (sb s) /\
  size (sb s') = size (sb s).
Proof.
  intros Hok Hr H. apply discard_spec in H as [->|[Hw H]]; [lia|].
  cbv zeta in H. subst s'. unfold cursors_ok in *. simpl.
  pose proof (discard_idx_bounds (sb s) w). lia.
Qed.

Lemma phase_shift b (x : Z) :
  phase_ok b -> bits_set x (SAMPLES_BPS_SHIFT b) 1 = false ->
  Z.land (Z.shiftl (wpos b + x) (SAMPLES_BPS_SHIFT b)) 1 = 0.
Proof.
  unfold phase_ok. pose proof (bps_range b) as Hb.
  rewrite bits_set_1 by lia. intros Hp Hx.
  apply negb_false_iff, Z.eqb_eq in Hx.
  rewrite land_1_mod2, Z.shiftl_mul_pow2 in * by lia.
  rewrite Z.mul_add_distr_r, Z.add_mod, Hp, Hx by lia. reflexivity.
Qed.

Lemma discard_phase s w s' :
  phase_ok (sb s) -> samplebuffer_discard s w = Some s' -> phase_ok (sb s').
Proof.
  intros Hok H. apply discard_spec in H as [->|[Hw H]]; [exact Hok|].
  cbv zeta in H. subst s'. unfold phase_ok, SAMPLES_BPS_SHIFT. simpl.
  apply (phase_shift (sb s)); [exact Hok | apply discard_idx_phase].
Qed.

Lemma rollback_bounds fuel r bps : 0 <= r -> 0 <= rollback fuel r bps <= r.
Proof.
  revert r. induction fuel as [|f IH]; intros r Hr; simpl; [lia|].
  destruct (bits_set r bps 7) eqn:E; [|lia].
  assert (r <> 0) by (intros ->; rewrite bits_set_0 in E; discriminate).
  specialize (IH (r - 1)). lia.
Qed.

(** Eight iterations are enough for the loop to stop on an aligned index. *)
Lemma rollback_aligned r bps :
  0 <= bps -> bits_set (rollback 8 r bps) bps 7 = false.
Proof.
  intros Hb.
  assert (Hstep : forall x, x mod 8 = 0 -> bits_set x bps 7 = false).
  { intros x Hx. unfold bits_set. rewrite land_7_mod8, Z.shiftl_mul_pow2 by lia.
    apply negb_false_iff, Z.eqb_eq.
    rewrite <- Z.mul_mod_idemp_l, Hx by lia. reflexivity. }
  assert (Hgen : forall f x, (0 <= x mod 8 < Z.of_nat f) ->
            bits_set (rollback f x bps) bps 7 = false).
  { induction f as [|f IH]; intros x Hx; [lia|]. simpl.
    destruct (bits_set x bps 7) eqn:E; [|exact E].
    apply IH. 
    assert (x mod 8 <> 0) by (intros Hz; rewrite (Hstep _ Hz) in E; discriminate).
    pose proof (Z.div_mod x 8). pose proof (Z.div_mod (x - 1) 8).
    pose proof (Z.mod_pos_bound x 8). pose proof (Z.mod_pos_bound (x - 1) 8).
    assert ((x - 1) mod 8 = x mod 8 - 1).
    { symmetry. apply (Z.mod_unique_pos (x - 1) 8 (x / 8)); lia. }
    lia. }
  apply Hgen. pose proof (Z.mod_pos_bound r 8). simpl. lia.
Qed.

Lemma append_spec s n p s' :
  samplebuffer_append s n = Some (p, s') ->
  exists s1,
    (if widx (sb s) + n >? size (sb s)
     then widx (sb s) >= ridx (sb s) /\
          samplebuffer_discard s
            (wpos (sb s) + rollback 8 (ridx (sb s)) (SAMPLES_BPS_SHIFT (sb s)))
          = Some s1
     else s1 = s) /\
    phase_ok (sb s1) /\
    widx (sb s1) + n <= size (sb s1) /\
    p = SAMPLES_PTR (sb s1) + Z.shiftl (widx (sb s1)) (SAMPLES_BPS_SHIFT (sb s1)) /\
    s' = mk_sbstate (set_widx (sb s1) (widx (sb s1) + n)) (mem s1).
Proof.
  unfold samplebuffer_append. intros H.
  apply bind_Some in H as (s1 & Hs1 & H).
  apply bind_Some in H as (u1 & Hu1 & H).
  apply bind_Some in H as (u2 & Hu2 & H).
  apply assertf_Some in Hu1, Hu2. apply Z.eqb_eq in Hu1. apply Z.leb_le in Hu2.
  injection H as <- <-. exists s1. repeat split; try assumption.
  - destruct (widx (sb s) + n >? size (sb s)).
    + apply bind_Some in Hs1 as (u & Hu & Hs1). apply assertf_Some in Hu.
      apply Z.geb_le in Hu. split; [lia | exact Hs1].
    + congruence.
  - unfold phase_ok. rewrite land_1_mod2.
    rewrite Z.rem_mod_eq_0 in Hu1 by lia. exact Hu1.
Qed.

Lemma append_cursors s n p s' :
  cursors_ok (sb s) -> 0 <= n ->
  samplebuffer_append s n = Some (p, s') ->
  cursors_ok (sb s') /\
  widx (sb s') - ridx (sb s') = widx (sb s) - ridx (sb s) + n.
Proof.
  intros Hok Hn H.
  apply append_spec in H as (s1 & Hs1 & _ & Hfit & _ & ->).
  assert (H1 : cursors_ok (sb s1) /\
               widx (sb s1) - ridx (sb s1) = widx (sb s) - ridx (sb s)).
  { destruct (widx (sb s) + n >? size (sb s)).
    - destruct Hs1 as [_ Hd]. split; [eapply discard_cursors; eauto|].
      eapply discard_unread; eauto.
      pose proof (rollback_bounds 8 (ridx (sb s)) (SAMPLES_BPS_SHIFT (sb s))).
      unfold cursors_ok in Hok. lia.
    - subst s1. split; [exact Hok | reflexivity]. }
  destruct H1 as [H1 H2]. unfold cursors_ok in *. simpl. lia.
Qed.

Lemma append_phase s n p s' :
  samplebuffer_append s n = Some (p, s') -> phase_ok (sb s').
Proof.
  intros H. apply append_spec in H as (s1 & _ & Hp & _ & _ & ->). exact Hp.
Qed.

Lemma undo_spec b n b' :
  samplebuffer_undo b n = Some b' -> n <= widx b /\ b' = set_widx b (widx b - n).
Proof.
  unfold samplebuffer_undo. intros H. apply bind_Some in H as (u & Hu & H).
  apply assertf_Some, Z.geb_le in Hu. split; [lia | congruence].
Qed.

Lemma run_calls_cursors calls : forall s bal s',
  cursors_ok (sb s) -> bal <= widx (sb s) - ridx (sb s) ->
  balanced bal calls -> run_calls s calls = Some s' -> cursors_ok (sb s').
Proof.
  induction calls as [|[n|n] rest IH]; intros s bal s' Hok Hbal Hb H; simpl in *.
  - congruence.
  - destruct Hb as [Hn Hb].
    apply bind_Some in H as ([p s1] & Ha & H).
    destruct (append_cursors _ _ _ _ Hok Hn Ha) as [Hok1 Hun].
    apply (IH s1 (bal + n) s'); auto. lia.
  - destruct Hb as [Hn Hb].
    apply bind_Some in H as (b1 & Hu & H).
    apply undo_spec in Hu as [_ ->].
    apply (IH _ (bal - n) s' ) in H; auto.
    + unfold cursors_ok in *. simpl. lia.
    + simpl. lia.
Qed.

Lemma run_calls_phase calls : forall s s',
  phase_ok (sb s) -> run_calls s calls = Some s' -> phase_ok (sb s').
Proof.
  induction calls as [|[n|n] rest IH]; intros s s' Hok H; simpl in *.
  - congruence.
  - apply bind_Some in H as ([p s1] & Ha & H).
    apply (IH s1 s'); auto. eapply append_phase; eauto.
  - apply bind_Some in H as (b1 & Hu & H).
    apply undo_spec in Hu as [_ ->].
    apply (IH _ s') in H; auto.
Qed.

Lemma shiftr8_pos bps : 0 <= bps <= 3 -> 1 <= Z.shiftr 8 bps.
Proof.
  intros H. assert (Hc : bps = 0 \/ bps = 1 \/ bps = 2 \/ bps = 3) by lia.
  destruct Hc as [ -> | [ -> | [ -> | -> ] ] ]; vm_compute; discriminate.
Qed.

Lemma ROUNDUP8_BPS_nonneg n bps : 0 <= bps <= 3 -> 0 <= n -> 0 <= ROUNDUP8_BPS n bps.
Proof.
  intros Hb Hn. unfold ROUNDUP8_BPS. apply Z.shiftl_nonneg, Z.shiftr_nonneg.
  pose proof (shiftr8_pos bps Hb). lia.
Qed.

(** What a successful [samplebuffer_get] did: the state [s1] the read
    callback left (or the buffer with the read cursor moved), and the
    results computed from it. *)
Lemma get_spec {C} (rd : WaveformRead C) c s w n p n' c' s' :
  samplebuffer_get rd c s w n = Some (p, n', c', s') ->
  wpos (sb s') <= w < wpos (sb s') + widx (sb s') /\
  p = SAMPLES_PTR (sb s') + Z.shiftl (w - wpos (sb s')) (SAMPLES_BPS_SHIFT (sb s')) /\
  n' = (if widx (sb s') - (w - wpos (sb s')) <? n
        then widx (sb s') - (w - wpos (sb s')) else n).
Proof.
  unfold samplebuffer_get. intros H.
  apply bind_Some in H as ([c1 s1] & H1 & H).
  apply bind_Some in H as (u & Hu & H).
  apply assertf_Some, andb_true_iff in Hu as [Hu1 Hu2].
  apply Z.geb_le in Hu1. apply Z.ltb_lt in Hu2.
  injection H as <- <- <- <-. repeat split; lia.
Qed.

Lemma get_paths {C} (rd : WaveformRead C) c s w n p n' c' s' :
  samplebuffer_get rd c s w n = Some (p, n', c', s') ->
  let b := sb s in
  (get_restarts b w = true /\
   exists s0,
     rd c (mk_sbstate (get_seek_buf b w) (mem s)) (wpos (get_seek_buf b w))
        (get_seek_len b w n) (negb (w =? wnext b)) = Some (c', s0) /\
     s' = stamp_wnext s0) \/
  (get_restarts b w = false /\ wpos b + widx b - w < n /\
   wpos b + widx b = wnext b /\
   exists s0,
     rd c (mk_sbstate (set_ridx b (w - wpos b)) (mem s)) (wpos b + widx b)
        (ROUNDUP8_BPS (n - (wpos b + widx b - w)) (SAMPLES_BPS_SHIFT b)) false
       = Some (c', s0) /\
     s' = stamp_wnext s0) \/
  (get_restarts b w = false /\ n <= wpos b + widx b - w /\
   c' = c /\ s' = mk_sbstate (set_ridx b (w - wpos b)) (mem s)).
Proof.
  unfold samplebuffer_get. intros H. cbv zeta.
  apply bind_Some in H as ([c1 s1] & H1 & H).
  apply bind_Some in H as (u & _ & H).
  injection H as _ _ <- <-.
  fold (get_restarts (sb s) w) in H1.
  destruct (get_restarts (sb s) w) eqn:E.
  - left. split; [reflexivity|].
    apply bind_Some in H1 as ([c0 s0] & Hr & H1).
    injection H1 as <- <-. exists s0. split; [|reflexivity].
    unfold get_seek_buf, get_seek_len. simpl in *.
    destruct (bits_set w (SAMPLES_BPS_SHIFT (sb s)) 1); exact Hr.
  - right. simpl in H1.
    destruct (wpos (sb s) + widx (sb s) - w <? n) eqn:E1.
    + left. apply Z.ltb_lt in E1.
      apply bind_Some in H1 as (u1 & Hu1 & H1).
      apply assertf_Some, Z.eqb_eq in Hu1.
      apply bind_Some in H1 as ([c0 s0] & Hr & H1).
      injection H1 as <- <-.
      split; [reflexivity|]. split; [lia|]. split; [lia|].
      exists s0. split; [|reflexivity].
      replace (wpos (sb s) + widx (sb s))
        with (w + (wpos (sb s) + widx (sb s) - w)) at 1 by lia. exact Hr.
    + right. apply Z.ltb_ge in E1. injection H1 as <- <-.
      repeat split; auto.
Qed.

Lemma get_restarts_false b w :
  get_restarts b w = false -> widx b <> 0 /\ wpos b <= w <= wpos b + widx b.
Proof.
  unfold get_restarts. intros H.
  apply orb_false_iff in H as [H H3]. apply orb_false_iff in H as [H1 H2].
  apply Z.eqb_neq in H1. apply Z.ltb_ge in H2.
  rewrite Z.gtb_ltb in H3. apply Z.ltb_ge in H3. lia.
Qed.

Lemma get_seek_buf_fields b w :
  ptr_and_flags (get_seek_buf b w) = ptr_and_flags b /\
  size (get_seek_buf b w) = size b /\
  widx (get_seek_buf b w) = 0 /\ ridx (get_seek_buf b w) = 0.
Proof.
  unfold get_seek_buf. simpl.
  destruct (bits_set w (SAMPLES_BPS_SHIFT b) 1); simpl; auto.
Qed.

Lemma get_seek_buf_phase b w : phase_ok (get_seek_buf b w).
Proof.
  unfold get_seek_buf, phase_ok. simpl.
  destruct (bits_set w (SAMPLES_BPS_SHIFT b) 1) eqn:E; simpl;
    unfold SAMPLES_BPS_SHIFT in *; simpl.
  - apply bits_set_1_pred in E; [|apply (bps_range b)].
    unfold bits_set in E. apply negb_false_iff, Z.eqb_eq in E. exact E.
  - unfold bits_set in E. apply negb_false_iff, Z.eqb_eq in E. exact E.
Qed.

Section StepLemmas.
Variable f : Z -> Z -> bool -> list producer_call.

Lemma script_read_spec c s w n k c' s' :
  script_read f c s w n k = Some (c', s') ->
  run_calls s (f w n k) = Some s'.
Proof.
  unfold script_read. intros H. apply bind_Some in H as (s0 & H0 & H).
  congruence.
Qed.

Lemma get_cursors s w n p n' c' s' :
  balanced_read f -> cursors_ok (sb s) -> 0 <= n ->
  samplebuffer_get (script_read f) tt s w n = Some (p, n', c', s') ->
  cursors_ok (sb s').
Proof.
  intros Hf Hok Hn H. pose proof (bps_range (sb s)) as Hb.
  apply get_paths in H. cbv zeta in H.
  destruct H as [(_ & s0 & Hr & ->) | [(Hc & Hlt & _ & s0 & Hr & ->) | (Hc & _ & _ & ->)]].
  - apply script_read_spec in Hr.
    assert (cursors_ok (sb s0)); [|assumption].
    eapply (run_calls_cursors _ _ 0); [| |apply Hf|exact Hr].
    + destruct (get_seek_buf_fields (sb s) w) as (_ & Hs & Hw & Hr0).
      unfold cursors_ok in *. simpl. lia.
    + destruct (get_seek_buf_fields (sb s) w) as (_ & Hs & Hw & Hr0).
      simpl. lia.
    + unfold get_seek_len. apply ROUNDUP8_BPS_nonneg; [lia|].
      destruct (bits_set w _ 1); lia.
  - apply script_read_spec in Hr. apply get_restarts_false in Hc.
    assert (cursors_ok (sb s0)); [|assumption].
    eapply (run_calls_cursors _ _ 0); [| |apply Hf|exact Hr].
    + unfold cursors_ok in *. simpl. lia.
    + simpl. lia.
    + apply ROUNDUP8_BPS_nonneg; lia.
  - apply get_restarts_false in Hc. unfold cursors_ok in *. simpl. lia.
Qed.

Lemma get_phase s w n p n' c' s' :
  phase_ok (sb s) ->
  samplebuffer_get (script_read f) tt s w n = Some (p, n', c', s') ->
  phase_ok (sb s').
Proof.
  intros Hok H. apply get_paths in H. cbv zeta in H.
  destruct H as [(_ & s0 & Hr & ->) | [(Hc & Hlt & _ & s0 & Hr & ->) | (Hc & _ & _ & ->)]].
  - apply script_read_spec in Hr.
    apply run_calls_phase in Hr; [exact Hr | apply get_seek_buf_phase].
  - apply script_read_spec in Hr.
    apply run_calls_phase in Hr; [exact Hr | exact Hok].
  - exact Hok.
Qed.

Lemma init_spec a n ss b :
  samplebuffer_init a n ss = Some b ->
  size b = n /\ wpos b = 0 /\ widx b = 0 /\ ridx b = 0 /\ wnext b = -1 /\
  Z.land (ptr_and_flags b) 7 = 0.
Proof.
  unfold samplebuffer_init. intros H.
  apply bind_Some in H as (u1 & _ & H). apply bind_Some in H as (u2 & Hu & H).
  apply assertf_Some, Z.eqb_eq in Hu. injection H as <-. simpl.
  repeat split; auto.
Qed.

Lemma set_bps_spec b bits b' :
  samplebuffer_set_bps b bits = Some b' ->
  widx b = 0 /\ ridx b = 0 /\ wpos b = 0 /\
  widx b' = 0 /\ ridx b' = 0 /\ wpos b' = 0 /\
  size b' = Z.shiftr (Z.shiftl (size b) (SAMPLES_BPS_SHIFT b))
              (if bits =? 8 then 0 else if bits =? 16 then 1 else 2).
Proof.
  unfold samplebuffer_set_bps. intros H.
  apply bind_Some in H as (u1 & _ & H). apply bind_Some in H as (u2 & Hu & H).
  apply assertf_Some in Hu. apply andb_true_iff in Hu as [Hu H3].
  apply andb_true_iff in Hu as [H1 H2].
  apply Z.eqb_eq in H1, H2, H3. injection H as <-. simpl.
  repeat split; auto.
Qed.

Lemma step_cursors s o s' :
  balanced_read f -> cursors_ok (sb s) -> op_ok s o ->
  step f s o = Some s' -> cursors_ok (sb s').
Proof.
  intros Hf Hok Ho H. destruct o as [a n ss|bits|w n|n|n|w|]; simpl in *.
  - apply bind_Some in H as (b & Hb & H). injection H as <-.
    apply init_spec in Hb as (Hs & _ & Hw & Hr & _). unfold cursors_ok. simpl. lia.
  - apply bind_Some in H as (b & Hb & H). injection H as <-.
    apply set_bps_spec in Hb as (_ & _ & _ & Hw & Hr & _ & Hs).
    unfold cursors_ok in *. simpl. rewrite Hw, Hr, Hs.
    repeat split; try lia. apply Z.shiftr_nonneg, Z.shiftl_nonneg. lia.
  - apply bind_Some in H as ([[[p n'] c'] s1] & Hg & H). injection H as <-.
    eapply get_cursors; eauto.
  - apply bind_Some in H as ([p s1] & Ha & H). injection H as <-.
    eapply append_cursors; eauto.
  - apply bind_Some in H as (b & Hb & H). injection H as <-.
    apply undo_spec in Hb as [_ ->]. unfold cursors_ok in *. simpl. lia.
  - eapply discard_cursors; eauto.
  - injection H as <-. unfold cursors_ok in *. simpl. lia.
Qed.

End StepLemmas.

Section Reach.
Variable f : Z -> Z -> bool -> list producer_call.

Lemma step_phase s o s' :
  phase_ok (sb s) -> step f s o = Some s' -> phase_ok (sb s').
Proof.
  intros Hok H. destruct o as [a n ss|bits|w n|n|n|w|]; simpl in *.
  - apply bind_Some in H as (b & Hb & H). injection H as <-.
    apply init_spec in Hb as (_ & Hw & _). unfold phase_ok. simpl.
    rewrite Hw, Z.shiftl_0_l. reflexivity.
  - apply bind_Some in H as (b & Hb & H). injection H as <-.
    apply set_bps_spec in Hb as (_ & _ & _ & _ & _ & Hw & _).
    unfold phase_ok. simpl. rewrite Hw, Z.shiftl_0_l. reflexivity.
  - apply bind_Some in H as ([[[p n'] c'] s1] & Hg & H). injection H as <-.
    eapply get_phase; eauto.
  - apply bind_Some in H as ([p s1] & Ha & H). injection H as <-.
    eapply append_phase; eauto.
  - apply bind_Some in H as (b & Hb & H). injection H as <-.
    apply undo_spec in Hb as [_ ->]. exact Hok.
  - eapply discard_phase; eauto.
  - injection H as <-. unfold phase_ok. simpl.
    rewrite Z.shiftl_0_l. reflexivity.
Qed.

Lemma reachable_phase s : reachable f s -> phase_ok (sb s).
Proof.
  induction 1 as [a n ss b m Hb | s o s' _ IH Hs].
  - apply init_spec in Hb as (_ & Hw & _). unfold phase_ok. simpl.
    rewrite Hw, Z.shiftl_0_l. reflexivity.
  - eapply step_phase; eauto.
Qed.

End Reach.

Lemma discard_flags s w s' :
  samplebuffer_discard s w = Some s' -> ptr_and_flags (sb s') = ptr_and_flags (sb s).
Proof.
  intros H. apply discard_spec in H as [->|[_ H]]; [reflexivity|].
  cbv zeta in H. subst s'. reflexivity.
Qed.

Lemma append_flags s n p s' :
  samplebuffer_append s n = Some (p, s') -> ptr_and_flags (sb s') = ptr_and_flags (sb s).
Proof.
  intros H. apply append_spec in H as (s1 & Hs1 & _ & _ & _ & ->). simpl.
  destruct (widx (sb s) + n >? size (sb s)).
  - destruct Hs1 as [_ Hd]. eapply discard_flags; eauto.
  - subst s1. reflexivity.
Qed.

Lemma run_calls_flags calls : forall s s',
  run_calls s calls = Some s' -> ptr_and_flags (sb s') = ptr_and_flags (sb s).
Proof.
  induction calls as [|[n|n] rest IH]; intros s s' H; simpl in *.
  - congruence.
  - apply bind_Some in H as ([p s1] & Ha & H).
    rewrite (IH _ _ H). eapply append_flags; eauto.
  - apply bind_Some in H as (b1 & Hu & H).
    apply undo_spec in Hu as [_ ->]. rewrite (IH _ _ H). reflexivity.
Qed.

Lemma get_flags f s w n p n' c' s' :
  samplebuffer_get (script_read f) tt s w n = Some (p, n', c', s') ->
  ptr_and_flags (sb s') = ptr_and_flags (sb s).
Proof.
  intros H. apply get_paths in H. cbv zeta in H.
  destruct H as [(_ & s0 & Hr & ->) | [(Hc & Hlt & _ & s0 & Hr & ->) | (Hc & _ & _ & ->)]].
  - apply script_read_spec, run_calls_flags in Hr. simpl in *. rewrite Hr.
    apply get_seek_buf_fields.
  - apply script_read_spec, run_calls_flags in Hr. simpl in *. rewrite Hr.
    reflexivity.
  - reflexivity.
Qed.

(** ** Properties of the sample buffer *)

Lemma ops_ok_app f ops1 : forall s ops2,
  ops_ok f s (ops1 ++ ops2) -> ops_ok f s ops1.
Proof.
  induction ops1 as [|o rest IH]; intros s ops2 H; simpl in *; [exact I|].
  destruct H as [Ho H]. split; [exact Ho|].
  destruct (step f s o); [eapply IH; eauto | exact I].
Qed.

Lemma run_cursors f ops : forall s s',
  balanced_read f -> cursors_ok (sb s) -> ops_ok f s ops ->
  run f s ops = Some s' -> cursors_ok (sb s').
Proof.
  induction ops as [|o rest IH]; intros s s' Hf Hok Hops H; simpl in *.
  - congruence.
  - destruct Hops as [Ho Hops].
    apply bind_Some in H as (s1 & Hs & H). rewrite Hs in Hops.
    apply (IH s1 s'); auto. eapply step_cursors; eauto.
Qed.

(** C1 (amended).  Along every sequence of sample-buffer operations that
    respects the lengths ([init] with [nbytes >= 0], [get] and [append] with
    [wlen >= 0], [undo] of at most [widx - ridx] frames, a read callback
    that never retracts more than it has appended), the invariant
    [0 <= ridx <= widx <= size] holds after each operation. *)
Theorem cursors_invariant f (ops pre rest : list op) (s s' : sbstate) :
  balanced_read f ->
  cursors_ok (sb s) ->
  ops = pre ++ rest ->
  ops_ok f s ops ->
  run f s pre = Some s' ->
  cursors_ok (sb s').
Proof.
  intros Hf Hok -> Hops H.
  exact (run_cursors f pre s s' Hf Hok (ops_ok_app f pre s rest Hops) H).
Qed.

Lemma raw_read_balanced : balanced_read raw_read.
Proof. intros w n k Hn. simpl. lia. Qed.

Lemma cursors_invariant_witness :
  match run raw_read blank
          [OpInit 0xA0100000 64 0; OpSetBps 16; OpGet 0 16; OpGet 16 16;
           OpAppend 8; OpUndo 8]
  with
  | Some s' => cursors_ok (sb s')
  | None => False
  end.
Proof.
  destruct (run raw_read blank _) as [s'|] eqn:E.
  - apply (cursors_invariant raw_read
           [OpInit 0xA0100000 64 0; OpSetBps 16; OpGet 0 16; OpGet 16 16;
            OpAppend 8; OpUndo 8; OpDiscard 16; OpFlush]
           [OpInit 0xA0100000 64 0; OpSetBps 16; OpGet 0 16; OpGet 16 16;
            OpAppend 8; OpUndo 8]
           [OpDiscard 16; OpFlush] blank).
    + exact raw_read_balanced.
    + unfold cursors_ok. simpl. lia.
    + reflexivity.
    + vm_compute. repeat split; discriminate.
    + exact E.
  - apply (f_equal (option_map (fun s => widx (sb s)))) in E.
    vm_compute in E. discriminate.
Defined.

Lemma cursors_invariant_counterexample :
  ~ (forall ops s', run raw_read blank ops = Some s' -> cursors_ok (sb s')).
Proof.
  intros H.
  specialize (H [OpInit 0xA0100000 64 0; OpSetBps 16; OpAppend 32;
                 OpGet 16 16; OpUndo 32]).
  destruct (run raw_read blank _) as [s'|] eqn:E; [|vm_compute in E; discriminate].
  specialize (H s' eq_refl). vm_compute in E. injection E as <-.
  unfold cursors_ok in H. simpl in H. lia.
Qed.

Lemma store64_load64_in m a src k :
  0 <= k < 8 -> store64 m a (load64 m src) (a + k) = m (src + k).
Proof.
  intros Hk. unfold store64.
  replace ((a <=? a + k) && (a + k <? a + 8)) with true
    by (symmetry; apply andb_true_iff; split; [apply Z.leb_le | apply Z.ltb_lt]; lia).
  replace (a + k - a) with k by lia.
  assert (Hc : k = 0 \/ k = 1 \/ k = 2 \/ k = 3 \/ k = 4 \/ k = 5 \/ k = 6 \/ k = 7) by lia.
  destruct Hc as [ -> | [ -> | [ -> | [ -> | [ -> | [ -> | [ -> | -> ] ] ] ] ] ] ];
    reflexivity.
Qed.

Lemma store64_out m a w x : x < a \/ a + 8 <= x -> store64 m a w x = m x.
Proof.
  intros Hx. unfold store64.
  replace ((a <=? x) && (x <? a + 8)) with false; [reflexivity|].
  symmetry. apply andb_false_iff.
  destruct Hx; [left; apply Z.leb_gt | right; apply Z.ltb_ge]; lia.
Qed.

Lemma copy64_out n : forall m dst src x,
  x < dst \/ dst + 8 * Z.of_nat n <= x -> copy64 n m dst src x = m x.
Proof.
  induction n as [|n IH]; intros m dst src x Hx; [reflexivity|].
  cbn [copy64]. rewrite IH by lia. apply store64_out. lia.
Qed.

(** The forward copy by 8-byte words moves every byte of the source range
    to the destination, although the two ranges overlap. *)
Lemma copy64_in n : forall m dst src j,
  dst <= src -> 0 <= j < 8 * Z.of_nat n ->
  copy64 n m dst src (dst + j) = m (src + j).
Proof.
  induction n as [|n IH]; intros m dst src j Hlt Hj; [lia|].
  cbn [copy64]. destruct (Z_lt_le_dec j 8) as [Hs|Hl].
  - rewrite copy64_out by lia. apply store64_load64_in. lia.
  - replace (dst + j) with (dst + 8 + (j - 8)) by lia.
    rewrite IH by lia. replace (src + 8 + (j - 8)) with (src + j) by lia.
    apply store64_out. lia.
Qed.

Lemma ROUND_UP_8_ge n : 0 < n -> n <= 8 * Z.quot (ROUND_UP n 8) 8 /\ 0 <= Z.quot (ROUND_UP n 8) 8.
Proof.
  intros Hn. unfold ROUND_UP.
  rewrite Z.quot_mul by lia.
  rewrite Z.quot_div_nonneg by lia.
  pose proof (Z.div_mod (n + 8 - 1) 8). pose proof (Z.mod_pos_bound (n + 8 - 1) 8).
  lia.
Qed.

(** C5.  [samplebuffer_discard(buf, wpos)] with
    [buf->wpos < wpos < buf->wpos + buf->widx] returns, and every frame of
    [[wpos, buf->wpos + buf->widx)] is still in the window, with each of
    its bytes, at its new physical offset, equal to what it was. *)
Theorem discard_retains (s : sbstate) (wpos_ : Z) :
  Z.land (to_uint 32 (SAMPLES_PTR (sb s))) 7 = 0 ->
  wpos (sb s) < wpos_ < wpos (sb s) + widx (sb s) ->
  exists s',
    samplebuffer_discard s wpos_ = Some s' /\
    SAMPLES_PTR (sb s') = SAMPLES_PTR (sb s) /\
    SAMPLES_BPS_SHIFT (sb s') = SAMPLES_BPS_SHIFT (sb s) /\
    wpos (sb s') + widx (sb s') = wpos (sb s) + widx (sb s) /\
    forall L k,
      wpos_ <= L < wpos (sb s) + widx (sb s) ->
      0 <= k < 2 ^ SAMPLES_BPS_SHIFT (sb s) ->
      wpos (sb s') <= L < wpos (sb s') + widx (sb s') /\
      mem s' (SAMPLES_PTR (sb s')
              + Z.shiftl (L - wpos (sb s')) (SAMPLES_BPS_SHIFT (sb s')) + k)
      = mem s (SAMPLES_PTR (sb s)
               + Z.shiftl (L - wpos (sb s)) (SAMPLES_BPS_SHIFT (sb s)) + k).
Proof.
  intros Hal Hw.
  pose proof (bps_range (sb s)) as Hb.
  destruct (samplebuffer_discard s wpos_) as [s'|] eqn:E.
  - exists s'. split; [reflexivity|].
    apply discard_spec in E as [->|[_ E]].
    { repeat split; try reflexivity; lia. }
    cbv zeta in E.
    destruct (discard_idx_bounds (sb s) wpos_) as (Hi1 & Hi2 & Hi3 & Hi4); [lia..|].
    set (idx := discard_idx (sb s) wpos_) in *.
    subst s'. unfold SAMPLES_PTR, SAMPLES_BPS_SHIFT. simpl.
    fold (SAMPLES_PTR (sb s)). fold (SAMPLES_BPS_SHIFT (sb s)).
    set (bps := SAMPLES_BPS_SHIFT (sb s)) in *.
    repeat split; try lia.
    unfold discard_mem. fold bps.
    rewrite !Z.shiftl_mul_pow2 by lia.
    assert (Hp : 0 < 2 ^ bps) by (apply Z.pow_pos_nonneg; lia).
    assert (Hkept : (widx (sb s) - idx) * 2 ^ bps > 0)
      by (apply Z.lt_gt, Z.mul_pos_pos; lia).
    apply Z.gtb_gt in Hkept. rewrite Hkept. apply Z.gtb_gt in Hkept.
    destruct (ROUND_UP_8_ge ((widx (sb s) - idx) * 2 ^ bps)) as [Hr1 Hr2]; [lia|].
    replace (SAMPLES_PTR (sb s) + (L - (wpos (sb s) + idx)) * 2 ^ bps + k)
      with (SAMPLES_PTR (sb s) + ((L - (wpos (sb s) + idx)) * 2 ^ bps + k)) by lia.
    rewrite copy64_in.
    + f_equal. lia.
    + nia.
    + rewrite Z2Nat.id by lia. nia.
  - exfalso. unfold samplebuffer_discard in E.
    repeat match type of E with
    | context [if ?c then _ else _] => destruct c eqn:?; try discriminate
    end.
    all: rewrite Hal in E; simpl in E; discriminate.
Qed.

Lemma discard_retains_witness :
  exists s',
    samplebuffer_discard full16 16 = Some s' /\
    SAMPLES_PTR (sb s') = SAMPLES_PTR (sb full16) /\
    SAMPLES_BPS_SHIFT (sb s') = SAMPLES_BPS_SHIFT (sb full16) /\
    wpos (sb s') + widx (sb s') = wpos (sb full16) + widx (sb full16) /\
    forall L k,
      16 <= L < wpos (sb full16) + widx (sb full16) ->
      0 <= k < 2 ^ SAMPLES_BPS_SHIFT (sb full16) ->
      wpos (sb s') <= L < wpos (sb s') + widx (sb s') /\
      mem s' (SAMPLES_PTR (sb s')
              + Z.shiftl (L - wpos (sb s')) (SAMPLES_BPS_SHIFT (sb s')) + k)
      = mem full16 (SAMPLES_PTR (sb full16)
               + Z.shiftl (L - wpos (sb full16)) (SAMPLES_BPS_SHIFT (sb full16)) + k).
Proof.
  apply (discard_retains full16 16).
  - vm_compute. reflexivity.
  - simpl. lia.
Defined.

(** C4.  On a buffer obtained from [samplebuffer_init] through the
    operations, every successful [samplebuffer_get(buf, wpos, &wlen)]
    returns the base address plus [(wpos - buf->wpos) * 2^bps]; on return
    [buf->wpos * 2^bps] is even; and [*wlen] is lowered to the number of
    frames resident from [wpos] on when that is less than requested. *)
Theorem get_result f (s : sbstate) (wpos_ wlen p wlen' : Z) (c' : unit) (s' : sbstate) :
  reachable f s ->
  samplebuffer_get (script_read f) tt s wpos_ wlen = Some (p, wlen', c', s') ->
  let b := sb s' in
  let resident := wpos b + widx b - wpos_ in
  SAMPLES_PTR b = SAMPLES_PTR (sb s) /\
  SAMPLES_BPS_SHIFT b = SAMPLES_BPS_SHIFT (sb s) /\
  p = SAMPLES_PTR b + (wpos_ - wpos b) * 2 ^ SAMPLES_BPS_SHIFT b /\
  Z.even (wpos b * 2 ^ SAMPLES_BPS_SHIFT b) = true /\
  0 < resident /\
  (resident < wlen -> wlen' = resident) /\
  (wlen <= resident -> wlen' = wlen).
Proof.
  intros Hreach H. cbv zeta.
  pose proof (bps_range (sb s')) as Hb.
  pose proof (get_flags _ _ _ _ _ _ _ _ H) as Hfl.
  pose proof (get_phase f _ _ _ _ _ _ _ (reachable_phase f s Hreach) H) as Hph.
  apply get_spec in H as (Hw & -> & ->).
  unfold SAMPLES_PTR, SAMPLES_BPS_SHIFT in *. rewrite Hfl in *.
  repeat split; try reflexivity; try lia.
  - rewrite Z.shiftl_mul_pow2 by lia. reflexivity.
  - unfold phase_ok, SAMPLES_BPS_SHIFT in Hph. rewrite Hfl in Hph.
    rewrite land_1_mod2, Z.shiftl_mul_pow2 in Hph by lia.
    rewrite Zeven_mod, Hph. reflexivity.
  - intros Hlt.
    destruct (widx (sb s') - (wpos_ - wpos (sb s')) <? wlen) eqn:E; [lia|].
    apply Z.ltb_ge in E. lia.
  - intros Hle.
    destruct (widx (sb s') - (wpos_ - wpos (sb s')) <? wlen) eqn:E; [|lia].
    apply Z.ltb_lt in E. lia.
Qed.

Lemma fresh8_reachable : reachable raw_read fresh8.
Proof. apply (reach_init raw_read 0xA0100000 64 0). reflexivity. Qed.

Lemma get_result_witness :
  samplebuffer_get (script_read raw_read) tt fresh8 5 3
    = Some (0xA0100001, 3, tt, fresh8_got) /\
  SAMPLES_PTR (sb fresh8_got) = SAMPLES_PTR (sb fresh8) /\
  SAMPLES_BPS_SHIFT (sb fresh8_got) = SAMPLES_BPS_SHIFT (sb fresh8) /\
  0xA0100001 = SAMPLES_PTR (sb fresh8_got)
               + (5 - wpos (sb fresh8_got)) * 2 ^ SAMPLES_BPS_SHIFT (sb fresh8_got) /\
  Z.even (wpos (sb fresh8_got) * 2 ^ SAMPLES_BPS_SHIFT (sb fresh8_got)) = true /\
  0 < wpos (sb fresh8_got) + widx (sb fresh8_got) - 5 /\
  (wpos (sb fresh8_got) + widx (sb fresh8_got) - 5 < 3 ->
   3 = wpos (sb fresh8_got) + widx (sb fresh8_got) - 5) /\
  (3 <= wpos (sb fresh8_got) + widx (sb fresh8_got) - 5 -> 3 = 3).
Proof.
  assert (E : samplebuffer_get (script_read raw_read) tt fresh8 5 3
              = Some (0xA0100001, 3, tt, fresh8_got))
    by (vm_compute; reflexivity).
  split; [exact E|].
  exact (get_result raw_read fresh8 5 3 0xA0100001 3 tt fresh8_got
           fresh8_reachable E).
Defined.

(** *** Further properties *)

Lemma bits_set_7 x bps :
  0 <= bps -> bits_set x bps 7 = negb ((x * 2 ^ bps) mod 8 =? 0).
Proof.
  intros Hb. unfold bits_set. rewrite land_7_mod8, Z.shiftl_mul_pow2 by lia.
  reflexivity.
Qed.

Lemma bits_set_7_false x bps :
  0 <= bps -> bits_set x bps 7 = false <-> (x * 2 ^ bps) mod 8 = 0.
Proof.
  intros Hb. rewrite bits_set_7 by lia.
  destruct (Z.eqb_spec ((x * 2 ^ bps) mod 8) 0); simpl; split; congruence.
Qed.

Lemma bits_set_7_1 x bps :
  0 <= bps -> bits_set x bps 7 = false -> bits_set x bps 1 = false.
Proof.
  intros Hb H. apply bits_set_7_false in H; [|lia].
  rewrite bits_set_1 by lia.
  replace ((x * 2 ^ bps) mod 2) with 0; [reflexivity|].
  Z.div_mod_to_equations. lia.
Qed.

(** A discard that succeeds keeps the frames from [w] on, whatever [w]. *)
Lemma discard_keeps s w s' :
  0 <= widx (sb s) ->
  samplebuffer_discard s w = Some s' ->
  SAMPLES_PTR (sb s') = SAMPLES_PTR (sb s) /\
  SAMPLES_BPS_SHIFT (sb s') = SAMPLES_BPS_SHIFT (sb s) /\
  wpos (sb s') + widx (sb s') = wpos (sb s) + widx (sb s) /\
  forall L k,
    w <= L -> wpos (sb s) <= L < wpos (sb s) + widx (sb s) ->
    0 <= k < 2 ^ SAMPLES_BPS_SHIFT (sb s) ->
    wpos (sb s') <= L /\ frame_byte s' L k = frame_byte s L k.
Proof.
  intros Hw E.
  pose proof (bps_range (sb s)) as Hb.
  apply discard_spec in E as [->|[Hpos E]].
  { repeat split; try reflexivity; lia. }
  cbv zeta in E.
  destruct (discard_idx_bounds (sb s) w) as (Hi1 & Hi2 & Hi3 & Hi4); [lia..|].
  set (idx := discard_idx (sb s) w) in *.
  subst s'. unfold frame_byte, SAMPLES_PTR, SAMPLES_BPS_SHIFT. simpl.
  fold (SAMPLES_PTR (sb s)). fold (SAMPLES_BPS_SHIFT (sb s)).
  set (bps := SAMPLES_BPS_SHIFT (sb s)) in *.
  split; [reflexivity|]. split; [reflexivity|]. split; [lia|].
  intros L k HL1 HL2 Hk. split; [lia|].
  unfold discard_mem. fold bps.
  rewrite !Z.shiftl_mul_pow2 by lia.
  assert (Hp : 0 < 2 ^ bps) by (apply Z.pow_pos_nonneg; lia).
  assert (Hkept : (widx (sb s) - idx) * 2 ^ bps > 0)
    by (apply Z.lt_gt, Z.mul_pos_pos; lia).
  apply Z.gtb_gt in Hkept. rewrite Hkept. apply Z.gtb_gt in Hkept.
  destruct (ROUND_UP_8_ge ((widx (sb s) - idx) * 2 ^ bps)) as [Hr1 Hr2]; [lia|].
  replace (SAMPLES_PTR (sb s) + (L - (wpos (sb s) + idx)) * 2 ^ bps + k)
    with (SAMPLES_PTR (sb s) + ((L - (wpos (sb s) + idx)) * 2 ^ bps + k)) by lia.
  rewrite copy64_in.
  + f_equal. lia.
  + nia.
  + rewrite Z2Nat.id by lia. nia.
Qed.

(** X1.  [samplebuffer_append] keeps what has not been read.  When it
    succeeds, even after compacting the buffer to make room, every frame
    from the read cursor to the old end of the buffer is still there, byte
    for byte; the end of the buffer has moved on by [wlen] frames, and the
    pointer returned is the start of those. *)
Theorem append_keeps_unread (s : sbstate) (wlen p : Z) (s' : sbstate) :
  cursors_ok (sb s) ->
  samplebuffer_append s wlen = Some (p, s') ->
  SAMPLES_PTR (sb s') = SAMPLES_PTR (sb s) /\
  SAMPLES_BPS_SHIFT (sb s') = SAMPLES_BPS_SHIFT (sb s) /\
  wpos (sb s') + widx (sb s') = wpos (sb s) + widx (sb s) + wlen /\
  p = SAMPLES_PTR (sb s')
      + Z.shiftl (widx (sb s') - wlen) (SAMPLES_BPS_SHIFT (sb s')) /\
  forall L k,
    wpos (sb s) + ridx (sb s) <= L < wpos (sb s) + widx (sb s) ->
    0 <= k < 2 ^ SAMPLES_BPS_SHIFT (sb s) ->
    wpos (sb s') <= L /\ frame_byte s' L k = frame_byte s L k.
Proof.
  intros (Hr & Hrw & Hws) E.
  pose proof (bps_range (sb s)) as Hb.
  apply append_spec in E as (s1 & Hs1 & _ & Hfit & -> & ->).
  assert (H1 : SAMPLES_PTR (sb s1) = SAMPLES_PTR (sb s) /\
               SAMPLES_BPS_SHIFT (sb s1) = SAMPLES_BPS_SHIFT (sb s) /\
               wpos (sb s1) + widx (sb s1) = wpos (sb s) + widx (sb s) /\
               forall L k,
                 wpos (sb s) + ridx (sb s) <= L < wpos (sb s) + widx (sb s) ->
                 0 <= k < 2 ^ SAMPLES_BPS_SHIFT (sb s) ->
                 wpos (sb s1) <= L /\ frame_byte s1 L k = frame_byte s L k).
  { destruct (widx (sb s) + wlen >? size (sb s)).
    - destruct Hs1 as [_ Hd].
      destruct (discard_keeps s _ s1 ltac:(lia) Hd) as (A & B & C & D).
      repeat split; try assumption.
      + apply (D L k); try lia.
        pose proof (rollback_bounds 8 (ridx (sb s)) (SAMPLES_BPS_SHIFT (sb s)) Hr). lia.
      + apply (D L k); try lia.
        pose proof (rollback_bounds 8 (ridx (sb s)) (SAMPLES_BPS_SHIFT (sb s)) Hr). lia.
    - subst s1. repeat split; try reflexivity; lia. }
  destruct H1 as (A & B & C & D).
  unfold frame_byte in *. unfold SAMPLES_PTR, SAMPLES_BPS_SHIFT in *. simpl.
  split; [exact A|]. split; [exact B|]. split; [lia|].
  split; [repeat f_equal; lia|].
  exact D.
Qed.

Lemma append_keeps_unread_witness :
  match samplebuffer_append half_read16 8 with
  | Some (p, s') =>
      SAMPLES_PTR (sb s') = SAMPLES_PTR (sb half_read16) /\
      SAMPLES_BPS_SHIFT (sb s') = SAMPLES_BPS_SHIFT (sb half_read16) /\
      wpos (sb s') + widx (sb s') = wpos (sb half_read16) + widx (sb half_read16) + 8 /\
      p = SAMPLES_PTR (sb s')
          + Z.shiftl (widx (sb s') - 8) (SAMPLES_BPS_SHIFT (sb s')) /\
      forall L k,
        wpos (sb half_read16) + ridx (sb half_read16) <= L
          < wpos (sb half_read16) + widx (sb half_read16) ->
        0 <= k < 2 ^ SAMPLES_BPS_SHIFT (sb half_read16) ->
        wpos (sb s') <= L /\ frame_byte s' L k = frame_byte half_read16 L k
  | None => False
  end.
Proof.
  destruct (samplebuffer_append half_read16 8) as [[p s']|] eqn:E.
  - apply (append_keeps_unread half_read16 8 p s'); [|exact E].
    unfold cursors_ok; simpl; lia.
  - apply (f_equal (option_map fst)) in E. vm_compute in E. discriminate.
Defined.

Lemma discard_idx_rollback b :
  0 <= ridx b <= widx b ->
  discard_idx b (wpos b + rollback 8 (ridx b) (SAMPLES_BPS_SHIFT b))
  = rollback 8 (ridx b) (SAMPLES_BPS_SHIFT b).
Proof.
  intros Hr. pose proof (bps_range b) as Hb.
  pose proof (rollback_bounds 8 (ridx b) (SAMPLES_BPS_SHIFT b) ltac:(lia)) as Hrb.
  pose proof (rollback_aligned (ridx b) (SAMPLES_BPS_SHIFT b) ltac:(lia)) as Hra.
  unfold discard_idx.
  replace (wpos b + rollback 8 (ridx b) (SAMPLES_BPS_SHIFT b) - wpos b)
    with (rollback 8 (ridx b) (SAMPLES_BPS_SHIFT b)) by lia.
  destruct (Z.gtb_spec (rollback 8 (ridx b) (SAMPLES_BPS_SHIFT b)) (widx b)); [lia|].
  rewrite bits_set_7_1 by (assumption || lia). reflexivity.
Qed.

(** X2.  The pointer [samplebuffer_append] returns is 8-byte aligned, and
    the write cursor stays on an 8-byte boundary, as long as the buffer
    is 8-byte aligned and the frames appended so far and now make whole
    8-byte words: the compaction rolls the read cursor back to such a
    boundary before it discards. *)
Theorem append_aligned (s : sbstate) (wlen p : Z) (s' : sbstate) :
  cursors_ok (sb s) ->
  Z.land (SAMPLES_PTR (sb s)) 7 = 0 ->
  bits_set (widx (sb s)) (SAMPLES_BPS_SHIFT (sb s)) 7 = false ->
  bits_set wlen (SAMPLES_BPS_SHIFT (sb s)) 7 = false ->
  samplebuffer_append s wlen = Some (p, s') ->
  Z.land p 7 = 0 /\
  bits_set (widx (sb s')) (SAMPLES_BPS_SHIFT (sb s')) 7 = false.
Proof.
  intros (Hr & Hrw & Hws) Hal Hw Hn E.
  pose proof (bps_range (sb s)) as Hb.
  set (bps := SAMPLES_BPS_SHIFT (sb s)) in *.
  apply bits_set_7_false in Hw; [|lia]. apply bits_set_7_false in Hn; [|lia].
  rewrite land_7_mod8 in Hal.
  apply append_spec in E as (s1 & Hs1 & _ & Hfit & -> & ->).
  assert (H1 : SAMPLES_PTR (sb s1) = SAMPLES_PTR (sb s) /\
               SAMPLES_BPS_SHIFT (sb s1) = bps /\
               (widx (sb s1) * 2 ^ bps) mod 8 = 0).
  { destruct (widx (sb s) + wlen >? size (sb s)).
    - destruct Hs1 as [_ Hd].
      apply discard_spec in Hd as [->|[_ Hd]]; [auto|].
      cbv zeta in Hd. rewrite discard_idx_rollback in Hd by lia. fold bps in Hd.
      pose proof (rollback_aligned (ridx (sb s)) bps ltac:(lia)) as Hra.
      apply bits_set_7_false in Hra; [|lia].
      subst s1. unfold SAMPLES_PTR, SAMPLES_BPS_SHIFT.
      cbn [sb ptr_and_flags widx].
      split; [reflexivity|]. split; [reflexivity|].
      rewrite Z.mul_sub_distr_r.
      rewrite Zminus_mod, Hw, Hra. reflexivity.
    - subst s1. auto. }
  destruct H1 as (A & B & C).
  unfold SAMPLES_BPS_SHIFT, SAMPLES_PTR in *. simpl.
  rewrite land_7_mod8, bits_set_7_false by lia.
  rewrite A, B, Z.shiftl_mul_pow2 by lia.
  split.
  - rewrite Zplus_mod, Hal, C. reflexivity.
  - rewrite Z.mul_add_distr_r, Zplus_mod, C, Hn. reflexivity.
Qed.

Lemma append_aligned_witness :
  match samplebuffer_append half_read16 8 with
  | Some (p, s') =>
      Z.land p 7 = 0 /\
      bits_set (widx (sb s')) (SAMPLES_BPS_SHIFT (sb s')) 7 = false
  | None => False
  end.
Proof.
  destruct (samplebuffer_append half_read16 8) as [[p s']|] eqn:E.
  - apply (append_aligned half_read16 8 p s'); try reflexivity; [|exact E].
    unfold cursors_ok; simpl; lia.
  - apply (f_equal (option_map fst)) in E. vm_compute in E. discriminate.
Defined.

Lemma discard_total s w :
  Z.land (to_uint 32 (SAMPLES_PTR (sb s))) 7 = 0 ->
  is_Some (samplebuffer_discard s w).
Proof.
  intros Hal. destruct (samplebuffer_discard s w) eqn:E; [eauto|].
  exfalso. unfold samplebuffer_discard in E.
  repeat match type of E with
  | context [if ?c then _ else _] => destruct c eqn:?; try discriminate
  end.
  all: rewrite Hal in E; simpl in E; discriminate.
Qed.

Lemma discard_cases s w s' :
  samplebuffer_discard s w = Some s' ->
  (w - wpos (sb s) <= 0 /\ s' = s) \/
  (0 < w - wpos (sb s) /\
   exists idx, (idx = 0 \/ idx = discard_idx (sb s) w) /\
     wpos (sb s') = wpos (sb s) + idx /\
     widx (sb s') = widx (sb s) - idx /\
     (discard_idx (sb s) w = 0 -> idx = 0) /\
     ((0 < discard_idx (sb s) w \/ widx (sb s) = 0) -> idx = discard_idx (sb s) w) /\
     size (sb s') = size (sb s) /\ wnext (sb s') = wnext (sb s) /\
     ptr_and_flags (sb s') = ptr_and_flags (sb s)).
Proof.
  unfold samplebuffer_discard. intros H.
  destruct (w - wpos (sb s) <=? 0) eqn:E0.
  { left. apply Z.leb_le in E0. split; [lia | congruence]. }
  apply Z.leb_gt in E0. right. split; [lia|].
  fold (discard_idx (sb s) w) in H.
  set (idx := discard_idx (sb s) w) in *.
  match type of H with context [if ?c then _ else _] => destruct c eqn:E1 end.
  - injection H as <-. exists 0.
    apply andb_true_iff in E1 as [_ E1]. apply Z.eqb_eq in E1.
    repeat split; try lia; auto.
  - apply bind_Some in H as (m' & Hm & H).
    injection H as <-. exists idx.
    repeat split; auto; try lia.
    all: unfold set_ridx, set_widx, set_wpos; simpl;
      destruct (ridx (sb s) - idx <? 0); reflexivity.
Qed.

Lemma discard_idx_lower b w :
  0 < w - wpos b -> 0 <= widx b ->
  Z.min (w - wpos b) (widx b) - 1 <= discard_idx b w.
Proof.
  intros Hw Hx. unfold discard_idx.
  set (i := if w - wpos b >? widx b then widx b else w - wpos b).
  assert (Hi : i = Z.min (w - wpos b) (widx b)).
  { subst i. destruct (Z.gtb_spec (w - wpos b) (widx b)); lia. }
  destruct (bits_set i (SAMPLES_BPS_SHIFT b) 1); lia.
Qed.

(** X3.  [samplebuffer_discard] on an aligned buffer always returns.  It
    never moves the end of the window, the capacity or the expected next
    position; it does nothing when [wpos] is not after the start of the
    window; it drops at most the frames before [wpos], and all of them but
    possibly one (kept for the 2-byte phase); asked to go past the end, it
    leaves at most one frame. *)
Theorem discard_edges (s : sbstate) (w : Z) :
  Z.land (to_uint 32 (SAMPLES_PTR (sb s))) 7 = 0 ->
  0 <= widx (sb s) ->
  exists s',
    samplebuffer_discard s w = Some s' /\
    wpos (sb s') + widx (sb s') = wpos (sb s) + widx (sb s) /\
    size (sb s') = size (sb s) /\ wnext (sb s') = wnext (sb s) /\
    ptr_and_flags (sb s') = ptr_and_flags (sb s) /\
    (w <= wpos (sb s) -> s' = s) /\
    wpos (sb s) <= wpos (sb s') <= Z.max (wpos (sb s)) w /\
    (wpos (sb s) < w <= wpos (sb s) + widx (sb s) -> w - 1 <= wpos (sb s')) /\
    (wpos (sb s) + widx (sb s) <= w -> 0 <= widx (sb s') <= 1).
Proof.
  intros Hal Hw.
  destruct (discard_total s w Hal) as [s' E]. exists s'. split; [exact E|].
  apply discard_cases in E as [[Hle ->]|[Hpos (idx & Hidx & A & B & Z0 & Z1 & C & D & F)]].
  { repeat split; try lia. }
  destruct (discard_idx_bounds (sb s) w) as (Hi1 & Hi2 & Hi3 & Hi4); [lia..|].
  pose proof (discard_idx_lower (sb s) w ltac:(lia) Hw) as Hlow.
  assert (Hi : 0 <= idx <= discard_idx (sb s) w) by (destruct Hidx; lia).
  repeat split; lia.
Qed.

Lemma discard_edges_witness :
  exists s',
    samplebuffer_discard full16 100 = Some s' /\
    wpos (sb s') + widx (sb s') = wpos (sb full16) + widx (sb full16) /\
    size (sb s') = size (sb full16) /\ wnext (sb s') = wnext (sb full16) /\
    ptr_and_flags (sb s') = ptr_and_flags (sb full16) /\
    (100 <= wpos (sb full16) -> s' = full16) /\
    wpos (sb full16) <= wpos (sb s') <= Z.max (wpos (sb full16)) 100 /\
    (wpos (sb full16) < 100 <= wpos (sb full16) + widx (sb full16) ->
     100 - 1 <= wpos (sb s')) /\
    (wpos (sb full16) + widx (sb full16) <= 100 -> 0 <= widx (sb s') <= 1).
Proof.
  apply (discard_edges full16 100); [reflexivity | simpl; lia].
Defined.

(** X4.  Frames that are in the buffer are served from it.  When the whole
    range asked for is resident, [samplebuffer_get] returns its address
    and the full length without calling the read callback (whatever the
    callback is), and only moves the read cursor to the start of the
    range. *)
Theorem get_reuses {C : Type} (rd : WaveformRead C) (c : C) (s : sbstate)
    (wpos_ wlen : Z) :
  0 < wlen ->
  wpos (sb s) <= wpos_ ->
  wpos_ + wlen <= wpos (sb s) + widx (sb s) ->
  samplebuffer_get rd c s wpos_ wlen
  = Some (SAMPLES_PTR (sb s)
          + Z.shiftl (wpos_ - wpos (sb s)) (SAMPLES_BPS_SHIFT (sb s)),
          wlen, c,
          mk_sbstate (set_ridx (sb s) (wpos_ - wpos (sb s))) (mem s)).
Proof.
  intros Hn Hlo Hhi. unfold samplebuffer_get.
  destruct (Z.eqb_spec (widx (sb s)) 0); [lia|].
  destruct (Z.ltb_spec wpos_ (wpos (sb s))); [lia|].
  destruct (Z.gtb_spec wpos_ (wpos (sb s) + widx (sb s))); [lia|].
  cbn [orb]. unfold set_ridx at 1 2 3. cbn [wpos widx].
  destruct (Z.ltb_spec (wpos (sb s) + widx (sb s) - wpos_) wlen); [lia|].
  cbn [mbind option_bind sb]. unfold set_ridx. cbn [wpos widx].
  destruct (Z.geb_spec wpos_ (wpos (sb s))); [|lia].
  destruct (Z.ltb_spec wpos_ (wpos (sb s) + widx (sb s))); [|lia].
  cbn [andb assertf mbind option_bind].
  destruct (Z.ltb_spec (widx (sb s) - (wpos_ - wpos (sb s))) wlen); [lia|].
  reflexivity.
Qed.

Lemma get_reuses_witness :
  samplebuffer_get (fun _ _ _ _ _ => None) tt full16 8 24
  = Some (SAMPLES_PTR (sb full16)
          + Z.shiftl (8 - wpos (sb full16)) (SAMPLES_BPS_SHIFT (sb full16)),
          24, tt,
          mk_sbstate (set_ridx (sb full16) (8 - wpos (sb full16))) (mem full16)).
Proof.
  apply (get_reuses (fun _ _ _ _ _ => None) tt full16 8 24); simpl; lia.
Defined.



Lemma discard_end s w s' :
  samplebuffer_discard s w = Some s' ->
  wpos (sb s') + widx (sb s') = wpos (sb s) + widx (sb s).
Proof.
  intros E. apply discard_cases in E as [[_ ->]|[_ (idx & _ & A & B & _)]]; lia.
Qed.

Lemma append_end s n p s' :
  samplebuffer_append s n = Some (p, s') ->
  wpos (sb s') + widx (sb s') = wpos (sb s) + widx (sb s) + n.
Proof.
  intros E. apply append_spec in E as (s1 & Hs1 & _ & _ & _ & ->).
  simpl.
  destruct (widx (sb s) + n >? size (sb s)).
  - destruct Hs1 as [_ Hd]. apply discard_end in Hd. lia.
  - subst s1. lia.
Qed.

End SampleBufferFacts.

(** ** The VADPCM Huffman overlay *)

Module HuffFacts.
Import Huff.

(** *** What a table holds when it is built *)

Lemma nth_insert (l : list Z) (i j : nat) (v : Z) :
  nth j (<[i := v]> l) 0 =
    if bool_decide (j = i /\ (i < List.length l)%nat) then v else nth j l 0.
Proof.
  rewrite !nth_lookup.
  destruct (decide (j = i)) as [->|Hne].
  - destruct (decide (i < List.length l)%nat) as [Hlt|Hge].
    + rewrite list_lookup_insert_eq by exact Hlt.
      rewrite bool_decide_eq_true_2 by auto. reflexivity.
    + rewrite list_insert_ge by lia.
      rewrite bool_decide_eq_false_2 by (intros [_ ?]; lia). reflexivity.
  - rewrite list_lookup_insert_ne by congruence.
    rewrite bool_decide_eq_false_2 by (intros [? _]; congruence). reflexivity.
Qed.

(** [fill] writes [table_value] in the [count] slots from [code + k] on
    (those inside the table), which were empty, and nothing else. *)
Lemma fill_spec count : forall k code v codes codes',
  fill count k code v codes = Some codes' ->
  List.length codes' = List.length codes /\
  forall j,
    nth j codes' 0 =
      if bool_decide ((code + k <= j < code + k + count)%nat
                      /\ (j < List.length codes)%nat)
      then v else nth j codes 0.
Proof.
  induction count as [|count IH]; intros k code v codes codes' H; simpl in H.
  - injection H as <-. split; [reflexivity|]. intros j.
    rewrite bool_decide_eq_false_2 by lia. reflexivity.
  - apply bind_Some in H as (u & _ & H).
    apply IH in H as [Hlen Hnth]. rewrite length_insert in Hlen, Hnth.
    split; [exact Hlen|]. intros j. rewrite Hnth, nth_insert.
    repeat case_bool_decide; try reflexivity; lia.
Qed.

Lemma add_symbol_filled fits c s codes codes' :
  filled_by c s codes ->
  add_symbol fits c (Some codes) s = Some codes' ->
  filled_by c (S s) codes'.
Proof.
  intros [Hlen Hent] H. unfold add_symbol in H. simpl in H.
  destruct (stored_length c s =? 15) eqn:E.
  - injection H as <-. split; [exact Hlen|]. intros j Hj.
    destruct (Hent j Hj) as [H0|(sym & Hs & Hrest)]; [left; exact H0|].
    right. exists sym. split; [lia | exact Hrest].
  - apply Z.eqb_neq in E.
    apply bind_Some in H as (u1 & Hu1 & H). apply assertf_Some, Z.leb_le in Hu1.
    apply bind_Some in H as (u2 & _ & H).
    apply fill_spec in H as [Hl Hn]. split; [congruence|]. intros j Hj.
    rewrite Hn. case_bool_decide.
    + right. exists s. repeat split; auto.
    + destruct (Hent j Hj) as [H0|(sym & Hs & Hrest)]; [left; exact H0|].
      right. exists sym. split; [lia | exact Hrest].
Qed.

Lemma add_symbol_None fits c l : foldl (add_symbol fits c) None l = None.
Proof. induction l as [|x l IH]; simpl; [reflexivity | exact IH]. Qed.

Lemma add_symbols_filled fits c n : forall s codes codes',
  filled_by c s codes ->
  foldl (add_symbol fits c) (Some codes) (seq s n) = Some codes' ->
  filled_by c (s + n) codes'.
Proof.
  induction n as [|n IH]; intros s codes codes' Hf H; cbn [seq foldl] in H.
  - injection H as <-. rewrite Nat.add_0_r. exact Hf.
  - destruct (add_symbol fits c (Some codes) s) as [codes1|] eqn:E.
    + replace (s + S n)%nat with (S s + n)%nat by lia.
      eapply IH; [|exact H]. eapply add_symbol_filled; eauto.
    + rewrite add_symbol_None in H. discriminate.
Qed.

(** The two fields of the entry of a symbol below 16 with a length of at
    most 8. *)
Lemma entry_fields (sym : nat) (len : Z) :
  (sym < 16)%nat -> 0 <= len <= 8 ->
  let e := to_uint 8 (Z.lor (Z.shiftl (Z.of_nat sym) 4) (Z.land len 0xF)) in
  Z.land e 0xF = len /\ Z.shiftr e 4 = Z.of_nat sym.
Proof.
  intros Hs Hl.
  assert (Hall : forallb (fun s =>
                   forallb (fun l =>
                     let e := to_uint 8 (Z.lor (Z.shiftl (Z.of_nat s) 4)
                                              (Z.land (Z.of_nat l) 0xF)) in
                     (Z.land e 0xF =? Z.of_nat l) && (Z.shiftr e 4 =? Z.of_nat s))
                     (seq 0 9)) (seq 0 16) = true) by (vm_compute; reflexivity).
  rewrite forallb_forall in Hall.
  assert (Hi1 : In sym (seq 0 16)) by (apply in_seq; lia).
  specialize (Hall sym Hi1). rewrite forallb_forall in Hall.
  assert (Hi2 : In (Z.to_nat len) (seq 0 9)) by (apply in_seq; lia).
  specialize (Hall (Z.to_nat len) Hi2).
  cbv zeta in Hall. rewrite Z2Nat.id in Hall by lia.
  apply andb_true_iff in Hall as [H1 H2].
  apply Z.eqb_eq in H1, H2. cbv zeta. auto.
Qed.

Lemma stored_length_range c sym : 0 <= stored_length c sym <= 15.
Proof.
  unfold stored_length.
  set (x := Z.shiftr _ _). change (Z.land x 15) with (Z.land x (Z.ones 4)).
  rewrite Z.land_ones by lia. change (2 ^ 4) with 16.
  pose proof (Z.mod_pos_bound x 16). lia.
Qed.

(** Whenever a table is built, it has 256 entries, none of them zero, and
    each one holds a used symbol of the context in its high nibble and
    the stored length of that symbol in its low nibble. *)
Lemma build_lookup_entries fits c codes :
  build_lookup fits c = Some codes ->
  List.length codes = 256%nat /\
  forall j, (j < 256)%nat ->
    let e := nth j codes 0 in
    e <> 0 /\
    exists sym, (sym < 16)%nat /\ stored_length c sym <> 0xF /\
                Z.shiftr e 4 = Z.of_nat sym /\
                Z.land e 0xF = stored_length c sym.
Proof.
  unfold build_lookup. intros H.
  apply bind_Some in H as (codes0 & Hfold & H).
  apply bind_Some in H as (u & Hnz & H). injection H as <-.
  apply assertf_Some in Hnz. rewrite forallb_forall in Hnz.
  apply (add_symbols_filled fits c 16 0 (repeat 0 256)) in Hfold.
  2:{ split; [reflexivity|]. intros j Hj. left.
      apply nth_repeat. }
  destruct Hfold as [Hlen Hent]. split; [exact Hlen|]. intros j Hj. cbv zeta.
  assert (Hne : nth j codes0 0 <> 0).
  { specialize (Hnz (nth j codes0 0)).
    assert (Hin : In (nth j codes0 0) codes0) by (apply nth_In; lia).
    specialize (Hnz Hin). apply negb_true_iff, Z.eqb_neq in Hnz. exact Hnz. }
  split; [exact Hne|].
  destruct (Hent j Hj) as [H0|(sym & Hs & Hu & Hl & He)]; [contradiction|].
  exists sym. split; [exact Hs|]. split; [exact Hu|].
  pose proof (stored_length_range c sym) as Hr.
  destruct (entry_fields sym (stored_length c sym) Hs ltac:(lia)) as [H1 H2].
  rewrite He. unfold entry_of. auto.
Qed.

(** *** The round trip and the tables at single-symbol contexts *)

Example lone_five_table :
  valid_prefix_code lone_five = true /\
  wav64_vadpcm_init_huffman [lone_five; lone_five; lone_five]
  = Some (repeat (repeat 0x50 256) 3).
Proof. vm_compute. split; reflexivity. Qed.

(** C7 at the context whose single symbol is 0: it is a valid prefix code,
    the stored length 0 is legal, and both table builders abort on their
    final [assert(codes[j] != 0)], because the entry of symbol 0 with
    length 0 is the byte 0 that marks an empty slot. *)
Theorem lone_zero_table_aborts :
  valid_prefix_code lone_zero = true /\
  stored_length lone_zero 0 = 0 /\
  wav64_vadpcm_init_huffman [lone_zero; lone_five; lone_five] = None /\
  huffv_decompress_init
    (lengths lone_zero ++ values lone_zero ++
     lengths lone_five ++ values lone_five ++
     lengths lone_five ++ values lone_five) HUFF_CONTEXT_LEN = None.
Proof. vm_compute. repeat split; reflexivity. Qed.

(** C6 at one frame of silence: the compressor succeeds (it writes no
    payload byte and three contexts whose single symbol 0 has length 0),
    and the tables cannot be built from the contexts it wrote, so nothing
    is decoded. *)
Theorem roundtrip_silence_aborts (output_len : Z) :
  huffv_compress silence output_len HUFF_CONTEXT_LEN
  = Some ([], lengths lone_zero ++ values lone_zero ++
              lengths lone_zero ++ values lone_zero ++
              lengths lone_zero ++ values lone_zero) /\
  huffv_decompress_init
    (lengths lone_zero ++ values lone_zero ++
     lengths lone_zero ++ values lone_zero ++
     lengths lone_zero ++ values lone_zero) HUFF_CONTEXT_LEN = None /\
  roundtrip silence output_len = None.
Proof. vm_compute. repeat split; reflexivity. Qed.

Example roundtrip_sample :
  roundtrip [0x12; 0x34; 0x56; 0x78; 0x9A; 0xBC; 0xDE; 0xF0; 0x11;
             0x32; 0x34; 0x11; 0x11; 0x11; 0x11; 0x00; 0xF0; 0x11] 18
  = Some [0x12; 0x34; 0x56; 0x78; 0x9A; 0xBC; 0xDE; 0xF0; 0x11;
          0x32; 0x34; 0x11; 0x11; 0x11; 0x11; 0x00; 0xF0; 0x11].
Proof. vm_compute. reflexivity. Qed.

(** *** Further properties *)

Lemma build_lookup_lens fits c codes :
  build_lookup fits c = Some codes ->
  List.length codes = 256%nat /\
  forall j, (j < 256)%nat -> 0 <= Z.land (nth j codes 0) 0x0F <= 8.
Proof.
  intros H. destruct (build_lookup_entries fits c codes H) as [Hlen Hent].
  split; [exact Hlen|]. intros j Hj.
  unfold build_lookup in H.
  apply bind_Some in H as (codes0 & Hfold & H).
  apply bind_Some in H as (u & Hnz & H). injection H as <-.
  apply (add_symbols_filled fits c 16 0 (repeat 0 256)) in Hfold.
  2:{ split; [reflexivity|]. intros k Hk. left. apply nth_repeat. }
  destruct Hfold as [_ Hf].
  destruct (Hf j Hj) as [H0|(sym & Hs & Hu & Hl & He)].
  - rewrite H0. rewrite Z.land_0_l. lia.
  - destruct (Hent j Hj) as [_ (sym' & _ & _ & _ & E)].
    pose proof (stored_length_range c sym).
    rewrite He. unfold entry_of.
    destruct (entry_fields sym (stored_length c sym) Hs ltac:(lia)) as [H1 _].
    rewrite H1. lia.
Qed.

Lemma mapM_In {A B} (f : A -> option B) (l : list A) : forall (k : list B),
  mapM f l = Some k ->
  List.length k = List.length l /\
  forall y, In y k -> exists x, In x l /\ f x = Some y.
Proof.
  induction l as [|a l IH]; intros k H; simpl in H.
  - injection H as <-. split; [reflexivity|]. intros y [].
  - apply bind_Some in H as (b & Hb & H).
    apply bind_Some in H as (k' & Hk' & H). injection H as <-.
    destruct (IH k' Hk') as [Hl Hin]. split; [simpl; lia|].
    intros y [<-|Hy].
    + exists a. split; [left; reflexivity | exact Hb].
    + destruct (Hin y Hy) as (x & Hx & Hfx). exists x. split; [right; exact Hx | exact Hfx].
Qed.

Lemma init_tables_ok ctx_data ctx_len lookup :
  huffv_decompress_init ctx_data ctx_len = Some lookup -> tables_ok lookup.
Proof.
  unfold huffv_decompress_init. intros H.
  apply bind_Some in H as (u & _ & H).
  apply mapM_In in H as [Hl Hin]. split; [exact Hl|].
  intros t Ht. destruct (Hin t Ht) as (i & _ & Hb).
  exact (build_lookup_lens _ _ _ Hb).
Qed.

Lemma refill_ok compressed r :
  0 <= bit_count r ->
  exists r', refill 2 compressed r = Some r' /\
    8 <= bit_count r' /\ consumed r' = consumed r.
Proof.
  intros Hb. unfold consumed. cbn [refill].
  destruct (Z.ltb_spec (bit_count r) 8) as [Hlt|Hge].
  - cbn [bit_count comp_index].
    destruct (Z.ltb_spec (bit_count r + 8) 8); [lia|].
    eexists; split; [reflexivity|]. cbn [bit_count comp_index]. lia.
  - exists r. split; [reflexivity|]. lia.
Qed.

Lemma context_table lookup n :
  tables_ok lookup -> In (nth (context_of n) lookup []) lookup.
Proof.
  intros [Hl _]. apply nth_In. rewrite Hl.
  unfold context_of. destruct (n <? 2)%nat eqn:E; [apply Nat.ltb_lt in E|]; lia.
Qed.

Lemma land_255_range x : 0 <= Z.land x 0xFF < 256.
Proof.
  change 0xFF with (Z.ones 8). rewrite Z.land_ones by lia.
  apply Z.mod_pos_bound. lia.
Qed.

Lemma decode_symbol_ok compressed lookup n r :
  tables_ok lookup -> 0 <= bit_count r ->
  exists sym r', decode_symbol compressed lookup n r = Some (sym, r') /\
    0 <= bit_count r' /\ consumed r <= consumed r' <= consumed r + 8.
Proof.
  intros Ht Hb. unfold decode_symbol.
  destruct (refill_ok compressed r Hb) as (r1 & -> & H8 & Hc).
  cbn [mbind option_bind].
  set (index := Z.land _ 0xFF).
  pose proof (land_255_range (Z.shiftr (bit_buffer r1) (bit_count r1 - 8))) as Hi.
  fold index in Hi.
  destruct Ht as [Hl Hall].
  destruct (Hall _ (context_table lookup n (conj Hl Hall))) as [_ Hent].
  specialize (Hent (Z.to_nat index) ltac:(lia)).
  destruct (Z.leb_spec (Z.land (nth (Z.to_nat index) (nth (context_of n) lookup []) 0) 15) 8);
    [|lia].
  cbn [assertf mbind option_bind].
  eexists _, _. split; [reflexivity|].
  unfold consumed in *. cbn [bit_count comp_index]. lia.
Qed.

Lemma decode_nibbles_ok compressed lookup ns : forall nibbles r,
  tables_ok lookup -> 0 <= bit_count r ->
  exists nibbles' r',
    foldl (fun acc n =>
             '(nibbles, r) ← acc;
             '(sym, r) ← decode_symbol compressed lookup n r;
             Some (nibbles ++ [sym], r)) (Some (nibbles, r)) ns
    = Some (nibbles', r') /\
    0 <= bit_count r' /\
    consumed r <= consumed r' <= consumed r + 8 * Z.of_nat (List.length ns).
Proof.
  induction ns as [|n ns IH]; intros nibbles r Ht Hb.
  - exists nibbles, r. split; [reflexivity|]. simpl. lia.
  - cbn [foldl]. cbn [mbind option_bind].
    destruct (decode_symbol_ok compressed lookup n r Ht Hb) as (sym & r1 & -> & Hb1 & Hc1).
    cbn [mbind option_bind].
    destruct (IH (nibbles ++ [sym]) r1 Ht Hb1) as (nb & r2 & -> & Hb2 & Hc2).
    exists nb, r2. split; [reflexivity|]. simpl List.length. lia.
Qed.

Lemma decode_block_ok compressed lookup r :
  tables_ok lookup -> 0 <= bit_count r ->
  exists bytes r', decode_block compressed lookup r = Some (bytes, r') /\
    List.length bytes = 9%nat /\ Forall (fun b => 0 <= b < 256) bytes /\
    0 <= bit_count r' /\ consumed r <= consumed r' <= consumed r + 144.
Proof.
  intros Ht Hb. unfold decode_block.
  destruct (decode_nibbles_ok compressed lookup (seq 0 18) [] r Ht Hb)
    as (nb & r1 & -> & Hb1 & Hc1).
  cbn [mbind option_bind].
  eexists _, _. split; [reflexivity|].
  split; [reflexivity|]. split.
  - apply List.Forall_forall. intros b Hin. apply in_map_iff in Hin as (i & <- & _).
    unfold to_uint. apply Z.mod_pos_bound. lia.
  - rewrite length_seq in Hc1. lia.
Qed.

Lemma decode_blocks_ok compressed lookup nb : forall r output,
  tables_ok lookup -> 0 <= bit_count r ->
  Forall (fun b => 0 <= b < 256) output ->
  exists output' r', decode_blocks nb compressed lookup r output = Some (output', r') /\
    List.length output' = (List.length output + 9 * nb)%nat /\
    Forall (fun b => 0 <= b < 256) output' /\
    0 <= bit_count r' /\
    consumed r <= consumed r' <= consumed r + 144 * Z.of_nat nb.
Proof.
  induction nb as [|nb IH]; intros r output Ht Hb Ho.
  - exists output, r. split; [reflexivity|]. simpl. repeat split; try lia; auto.
  - cbn [decode_blocks].
    destruct (decode_block_ok compressed lookup r Ht Hb)
      as (bytes & r1 & -> & Hl & Hby & Hb1 & Hc1).
    cbn [mbind option_bind].
    destruct (IH r1 (output ++ bytes) Ht Hb1) as (o2 & r2 & -> & Hl2 & Ho2 & Hb2 & Hc2).
    { apply Forall_app; auto. }
    exists o2, r2. split; [reflexivity|].
    rewrite length_app, Hl in Hl2. repeat split; try lia; auto.
Qed.

(** X6.  The decoder cannot fail on a stream.  With the tables that
    [huffv_decompress_init] builds, [huffv_decompress] returns for every
    compressed input, truncated or not, and every output length that is a
    multiple of 9: it produces that many bytes, and reports a number of
    consumed bits between 0 and 8 per nibble produced. *)
Theorem huffv_decompress_total (ctx_data : list Z) (ctx_len : Z)
    (lookup : list (list Z)) (compressed : list Z) (output_len : Z) :
  huffv_decompress_init ctx_data ctx_len = Some lookup ->
  0 <= output_len -> Z.rem output_len 9 = 0 ->
  exists output bits,
    huffv_decompress compressed lookup output_len = Some (output, bits) /\
    Z.of_nat (List.length output) = output_len /\
    Forall (fun b => 0 <= b < 256) output /\
    0 <= bits <= 16 * output_len.
Proof.
  intros Hinit Hn Hrem. apply init_tables_ok in Hinit.
  unfold huffv_decompress. rewrite Hrem. cbn [Z.eqb assertf mbind option_bind].
  destruct (decode_blocks_ok compressed lookup (Z.to_nat (Z.quot output_len 9))
              (mk_br 0 0 0) [] Hinit ltac:(simpl; lia) ltac:(constructor))
    as (out & r & -> & Hl & Ho & Hb & Hc).
  cbn [mbind option_bind].
  exists out, (comp_index r * 8 - bit_count r). split; [reflexivity|].
  rewrite Z.quot_div_nonneg in * by lia.
  pose proof (Z.div_mod output_len 9 ltac:(lia)) as Hdm.
  rewrite Z.rem_mod_nonneg in Hrem by lia. rewrite Hrem in Hdm.
  assert (0 <= output_len / 9) by (apply Z.div_pos; lia).
  simpl List.length in Hl. unfold consumed in Hc. simpl in Hc.
  repeat split; try lia; auto.
Qed.

Lemma huffv_decompress_total_witness :
  exists lookup,
    huffv_decompress_init coin_data HUFF_CONTEXT_LEN = Some lookup /\
    exists output bits,
      huffv_decompress [0xA5] lookup 9 = Some (output, bits) /\
      Z.of_nat (List.length output) = 9 /\
      Forall (fun b => 0 <= b < 256) output /\
      0 <= bits <= 16 * 9.
Proof.
  destruct (huffv_decompress_init coin_data HUFF_CONTEXT_LEN) as [lookup|] eqn:E.
  - exists lookup. split; [reflexivity|].
    apply (huffv_decompress_total coin_data HUFF_CONTEXT_LEN lookup [0xA5] 9 E);
      [lia | reflexivity].
  - vm_compute in E. discriminate.
Defined.

Lemma fill_zero count : forall k code v codes codes',
  fill count k code v codes = Some codes' ->
  forall j, (code + k <= j < code + k + count)%nat -> nth j codes 0 = 0.
Proof.
  induction count as [|count IH]; intros k code v codes codes' H j Hj; [lia|].
  simpl in H. apply bind_Some in H as (u & Hu & H).
  apply assertf_Some, Z.eqb_eq in Hu.
  destruct (decide (j = (code + k)%nat)) as [->|Hne]; [exact Hu|].
  specialize (IH _ _ _ _ _ H j ltac:(lia)).
  rewrite nth_insert in IH.
  rewrite bool_decide_eq_false_2 in IH by (intros [? _]; congruence). exact IH.
Qed.

Lemma entry_nonzero c sym :
  (sym < 16)%nat -> stored_length c sym <= 8 ->
  sym <> 0%nat \/ stored_length c sym <> 0 -> entry_of c sym <> 0.
Proof.
  intros Hs Hl Hnz He. pose proof (stored_length_range c sym) as Hr.
  destruct (entry_fields sym (stored_length c sym) Hs ltac:(lia)) as [H1 H2].
  fold (entry_of c sym) in H1, H2. rewrite He in H1, H2.
  rewrite Z.land_0_l in H1. rewrite Z.shiftr_0_l in H2. lia.
Qed.

Lemma entry_inj c s1 s2 :
  (s1 < 16)%nat -> (s2 < 16)%nat ->
  stored_length c s1 <= 8 -> stored_length c s2 <= 8 ->
  entry_of c s1 = entry_of c s2 -> s1 = s2.
Proof.
  intros H1 H2 L1 L2 He.
  pose proof (stored_length_range c s1). pose proof (stored_length_range c s2).
  destruct (entry_fields s1 (stored_length c s1) H1 ltac:(lia)) as [_ A].
  destruct (entry_fields s2 (stored_length c s2) H2 ltac:(lia)) as [_ B].
  fold (entry_of c s1) in A. fold (entry_of c s2) in B.
  rewrite He in A. lia.
Qed.
Section Exact.
Variable c : HuffSerializedCtx.
Hypothesis Hzero : stored_length c 0 <> 0.
Hypothesis Hvals : forall sym, 0 <= nth sym (values c) 0.

Lemma slots_nat sym (j : nat) :
  stored_length c sym <= 8 ->
  let code := Z.to_nat (Z.shiftl (nth sym (values c) 0) (8 - stored_length c sym)) in
  let count := Z.to_nat (Z.shiftl 1 (8 - stored_length c sym)) in
  code_slots c sym j <-> (code + 0 <= j < code + 0 + count)%nat.
Proof.
  intros Hl code count. subst code count. unfold code_slots. cbv zeta.
  pose proof (Hvals sym) as Hv.
  rewrite !Z.shiftl_mul_pow2 by lia.
  assert (0 < 2 ^ (8 - stored_length c sym)) by (apply Z.pow_pos_nonneg; lia).
  split; intros; nia.
Qed.

Lemma add_symbol_exact s codes codes' :
  (s < 16)%nat ->
  exact_by c s codes ->
  add_symbol fits_init c (Some codes) s = Some codes' ->
  exact_by c (S s) codes'.
Proof.
  intros Hs16 (Hlen & Hle & Hent) H. unfold add_symbol in H. simpl in H.
  destruct (stored_length c s =? 15) eqn:E.
  - apply Z.eqb_eq in E. injection H as <-.
    split; [exact Hlen|]. split.
    + intros sym Hsym [Hu1 Hu2].
      destruct (decide (sym = s)) as [->|]; [congruence|].
      apply Hle; [lia | split; assumption].
    + intros j Hj. destruct (Hent j Hj) as [A B]. split.
      * destruct A as [A|(sym & ? & ? & ?)]; [left; exact A|].
        right. exists sym. split; [lia|]. auto.
      * intros sym Hsym Hu.
        destruct (decide (sym = s)) as [->|]; [destruct Hu; congruence|].
        apply B; [lia | exact Hu].
  - apply Z.eqb_neq in E.
    apply bind_Some in H as (u1 & Hu1 & H). apply assertf_Some, Z.leb_le in Hu1.
    apply bind_Some in H as (u2 & Hu2 & H). apply assertf_Some in Hu2.
    unfold fits_init in Hu2. apply Z.ltb_lt in Hu2.
    pose proof (fill_zero _ _ _ _ _ _ H) as Hz.
    apply fill_spec in H as [Hl Hn].
    fold (entry_of c s) in Hn.
    assert (Hus : used c s) by (split; assumption).
    assert (Hnz : entry_of c s <> 0).
    { apply entry_nonzero; try assumption.
      destruct (decide (s = 0%nat)) as [->|]; [right; exact Hzero | left; assumption]. }
    split; [congruence|]. split.
    + intros sym Hsym Hu.
      destruct (decide (sym = s)) as [->|]; [exact Hu1|].
      apply Hle; [lia | exact Hu].
    + intros j Hj. destruct (Hent j Hj) as [A B].
      rewrite Hn. rewrite Hlen.
      pose proof (slots_nat s j Hu1) as Hsl.
      case_bool_decide as Hin.
      * (* j is a slot of s *)
        destruct Hin as [Hin _].
        pose proof (Hz j Hin) as Hj0.
        split.
        -- right. exists s. split; [lia|]. split; [exact Hus | reflexivity].
        -- intros sym Hsym Hu.
           destruct (decide (sym = s)) as [->|Hne].
           ++ split; [reflexivity | intros _; apply Hsl; exact Hin].
           ++ split.
              ** intros Hc. apply B in Hc; [|lia|exact Hu].
                 exfalso. rewrite Hj0 in Hc.
                 apply (entry_nonzero c sym); [apply Hu | apply Hle; [lia|exact Hu] | | congruence].
                 destruct (decide (sym = 0%nat)) as [->|]; [right; exact Hzero | left; assumption].
              ** intros He. exfalso. apply Hne. symmetry.
                 apply (entry_inj c s sym); try assumption; [apply Hu|].
                 apply Hle; [lia | exact Hu].
      * (* j is not a slot of s *)
        assert (Hout : ~ code_slots c s j).
        { intros Hc. apply Hsl in Hc. apply Hin. split; [exact Hc | lia]. }
        split.
        -- destruct A as [A|(sym & ? & ? & ?)]; [left; exact A|].
           right. exists sym. split; [lia|]. auto.
        -- intros sym Hsym Hu.
           destruct (decide (sym = s)) as [->|Hne].
           ++ split; [contradiction|].
              intros He. exfalso.
              destruct A as [A|(sym & Hlt & Hu' & A)]; [congruence|].
              rewrite A in He.
              assert (sym = s); [|lia].
              apply (entry_inj c sym s); try assumption; [apply Hu'|].
              apply Hle; [lia | exact Hu'].
           ++ apply B; [lia | exact Hu].
Qed.

Lemma add_symbols_exact n : forall s codes codes',
  (s + n <= 16)%nat ->
  exact_by c s codes ->
  foldl (add_symbol fits_init c) (Some codes) (seq s n) = Some codes' ->
  exact_by c (s + n) codes'.
Proof.
  induction n as [|n IH]; intros s codes codes' Hsn Hf H; cbn [seq foldl] in H.
  - injection H as <-. rewrite Nat.add_0_r. exact Hf.
  - destruct (add_symbol fits_init c (Some codes) s) as [codes1|] eqn:E.
    + replace (s + S n)%nat with (S s + n)%nat by lia.
      eapply IH; [lia | | exact H]. eapply add_symbol_exact; eauto. lia.
    + rewrite add_symbol_None in H. discriminate.
Qed.

End Exact.

Lemma init_tables ctx_data ctx_len lookup (i : nat) :
  huffv_decompress_init ctx_data ctx_len = Some lookup ->
  (i < 3)%nat ->
  build_lookup fits_init (sctx_at ctx_data i) = Some (nth i lookup []).
Proof.
  unfold huffv_decompress_init. intros H Hi.
  apply bind_Some in H as (u & _ & H).
  apply mapM_Some in H.
  destruct (Forall2_lookup_l _ _ _ i i H) as (t & Hk & Hb).
  { apply lookup_seq. unfold HUFF_CONTEXTS. split; [reflexivity | exact Hi]. }
  rewrite (nth_lookup_Some _ _ _ _ Hk). exact Hb.
Qed.

Lemma nth_sub_nonneg (l : list Z) n m i :
  Forall (fun b => 0 <= b) l -> 0 <= nth i (take n (drop m l)) 0.
Proof.
  intros H. destruct (nth_in_or_default i (take n (drop m l)) 0) as [Hin | ->]; [|lia].
  assert (HF : Forall (fun b => 0 <= b) (take n (drop m l)))
    by (apply Forall_take, Forall_drop, H).
  exact (proj1 (List.Forall_forall _ _) HF _ Hin).
Qed.

(** X7.  What a table that builds says about its context.  When
    [huffv_decompress_init] accepts a serialised context in which symbol 0
    has no empty code, the slots of the table that hold the entry of a
    used symbol are exactly the 8-bit windows that start with its code;
    the entry gives back the symbol and its length; and every window
    starts with the code of exactly one used symbol: the codes are a
    complete prefix code. *)
Theorem lookup_slots (ctx_data : list Z) (ctx_len : Z) (lookup : list (list Z))
    (i : nat) :
  huffv_decompress_init ctx_data ctx_len = Some lookup ->
  (i < 3)%nat ->
  Forall (fun b => 0 <= b) ctx_data ->
  stored_length (sctx_at ctx_data i) 0 <> 0 ->
  let c := sctx_at ctx_data i in
  let codes := nth i lookup [] in
  (forall sym j, used c sym -> (j < 256)%nat ->
     (code_slots c sym j <-> nth j codes 0 = entry_of c sym) /\
     Z.shiftr (entry_of c sym) 4 = Z.of_nat sym /\
     Z.land (entry_of c sym) 0xF = stored_length c sym) /\
  (forall j, (j < 256)%nat ->
     exists sym, used c sym /\ code_slots c sym j /\
       forall sym', used c sym' -> code_slots c sym' j -> sym' = sym).
Proof.
  intros Hinit Hi Hbytes Hzero c codes.
  pose proof (init_tables _ _ _ i Hinit Hi) as Hb. fold c codes in Hb.
  assert (Hvals : forall sym, 0 <= nth sym (values c) 0).
  { intros sym. unfold c, sctx_at. simpl. apply nth_sub_nonneg, Hbytes. }
  pose proof Hb as Hb0.
  unfold build_lookup in Hb.
  apply bind_Some in Hb as (codes0 & Hfold & Hb).
  apply bind_Some in Hb as (u & Hnz & Hb). injection Hb as Hb.
  rewrite Hb in *. clear Hb codes0.
  apply (add_symbols_exact c Hzero Hvals 16 0 (repeat 0 256)) in Hfold; [|lia|].
  2:{ split; [reflexivity|]. split; [intros; lia|].
      intros j Hj. split; [left; apply nth_repeat | intros; lia]. }
  destruct Hfold as (Hlen & Hle & Hent).
  assert (Hfields : forall sym, used c sym ->
            Z.shiftr (entry_of c sym) 4 = Z.of_nat sym /\
            Z.land (entry_of c sym) 0xF = stored_length c sym).
  { intros sym Hu. pose proof (stored_length_range c sym).
    destruct (entry_fields sym (stored_length c sym)) as [A B];
      [apply Hu | pose proof (Hle sym ltac:(apply Hu) Hu); lia |].
    split; assumption. }
  split.
  - intros sym j Hu Hj. split; [|apply Hfields, Hu].
    apply (Hent j Hj); [apply Hu | exact Hu].
  - intros j Hj.
    destruct (build_lookup_entries _ _ _ Hb0) as [_ He].
    destruct (He j Hj) as [Hne _]. fold codes in Hne.
    destruct (Hent j Hj) as [[A|(sym & Hs & Hu & A)] B]; [contradiction|].
    exists sym. split; [exact Hu|]. split.
    + apply B; assumption.
    + intros sym' Hu' Hc'. apply B in Hc'; [|apply Hu'|exact Hu'].
      apply (entry_inj c sym' sym); try congruence;
        try apply Hu'; try apply Hu; apply Hle; (apply Hu' || apply Hu || assumption).
Qed.

Lemma lookup_slots_witness :
  match huffv_decompress_init coin_data HUFF_CONTEXT_LEN with
  | Some lookup =>
      let c := sctx_at coin_data 0 in
      let codes := nth 0 lookup [] in
      (forall sym j, used c sym -> (j < 256)%nat ->
         (code_slots c sym j <-> nth j codes 0 = entry_of c sym) /\
         Z.shiftr (entry_of c sym) 4 = Z.of_nat sym /\
         Z.land (entry_of c sym) 0xF = stored_length c sym) /\
      (forall j, (j < 256)%nat ->
         exists sym, used c sym /\ code_slots c sym j /\
           forall sym', used c sym' -> code_slots c sym' j -> sym' = sym)
  | None => False
  end.
Proof.
  destruct (huffv_decompress_init coin_data HUFF_CONTEXT_LEN) as [lookup|] eqn:E.
  - apply (lookup_slots coin_data HUFF_CONTEXT_LEN lookup 0 E).
    + lia.
    + unfold coin_data. cbn [repeat concat lengths values coin app].
      repeat (constructor; [lia|]). constructor.
    + vm_compute. discriminate.
  - vm_compute in E. discriminate.
Defined.

Lemma drain_out fuel output_len : forall w w',
  out_ok output_len w -> drain fuel output_len w = Some w' -> out_ok output_len w'.
Proof.
  induction fuel as [|fuel IH]; intros w w' Hok H; simpl in H.
  - destruct (bit_pos w >=? 8); [discriminate|]. injection H as <-. exact Hok.
  - destruct (bit_pos w >=? 8).
    + apply bind_Some in H as (u & Hu & H). apply assertf_Some, Z.ltb_lt in Hu.
      apply IH in H; [exact H|]. destruct Hok as [_ Hb]. split; simpl.
      * rewrite length_app. simpl. lia.
      * apply Forall_app. split; [exact Hb|]. constructor; [|constructor].
        unfold to_uint. apply Z.mod_pos_bound. lia.
    + injection H as <-. exact Hok.
Qed.

Lemma put_code_out k w w' : put_code k w = Some w' -> out w' = out w.
Proof.
  unfold put_code. intros H. apply bind_Some in H as (u & _ & H).
  injection H as <-. reflexivity.
Qed.

Lemma encode_frame_out ctx output_len frame w w' :
  out_ok output_len w ->
  encode_frame ctx output_len frame w = Some w' -> out_ok output_len w'.
Proof.
  unfold encode_frame. generalize (seq 0 9). intros l. revert w.
  induction l as [|j l IH]; intros w Hok H; cbn [foldl] in H.
  - injection H as <-. exact Hok.
  - match type of H with foldl _ ?o _ = _ => destruct o as [w1|] eqn:E end.
    + apply (IH w1); [|exact H].
      cbn [mbind option_bind] in E.
      apply bind_Some in E as (u1 & _ & E). apply bind_Some in E as (u2 & _ & E).
      apply bind_Some in E as (wa & Ha & E). apply bind_Some in E as (wb & Hb & E).
      apply put_code_out in Ha, Hb.
      eapply drain_out; [|exact E].
      unfold out_ok. rewrite Hb, Ha. exact Hok.
    + exfalso. clear -H. induction l as [|a l IHl]; cbn [foldl] in H;
        [discriminate | apply IHl; exact H].
Qed.

Lemma encode_frames_out n ctx output_len : forall input w w',
  out_ok output_len w ->
  encode_frames n ctx output_len input w = Some w' -> out_ok output_len w'.
Proof.
  induction n as [|n IH]; intros input w w' Hok H; cbn [encode_frames] in H.
  - injection H as <-. exact Hok.
  - apply bind_Some in H as (w1 & H1 & H).
    eapply IH; [|exact H]. eapply encode_frame_out; eassumption.
Qed.

Lemma mapM_Forall {A B} (f : A -> option B) (P : B -> Prop) (l : list A) (k : list B) :
  (forall x y, f x = Some y -> P y) -> mapM f l = Some k -> Forall P k.
Proof.
  intros Hf H. apply mapM_Some in H.
  induction H; constructor; eauto.
Qed.

Lemma serialize_context_bytes codes sc :
  serialize_context codes = Some sc -> Forall (fun b => 0 <= b < 256) sc.
Proof.
  unfold serialize_context. intros H.
  apply bind_Some in H as (lens & Hl & H). apply bind_Some in H as (vals & Hv & H).
  injection H as <-. apply Forall_app. split.
  - apply (mapM_Forall _ _ _ _) with (2 := Hl). intros j y Hy.
    apply bind_Some in Hy as (u1 & _ & Hy). apply bind_Some in Hy as (u2 & _ & Hy).
    injection Hy as <-. unfold to_uint. apply Z.mod_pos_bound. lia.
  - apply (mapM_Forall _ _ _ _) with (2 := Hv). intros j y Hy.
    apply bind_Some in Hy as (u1 & _ & Hy).
    injection Hy as <-. unfold to_uint. apply Z.mod_pos_bound. lia.
Qed.

(** X8.  [huffv_compress] stays inside its two output buffers: what it
    returns is at most [output_len] bytes of stream and exactly
    [outctxlen] bytes of contexts, each of them a byte. *)
Theorem huffv_compress_bounds (input_data : list Z) (output_len outctxlen : Z)
    (output outctx : list Z) :
  0 <= output_len ->
  huffv_compress input_data output_len outctxlen = Some (output, outctx) ->
  Z.of_nat (List.length output) <= output_len /\
  Z.of_nat (List.length outctx) = outctxlen /\
  Forall (fun b => 0 <= b < 256) output /\
  Forall (fun b => 0 <= b < 256) outctx.
Proof.
  intros Hlen H. unfold huffv_compress in H.
  apply bind_Some in H as (u0 & _ & H).
  apply bind_Some in H as (freq & _ & H).
  apply bind_Some in H as (ctx & _ & H).
  apply bind_Some in H as (sctx & Hs & H).
  apply bind_Some in H as (u1 & Hu1 & H). apply assertf_Some, Z.eqb_eq in Hu1.
  apply bind_Some in H as (u2 & _ & H).
  apply bind_Some in H as (w & Hw & H).
  apply bind_Some in H as (w2 & Hw2 & H). injection H as <- <-.
  apply encode_frames_out in Hw; [|split; [simpl; lia | constructor]].
  assert (Hok2 : out_ok output_len w2).
  { destruct (bit_pos w >? 0).
    - apply bind_Some in Hw2 as (a & Ha & Hw2). apply assertf_Some, Z.ltb_lt in Ha.
      apply bind_Some in Hw2 as (b & _ & Hw2). injection Hw2 as <-.
      destruct Hw as [_ Hb]. split; simpl.
      + rewrite length_app. simpl. lia.
      + apply Forall_app. split; [exact Hb|]. constructor; [|constructor].
        unfold to_uint. apply Z.mod_pos_bound. lia.
    - injection Hw2 as <-. exact Hw. }
  destruct Hok2 as [A B]. split; [exact A|]. split; [exact Hu1|]. split; [exact B|].
  apply Forall_concat.
  apply (mapM_Forall _ _ _ _) with (2 := Hs). intros x y. apply serialize_context_bytes.
Qed.

Lemma huffv_compress_bounds_witness :
  match huffv_compress [0x12; 0x34; 0x56; 0x78; 0x9A; 0xBC; 0xDE; 0xF0; 0x11] 9
          HUFF_CONTEXT_LEN with
  | Some (output, outctx) =>
      Z.of_nat (List.length output) <= 9 /\
      Z.of_nat (List.length outctx) = HUFF_CONTEXT_LEN /\
      Forall (fun b => 0 <= b < 256) output /\
      Forall (fun b => 0 <= b < 256) outctx
  | None => False
  end.
Proof.
  destruct (huffv_compress [0x12; 0x34; 0x56; 0x78; 0x9A; 0xBC; 0xDE; 0xF0; 0x11] 9
              HUFF_CONTEXT_LEN) as [[output outctx]|] eqn:E.
  - apply (huffv_compress_bounds [0x12; 0x34; 0x56; 0x78; 0x9A; 0xBC; 0xDE; 0xF0; 0x11]
             9 HUFF_CONTEXT_LEN output outctx); [lia | exact E].
  - vm_compute in E. discriminate.
Defined.

Lemma insert_node_perm x l : insert_node x l ≡ₚ x :: l.
Proof.
  induction l as [|y l IH]; simpl; [reflexivity|].
  destruct (compare_freq x y <=? 0); [reflexivity|].
  rewrite IH. apply Permutation_swap.
Qed.

Lemma qsort_perm l : qsort l ≡ₚ l.
Proof.
  unfold qsort. induction l as [|x l IH]; simpl; [reflexivity|].
  rewrite insert_node_perm, IH. reflexivity.
Qed.

Lemma sumZ_acc l : forall a, fold_left Z.add l a = a + sumZ l.
Proof.
  unfold sumZ. induction l as [|x l IH]; intros a; cbn [fold_left]; [lia|].
  rewrite (IH (a + x)), (IH (0 + x)). lia.
Qed.

Lemma sumZ_cons x l : sumZ (x :: l) = x + sumZ l.
Proof. unfold sumZ at 1. simpl. apply sumZ_acc. Qed.

Lemma sumZ_app l1 l2 : sumZ (l1 ++ l2) = sumZ l1 + sumZ l2.
Proof.
  induction l1 as [|x l1 IH]; simpl; [reflexivity|].
  rewrite !sumZ_cons, IH. lia.
Qed.

Lemma sumZ_perm l1 l2 : l1 ≡ₚ l2 -> sumZ l1 = sumZ l2.
Proof.
  induction 1; rewrite ?sumZ_cons; lia.
Qed.

Lemma heap_leaves_perm h1 h2 : h1 ≡ₚ h2 -> heap_leaves h1 ≡ₚ heap_leaves h2.
Proof.
  unfold heap_leaves. induction 1; simpl.
  - reflexivity.
  - rewrite IHPermutation. reflexivity.
  - rewrite !app_assoc. apply Permutation_app_tail, Permutation_app_comm.
  - etransitivity; eassumption.
Qed.

Lemma heap_weight_perm h1 h2 : h1 ≡ₚ h2 -> heap_weight h1 = heap_weight h2.
Proof. intros H. unfold heap_weight. apply sumZ_perm. rewrite H. reflexivity. Qed.

Lemma merge_heap_spec fuel : forall heap,
  heap <> [] -> (List.length heap <= S fuel)%nat -> Forall sums_ok heap ->
  exists root, merge_heap fuel heap = Some root /\
    leaves root ≡ₚ heap_leaves heap /\
    frequency root = heap_weight heap /\ sums_ok root.
Proof.
  induction fuel as [|fuel IH]; intros heap Hne Hlen Hok.
  - destruct heap as [|a [|b heap]]; [congruence| |simpl in Hlen; lia].
    exists a. split; [reflexivity|]. unfold heap_leaves, heap_weight. simpl.
    rewrite app_nil_r. split; [reflexivity|]. split; [unfold sumZ; simpl; lia|].
    inversion Hok; assumption.
  - destruct heap as [|a [|b heap]]; [congruence| |].
    + exists a. split; [reflexivity|]. unfold heap_leaves, heap_weight. simpl.
      rewrite app_nil_r. split; [reflexivity|]. split; [unfold sumZ; simpl; lia|].
      inversion Hok; assumption.
    + cbn [merge_heap].
      set (parent := Parent (frequency a + frequency b) a b).
      assert (Hp : qsort (heap ++ [parent]) ≡ₚ heap ++ [parent]) by apply qsort_perm.
      destruct (IH (qsort (heap ++ [parent]))) as (root & Hr & Hl & Hw & Hs).
      * intros E. rewrite E in Hp. apply Permutation_nil_l in Hp.
        destruct heap; discriminate.
      * rewrite Hp, length_app. simpl in *. lia.
      * rewrite Hp. apply Forall_app. 
        inversion Hok as [|? ? Ha Hok1]; subst. inversion Hok1 as [|? ? Hb Hok2]; subst.
        split; [exact Hok2|]. constructor; [|constructor]. simpl. auto.
      * exists root. split; [exact Hr|]. split; [|split; [|exact Hs]].
        -- rewrite Hl, (heap_leaves_perm _ _ Hp).
           unfold heap_leaves. rewrite flat_map_app. simpl. rewrite app_nil_r.
           rewrite Permutation_app_comm, <- app_assoc. reflexivity.
        -- rewrite Hw, (heap_weight_perm _ _ Hp).
           unfold heap_weight. rewrite !map_app, sumZ_app. simpl.
           rewrite !sumZ_cons. unfold sumZ at 2. simpl. lia.
Qed.

Lemma start_heap_leaves (l : list (nat * Z)) :
  heap_leaves (omap (fun '(i, f) => if f =? 0 then None else Some (Leaf (Z.of_nat i) f)) l)
  = omap (fun '(i, f) => if f =? 0 then None else Some (Z.of_nat i, f)) l.
Proof.
  unfold heap_leaves. induction l as [|[i f] l IH]; simpl; [reflexivity|].
  destruct (f =? 0); simpl; [exact IH | f_equal; exact IH].
Qed.

Lemma start_heap_weight (l : list (nat * Z)) :
  heap_weight (omap (fun '(i, f) => if f =? 0 then None else Some (Leaf (Z.of_nat i) f)) l)
  = sumZ (map snd l).
Proof.
  unfold heap_weight. induction l as [|[i f] l IH]; cbn -[sumZ]; [reflexivity|].
  rewrite sumZ_cons. destruct (Z.eqb_spec f 0); cbn -[sumZ].
  - rewrite IH. lia.
  - rewrite sumZ_cons, IH. reflexivity.
Qed.

Lemma start_heap_ok (l : list (nat * Z)) :
  Forall sums_ok
    (omap (fun '(i, f) => if f =? 0 then None else Some (Leaf (Z.of_nat i) f)) l).
Proof.
  induction l as [|[i f] l IH]; simpl; [constructor|].
  destruct (f =? 0); simpl; [exact IH | constructor; [exact I | exact IH]].
Qed.

Lemma start_heap_nil (l : list (nat * Z)) :
  omap (fun '(i, f) => if f =? 0 then None else Some (Leaf (Z.of_nat i) f)) l = []
  <-> Forall (fun f => f = 0) (map snd l).
Proof.
  induction l as [|[i f] l IH]; simpl.
  - split; [constructor | reflexivity].
  - destruct (Z.eqb_spec f 0); simpl.
    + rewrite IH. split; [intros; constructor; assumption | intros H; inversion H; assumption].
    + split; [discriminate | intros H; inversion H; contradiction].
Qed.

Lemma snd_imap (fr : list Z) : map snd (imap (fun i f => (i, f)) fr) = fr.
Proof.
  apply list_eq. intros i.
  change (map snd) with (fmap (M := list) (@snd nat Z)).
  rewrite list_lookup_fmap, list_lookup_imap.
  destruct (fr !! i); reflexivity.
Qed.

(** X9.  The tree [build_huffman_tree] returns has one leaf for each symbol
    of non-zero frequency, with that frequency, and no other leaf; every
    inner node carries the sum of its children, so the root carries the
    sum of all the frequencies.  It returns no tree (in C, an
    uninitialised pointer) exactly when every frequency is zero. *)
Theorem huffman_tree_leaves (frequencies : list Z) :
  (build_huffman_tree frequencies = None <-> Forall (fun f => f = 0) frequencies) /\
  forall root, build_huffman_tree frequencies = Some root ->
    leaves root ≡ₚ occurring frequencies /\
    frequency root = sumZ frequencies /\
    sums_ok root.
Proof.
  unfold build_huffman_tree, occurring.
  set (l := imap (fun i f => (i, f)) frequencies).
  set (heap := omap _ l).
  assert (Hq : qsort heap ≡ₚ heap) by apply qsort_perm.
  assert (Hcase : heap = [] \/
            exists root, merge_heap (List.length heap) (qsort heap) = Some root /\
              leaves root ≡ₚ heap_leaves heap /\
              frequency root = heap_weight heap /\ sums_ok root).
  { destruct heap as [|a heap'] eqn:E; [left; reflexivity|]. right.
    destruct (merge_heap_spec (List.length (a :: heap')) (qsort (a :: heap')))
      as (root & Hr & Hl & Hw & Hs).
    - intros E'. rewrite E' in Hq. apply Permutation_nil_l in Hq. discriminate.
    - rewrite Hq. lia.
    - rewrite Hq. rewrite <- E. apply start_heap_ok.
    - exists root. split; [exact Hr|].
      rewrite Hl, Hw, (heap_leaves_perm _ _ Hq), (heap_weight_perm _ _ Hq). auto. }
  pose proof (start_heap_nil l) as Hnil. fold heap in Hnil.
  unfold l in Hnil at 1. rewrite (snd_imap frequencies) in Hnil.
  split.
  - destruct Hcase as [E|(root & Hr & _)].
    + rewrite E. simpl. split; [intros _; apply Hnil; exact E | reflexivity].
    + rewrite Hr. split; [discriminate|]. intros Hz. apply Hnil in Hz.
      exfalso. rewrite Hz in Hr. simpl in Hr. discriminate.
  - intros root Hroot.
    destruct Hcase as [E|(root' & Hr & Hl & Hw & Hs)].
    + rewrite E in Hroot. simpl in Hroot. discriminate.
    + rewrite Hr in Hroot. injection Hroot as <-.
      split; [|split; [|exact Hs]].
      * rewrite Hl. unfold heap. rewrite start_heap_leaves. reflexivity.
      * rewrite Hw. unfold heap. rewrite start_heap_weight. unfold l.
        rewrite snd_imap. reflexivity.
Qed.

Lemma put_codes_app codes l1 l2 :
  put_codes codes (l1 ++ l2) = put_codes (put_codes codes l1) l2.
Proof. unfold put_codes. apply foldl_app. Qed.

Lemma generate_put root : forall code len codes,
  generate_huffman_codes root code len codes
  = put_codes codes (tree_codes root code len).
Proof.
  induction root as [s f|f lt IHl rt IHr]; intros code len codes; simpl.
  - reflexivity.
  - rewrite put_codes_app, IHl, IHr. reflexivity.
Qed.

Lemma tree_codes_symbols root : forall code len,
  map fst (tree_codes root code len) = map fst (leaves root).
Proof.
  induction root as [s f|f lt IHl rt IHr]; intros code len; simpl.
  - reflexivity.
  - rewrite !map_app, IHl, IHr. reflexivity.
Qed.

Lemma lor_bit code b :
  0 <= code -> b = 0 \/ b = 1 -> Z.lor (Z.shiftl code 1) b = 2 * code + b.
Proof.
  intros Hc [-> | ->].
  - rewrite Z.lor_0_r, Z.shiftl_mul_pow2 by lia. lia.
  - rewrite Z.shiftl_mul_pow2 by lia. change (2 ^ 1) with 2.
    assert (Hl : Z.land (code * 2) 1 = 0)
      by (rewrite land_1_mod2; apply Z.mod_mul; lia).
    rewrite <- (Z.lxor_lor _ _ Hl), <- (Z.add_nocarry_lxor _ _ Hl). lia.
Qed.

(** Every code below a node extends the code of the node. *)
Lemma tree_codes_extend root : forall code len s k,
  0 <= code < 2 ^ len -> 0 <= len ->
  In (s, k) (tree_codes root code len) ->
  code_prefix (mk_code code len) k /\ 0 <= value k < 2 ^ length k.
Proof.
  induction root as [s0 f|f lt IHl rt IHr]; intros code len s k Hc Hl Hin; simpl in Hin.
  - destruct Hin as [E|[]]. injection E as <- <-.
    unfold code_prefix; simpl. rewrite Z.sub_diag, Z.shiftr_0_r. repeat split; lia.
  - assert (Hstep : forall b child, b = 0 \/ b = 1 ->
              (forall code len s k, 0 <= code < 2 ^ len -> 0 <= len ->
                 In (s, k) (tree_codes child code len) ->
                 code_prefix (mk_code code len) k /\ 0 <= value k < 2 ^ length k) ->
              In (s, k) (tree_codes child (Z.lor (Z.shiftl code 1) b) (len + 1)) ->
              code_prefix (mk_code code len) k /\ 0 <= value k < 2 ^ length k).
    { intros b child Hb IH Hk. rewrite lor_bit in Hk by (lia || assumption).
      apply IH in Hk as [[A B] C].
      2:{ rewrite Z.pow_add_r by lia. change (2 ^ 1) with 2. lia. }
      2:{ lia. }
      simpl in A, B.
      split; [|exact C]. unfold code_prefix; simpl. split; [lia|].
      replace (length k - len) with (length k - (len + 1) + 1) by lia.
      rewrite <- Z.shiftr_shiftr by lia. rewrite B.
      rewrite Z.shiftr_div_pow2 by lia. change (2 ^ 1) with 2.
      destruct Hb as [-> | ->]; Z.div_mod_to_equations; lia. }
    apply in_app_or in Hin as [Hin|Hin].
    + apply (Hstep 0 lt); auto.
    + apply (Hstep 1 rt); auto.
Qed.

Lemma code_prefix_trans k1 k2 k3 :
  0 <= length k1 -> code_prefix k1 k2 -> code_prefix k2 k3 -> code_prefix k1 k3.
Proof.
  intros H0 [A B] [C D]. split; [lia|].
  replace (length k3 - length k1) with (length k3 - length k2 + (length k2 - length k1)) by lia.
  rewrite <- Z.shiftr_shiftr by lia. rewrite D. exact B.
Qed.

Lemma tree_codes_prefix_free root : forall code len s1 k1 s2 k2,
  0 <= code < 2 ^ len -> 0 <= len ->
  NoDup (map fst (leaves root)) ->
  In (s1, k1) (tree_codes root code len) ->
  In (s2, k2) (tree_codes root code len) ->
  s1 <> s2 -> ~ code_prefix k1 k2.
Proof.
  induction root as [s0 f|f lt IHl rt IHr];
    intros code len s1 k1 s2 k2 Hc Hl Hnd H1 H2 Hne; simpl in H1, H2.
  - destruct H1 as [E1|[]], H2 as [E2|[]]. congruence.
  - simpl in Hnd. rewrite map_app in Hnd.
    apply NoDup_app in Hnd as (Hndl & Hdis & Hndr).
    assert (Hc0 : 0 <= 2 * code + 0 < 2 ^ (len + 1))
      by (rewrite Z.pow_add_r by lia; change (2 ^ 1) with 2; lia).
    assert (Hc1 : 0 <= 2 * code + 1 < 2 ^ (len + 1))
      by (rewrite Z.pow_add_r by lia; change (2 ^ 1) with 2; lia).
    rewrite (lor_bit code 0) in H1, H2 by lia.
    rewrite (lor_bit code 1) in H1, H2 by lia.
    assert (Hcross : forall ka kb sa sb,
              In (sa, ka) (tree_codes lt (2 * code + 0) (len + 1)) ->
              In (sb, kb) (tree_codes rt (2 * code + 1) (len + 1)) ->
              ~ code_prefix ka kb /\ ~ code_prefix kb ka).
    { intros ka kb sa sb Ha Hb.
      apply tree_codes_extend in Ha as [Pa _]; [|lia..].
      apply tree_codes_extend in Hb as [Pb _]; [|lia..].
      split; intros P.
      - assert (H0 : 0 <= length (mk_code (2 * code + 0) (len + 1))) by (simpl; lia).
        pose proof (code_prefix_trans _ _ _ H0 Pa P) as [_ Q].
        destruct Pb as [_ Q']. simpl in Q, Q'. lia.
      - assert (H0 : 0 <= length (mk_code (2 * code + 1) (len + 1))) by (simpl; lia).
        pose proof (code_prefix_trans _ _ _ H0 Pb P) as [_ Q].
        destruct Pa as [_ Q']. simpl in Q, Q'. lia. }
    apply in_app_or in H1 as [H1|H1]; apply in_app_or in H2 as [H2|H2].
    + apply (IHl _ _ s1 k1 s2 k2 Hc0); auto; lia.
    + apply (Hcross k1 k2 s1 s2); assumption.
    + apply (Hcross k2 k1 s2 s1); assumption.
    + apply (IHr _ _ s1 k1 s2 k2 Hc1); auto; lia.
Qed.

Lemma put_codes_length l : forall codes,
  List.length (put_codes codes l) = List.length codes.
Proof.
  induction l as [|[s k] l IH]; intros codes; [reflexivity|].
  unfold put_codes in *. cbn [foldl]. rewrite IH. apply length_insert.
Qed.

Lemma put_codes_other l : forall codes (n : nat),
  (forall s k, In (s, k) l -> Z.to_nat s <> n) ->
  put_codes codes l !! n = codes !! n.
Proof.
  induction l as [|[s k] l IH]; intros codes n Hn; [reflexivity|].
  unfold put_codes in *. cbn [foldl]. rewrite IH.
  - apply list_lookup_insert_ne. apply (Hn s k). left; reflexivity.
  - intros s' k' Hin. apply (Hn s' k'). right; exact Hin.
Qed.

Lemma put_codes_at l : forall codes s k,
  NoDup (map (fun p => Z.to_nat (fst p)) l) ->
  In (s, k) l -> (Z.to_nat s < List.length codes)%nat ->
  put_codes codes l !! Z.to_nat s = Some k.
Proof.
  induction l as [|[s0 k0] l IH]; intros codes s k Hnd Hin Hlt; [destruct Hin|].
  simpl in Hnd. apply NoDup_cons in Hnd as [Hnot Hnd].
  change (put_codes codes ((s0, k0) :: l))
    with (put_codes (<[Z.to_nat s0 := k0]> codes) l).
  destruct Hin as [E|Hin].
  - injection E as -> ->. rewrite put_codes_other.
    + apply list_lookup_insert_eq. exact Hlt.
    + intros s' k' Hin' E. apply Hnot. rewrite <- E.
      apply list_elem_of_In. apply (in_map (fun p => Z.to_nat (fst p)) _ (s', k') Hin').
  - apply IH; auto. rewrite length_insert. exact Hlt.
Qed.

Lemma occurring_In (l : list (nat * Z)) s f :
  In (s, f) (omap (fun '(i, f) => if f =? 0 then None else Some (Z.of_nat i, f)) l)
  <-> exists i, s = Z.of_nat i /\ In (i, f) l /\ f <> 0.
Proof.
  induction l as [|[i0 f0] l IH]; simpl.
  - split; [intros [] | intros (i & _ & [] & _)].
  - destruct (Z.eqb_spec f0 0) as [E|E]; simpl.
    + rewrite IH. split.
      * intros (i & ? & ? & ?). exists i. auto.
      * intros (i & ? & [Hh|?] & ?); [congruence|]. exists i. auto.
    + rewrite IH. split.
      * intros [Hh|(i & ? & ? & ?)].
        -- injection Hh as <- <-. exists i0. auto.
        -- exists i. auto.
      * intros (i & -> & [Hh|?] & ?).
        -- injection Hh as -> ->. left; reflexivity.
        -- right. exists i. auto.
Qed.

Lemma imap_In (fr : list Z) i f :
  In (i, f) (imap (fun i f => (i, f)) fr) <-> fr !! i = Some f.
Proof.
  rewrite <- list_elem_of_In, elem_of_lookup_imap. split.
  - intros (j & y & E & Hy). injection E as -> ->. exact Hy.
  - intros H. exists i, f. auto.
Qed.

Lemma occurring_spec fr s f :
  In (s, f) (occurring fr) <-> exists i, s = Z.of_nat i /\ fr !! i = Some f /\ f <> 0.
Proof.
  unfold occurring. rewrite occurring_In. split.
  - intros (i & ? & Hin & ?). apply imap_In in Hin. eauto.
  - intros (i & ? & Hin & ?). apply imap_In in Hin. eauto.
Qed.

Lemma occurring_NoDup fr : NoDup (map (fun p => Z.to_nat (fst p)) (occurring fr)).
Proof.
  unfold occurring.
  assert (H : forall (l : list (nat * Z)), NoDup (map fst l) ->
            NoDup (map (fun p : Z * Z => Z.to_nat (fst p))
                     (omap (fun '(i, f) => if f =? 0 then None else Some (Z.of_nat i, f)) l))).
  { induction l as [|[i0 f0] l IH]; simpl; intros Hnd; [constructor|].
    apply NoDup_cons in Hnd as [Hnot Hnd].
    destruct (f0 =? 0); simpl; [apply IH, Hnd|].
    apply NoDup_cons. split; [|apply IH, Hnd].
    intros Hin. apply Hnot. apply list_elem_of_In in Hin.
    apply in_map_iff in Hin as ([s f] & E & Hin). simpl in E.
    apply occurring_In in Hin as (i & -> & Hin & _).
    rewrite Nat2Z.id in E. subst i. rewrite ?Nat2Z.id in Hin.
    apply list_elem_of_In. apply (in_map fst _ _ Hin). }
  apply H.
  assert (E : map fst (imap (fun (i : nat) (f : Z) => (i, f)) fr) = seq 0 (List.length fr)).
  { apply list_eq. intros i.
    change (map fst) with (fmap (M := list) (@fst nat Z)).
    rewrite list_lookup_fmap, list_lookup_imap.
    destruct (fr !! i) eqn:Ei; simpl.
    - symmetry. apply lookup_seq. split; [reflexivity|]. eapply lookup_lt_Some; eauto.
    - symmetry. apply lookup_ge_None_2. rewrite length_seq.
      apply lookup_ge_None_1 in Ei. exact Ei. }
  rewrite E. apply NoDup_seq.
Qed.

Lemma tree_symbols fr root :
  build_huffman_tree fr = Some root -> leaves root ≡ₚ occurring fr.
Proof.
  unfold build_huffman_tree, occurring.
  set (l := imap (fun i f => (i, f)) fr). set (heap := omap _ l).
  intros H.
  assert (Hq : qsort heap ≡ₚ heap) by apply qsort_perm.
  destruct heap as [|a heap'] eqn:E; [simpl in H; discriminate|].
  destruct (merge_heap_spec (List.length (a :: heap')) (qsort (a :: heap')))
    as (root' & Hr & Hl & _).
  - intros E'. rewrite E' in Hq. apply Permutation_nil_l in Hq. discriminate.
  - rewrite Hq. lia.
  - rewrite Hq. rewrite <- E. apply start_heap_ok.
  - rewrite Hr in H. injection H as <-.
    rewrite Hl, (heap_leaves_perm _ _ Hq), <- E. unfold heap.
    rewrite start_heap_leaves. reflexivity.
Qed.

(** X10.  The codes [generate_huffman_codes] writes for the tree of
    [build_huffman_tree].  Every symbol of non-zero frequency gets a code,
    a value of [length] bits; the entries of the other symbols are left as
    they were; and no code is a prefix of the code of another symbol, so a
    stream of them can be cut in one way only. *)
Theorem huffman_codes_prefix_free (frequencies : list Z) (root : HuffNode)
    (codes0 : list HuffCode) :
  build_huffman_tree frequencies = Some root ->
  List.length codes0 = List.length frequencies ->
  let codes := generate_huffman_codes root 0 0 codes0 in
  List.length codes = List.length frequencies /\
  (forall i : nat, frequencies !! i = Some 0 -> codes !! i = codes0 !! i) /\
  (forall (i : nat) f, frequencies !! i = Some f -> f <> 0 ->
     exists k, codes !! i = Some k /\ 0 <= length k /\ 0 <= value k < 2 ^ length k) /\
  (forall (i j : nat) fi fj ki kj,
     i <> j ->
     frequencies !! i = Some fi -> fi <> 0 ->
     frequencies !! j = Some fj -> fj <> 0 ->
     codes !! i = Some ki -> codes !! j = Some kj ->
     ~ code_prefix ki kj).
Proof.
  intros Hb Hlen codes. subst codes. rewrite generate_put.
  pose proof (tree_symbols _ _ Hb) as Hperm.
  set (l := tree_codes root 0 0).
  assert (Hsym : map fst l = map fst (leaves root)) by apply tree_codes_symbols.
  assert (Hnd : NoDup (map (fun p => Z.to_nat (fst p)) l)).
  { pose proof (occurring_NoDup frequencies) as H.
    rewrite <- (map_map fst Z.to_nat) in H.
    rewrite <- (map_map fst Z.to_nat). rewrite Hsym, Hperm. exact H. }
  assert (Hin : forall s k, In (s, k) l ->
            exists (i : nat) f, s = Z.of_nat i /\ frequencies !! i = Some f /\ f <> 0).
  { intros s k Hk. assert (Hs : In s (map fst (leaves root))).
    { rewrite <- Hsym. apply (in_map fst _ _ Hk). }
    apply in_map_iff in Hs as ([s' f] & E & Hf). simpl in E. subst s'.
    apply list_elem_of_In in Hf. rewrite Hperm in Hf. apply list_elem_of_In in Hf.
    apply occurring_spec in Hf as (i & -> & Hi & Hne). eauto. }
  assert (Hex : forall (i : nat) f, frequencies !! i = Some f -> f <> 0 ->
            exists k, In (Z.of_nat i, k) l).
  { intros i f Hi Hne.
    assert (Hs : In (Z.of_nat i) (map fst l)).
    { rewrite Hsym. apply (in_map fst _ (Z.of_nat i, f)).
      apply list_elem_of_In. rewrite Hperm. apply list_elem_of_In.
      apply occurring_spec. eauto. }
    apply in_map_iff in Hs as ([s k] & E & Hk). simpl in E. subst s. eauto. }
  assert (Hat : forall (i : nat) k, In (Z.of_nat i, k) l ->
            (i < List.length frequencies)%nat ->
            put_codes codes0 l !! i = Some k).
  { intros i k Hk Hi. rewrite <- (Nat2Z.id i) at 1.
    apply put_codes_at; auto. rewrite Nat2Z.id. lia. }
  assert (Hroot : NoDup (map fst (leaves root))).
  { rewrite <- (map_map fst Z.to_nat) in Hnd.
    rewrite Hsym in Hnd. eapply NoDup_fmap_1. exact Hnd. }
  split; [rewrite put_codes_length; exact Hlen|].
  split; [|split].
  - intros i Hi. apply put_codes_other. intros s k Hk E.
    destruct (Hin s k Hk) as (i' & f & -> & Hi' & Hne).
    rewrite Nat2Z.id in E. subst i'. congruence.
  - intros i f Hi Hne. destruct (Hex i f Hi Hne) as [k Hk].
    exists k. split; [apply Hat; [exact Hk | eapply lookup_lt_Some; eauto]|].
    apply tree_codes_extend in Hk as [[A _] B]; [|simpl; lia..].
    simpl in A. split; [lia | exact B].
  - intros i j fi fj ki kj Hij Hi Hfi Hj Hfj Hki Hkj.
    destruct (Hex i fi Hi Hfi) as [ki' Hki'].
    destruct (Hex j fj Hj Hfj) as [kj' Hkj'].
    rewrite (Hat i ki' Hki') in Hki by (eapply lookup_lt_Some; eauto).
    rewrite (Hat j kj' Hkj') in Hkj by (eapply lookup_lt_Some; eauto).
    injection Hki as <-. injection Hkj as <-.
    apply (tree_codes_prefix_free root 0 0 (Z.of_nat i) ki' (Z.of_nat j) kj');
      auto; simpl; lia.
Qed.

Lemma huffman_codes_prefix_free_witness :
  let frequencies := [5; 0; 1; 2] ++ repeat 0 12 in
  let codes0 := repeat (mk_code 0 (-1)) 16 in
  match build_huffman_tree frequencies with
  | Some root =>
      let codes := generate_huffman_codes root 0 0 codes0 in
      List.length codes = List.length frequencies /\
      (forall i : nat, frequencies !! i = Some 0 -> codes !! i = codes0 !! i) /\
      (forall (i : nat) f, frequencies !! i = Some f -> f <> 0 ->
         exists k, codes !! i = Some k /\ 0 <= length k /\ 0 <= value k < 2 ^ length k) /\
      (forall (i j : nat) fi fj ki kj,
         i <> j ->
         frequencies !! i = Some fi -> fi <> 0 ->
         frequencies !! j = Some fj -> fj <> 0 ->
         codes !! i = Some ki -> codes !! j = Some kj ->
         ~ code_prefix ki kj)
  | None => False
  end.
Proof.
  cbv zeta.
  destruct (build_huffman_tree ([5; 0; 1; 2] ++ repeat 0 12)) as [root|] eqn:E.
  - apply (huffman_codes_prefix_free ([5; 0; 1; 2] ++ repeat 0 12) root
             (repeat (mk_code 0 (-1)) 16) E). reflexivity.
  - vm_compute in E. discriminate.
Defined.

End HuffFacts.

(** ** Placeholders *)

Module BinoutFacts.
Import Binout.

(** *** A 64-bit placeholder set after it was emitted *)

(** C8 at that input: the 32-, 16- and 8-bit placeholders hold the offset
    15, and so does the 64-bit one emitted after the set; the 64-bit
    placeholder emitted before the set was patched by [w32_at], in its
    first four bytes only, and reads [15 * 2^32]. *)
Theorem placeholder64_patched_as_32 :
  option_map (fun s => field (file s) 0 64) all_widths
    = Some [0; 0; 0; 15; 0; 0; 0; 0] /\
  be_value [0; 0; 0; 15; 0; 0; 0; 0] = 15 * 2 ^ 32 /\
  option_map (fun s => be_value (field (file s) 8 32)) all_widths = Some 15 /\
  option_map (fun s => be_value (field (file s) 12 16)) all_widths = Some 15 /\
  option_map (fun s => be_value (field (file s) 14 8)) all_widths = Some 15 /\
  option_map (fun s => be_value (field (file s) 15 64)) all_widths = Some 15.
Proof. vm_compute. repeat split; reflexivity. Qed.

(** *** Further properties *)

Lemma fputc_pos v f : fpos (fputc v f) = fpos f + 1.
Proof. reflexivity. Qed.

Lemma fputc_length v f :
  List.length (data (fputc v f))
  = Nat.max (List.length (data f)) (S (Z.to_nat (fpos f))).
Proof.
  unfold fputc; simpl.
  destruct (Nat.ltb_spec (Z.to_nat (fpos f)) (List.length (data f))).
  - rewrite length_insert. lia.
  - rewrite !length_app, repeat_length. simpl. lia.
Qed.

Lemma lookup_repeat {A} (x : A) n (i : nat) :
  (i < n)%nat -> repeat x n !! i = Some x.
Proof.
  revert i; induction n as [|n IH]; intros [|i] Hi; simpl; try lia; auto.
  apply IH. lia.
Qed.

Lemma fputc_lookup v f (i : nat) :
  data (fputc v f) !! i =
    if decide (i = Z.to_nat (fpos f)) then Some v
    else if decide (i < List.length (data f))%nat then data f !! i
    else if decide (i < Z.to_nat (fpos f))%nat then Some 0 else None.
Proof.
  unfold fputc; simpl.
  destruct (Nat.ltb_spec (Z.to_nat (fpos f)) (List.length (data f))).
  - destruct (decide (i = Z.to_nat (fpos f))) as [->|Hne].
    + apply list_lookup_insert_eq. lia.
    + rewrite list_lookup_insert_ne by congruence.
      destruct (decide (i < List.length (data f))%nat); [reflexivity|].
      rewrite lookup_ge_None_2 by lia.
      destruct (decide (i < Z.to_nat (fpos f))%nat); [lia | reflexivity].
  - destruct (decide (i = Z.to_nat (fpos f))) as [->|Hne].
    + rewrite lookup_app_r by lia.
      rewrite lookup_app_r by (rewrite repeat_length; lia).
      rewrite repeat_length.
      replace (_ - _ - _)%nat with 0%nat by lia. reflexivity.
    + destruct (decide (i < List.length (data f))%nat).
      * apply lookup_app_l. lia.
      * rewrite lookup_app_r by lia.
        destruct (decide (i < Z.to_nat (fpos f))%nat).
        -- rewrite lookup_app_l by (rewrite repeat_length; lia).
           apply lookup_repeat. lia.
        -- apply lookup_ge_None_2. rewrite length_app, repeat_length. simpl. lia.
Qed.

Lemma put_bytes_pos bs : forall f, fpos (put_bytes f bs) = fpos f + Z.of_nat (List.length bs).
Proof.
  induction bs as [|b bs IH]; intros f; simpl.
  - lia.
  - unfold put_bytes in *. simpl. rewrite IH, fputc_pos. lia.
Qed.

Lemma put_bytes_cons f b bs : put_bytes f (b :: bs) = put_bytes (fputc b f) bs.
Proof. reflexivity. Qed.

Lemma put_bytes_length bs : forall b f,
  0 <= fpos f ->
  List.length (data (put_bytes f (b :: bs)))
  = Nat.max (List.length (data f)) (Z.to_nat (fpos f) + S (List.length bs)).
Proof.
  induction bs as [|b' bs IH]; intros b f Hp; rewrite put_bytes_cons.
  - unfold put_bytes; cbn [foldl]. rewrite fputc_length. simpl List.length. lia.
  - rewrite IH by (rewrite fputc_pos; lia).
    rewrite fputc_length, fputc_pos. simpl List.length. lia.
Qed.

Lemma put_bytes_lookup bs : forall f (i : nat),
  0 <= fpos f ->
  data (put_bytes f bs) !! i =
    if decide (Z.to_nat (fpos f) <= i < Z.to_nat (fpos f) + List.length bs)%nat
    then bs !! (i - Z.to_nat (fpos f))%nat
    else if decide (i < List.length (data f))%nat then data f !! i
    else if decide (i < Z.to_nat (fpos f) /\ bs <> [])%nat then Some 0 else None.
Proof.
  induction bs as [|b bs IH]; intros f i Hp.
  - simpl. destruct (decide _) as [?|_]; [lia|].
    destruct (decide _) as [?|?]; [reflexivity|].
    destruct (decide _) as [[_ ?]|_]; [congruence|].
    apply lookup_ge_None_2. lia.
  - rewrite put_bytes_cons, IH by (rewrite fputc_pos; lia).
    rewrite fputc_pos, fputc_lookup, fputc_length. simpl List.length.
    replace (Z.to_nat (fpos f + 1)) with (S (Z.to_nat (fpos f))) by lia.
    repeat (destruct (decide _)); try lia; try reflexivity;
      try (exfalso; intuition (lia || congruence)).
    + replace (i - Z.to_nat (fpos f))%nat with (S (i - S (Z.to_nat (fpos f)))) by lia.
      reflexivity.
    + subst i. rewrite Nat.sub_diag. reflexivity.
Qed.

Lemma field_put_bytes f bs :
  0 <= fpos f ->
  take (List.length bs) (drop (Z.to_nat (fpos f)) (data (put_bytes f bs))) = bs.
Proof.
  intros Hp. apply list_eq. intros i.
  destruct (decide (i < List.length bs)%nat) as [Hi|Hi].
  - rewrite lookup_take_lt by lia. rewrite lookup_drop, put_bytes_lookup by lia.
    destruct (decide _) as [_|?]; [|lia].
    f_equal. lia.
  - rewrite lookup_take_ge by lia. symmetry. apply lookup_ge_None_2. lia.
Qed.

Lemma shiftr_ext v t : 0 < t -> Z.shiftr (Z.shiftr v (t - 1)) 1 = v / 2 ^ t.
Proof.
  intros Ht. rewrite Z.shiftr_shiftr by lia.
  replace (t - 1 + 1) with t by lia. apply Z.shiftr_div_pow2. lia.
Qed.

(** X11.  [_wconv] accepts exactly the values whose bits above the type are a
    sign extension. *)
Theorem wconv_range (tbits vbits v : Z) :
  0 < tbits < vbits ->
  (is_Some (wconv tbits vbits v) <-> - 2 ^ tbits <= v < 2 ^ tbits) /\
  (forall r, wconv tbits vbits v = Some r -> r = v mod 2 ^ tbits /\ 0 <= r < 2 ^ tbits).
Proof.
  intros [Ht Hv]. unfold wconv.
  destruct (Z.ltb_spec tbits vbits) as [_|?]; [|lia].
  rewrite shiftr_ext by lia.
  assert (Hpow : 0 < 2 ^ tbits) by (apply Z.pow_pos_nonneg; lia).
  split.
  - destruct (Z.eqb_spec (v / 2 ^ tbits) 0) as [E|E]; simpl.
    + split; [intros _ | intros _; eexists; reflexivity].
      apply Z.div_small_iff in E; lia.
    + destruct (Z.eqb_spec (v / 2 ^ tbits) (-1)) as [E1|E1]; simpl.
      * split; [intros _ | intros _; eexists; reflexivity].
        pose proof (Z.mod_pos_bound v (2 ^ tbits) Hpow).
        pose proof (Z.div_mod v (2 ^ tbits) ltac:(lia)). nia.
      * split; [intros [? ?]; discriminate|].
        intros [Hlo Hhi]. exfalso.
        destruct (Z_lt_le_dec v 0).
        -- apply E1. symmetry. apply (Z.div_unique v (2 ^ tbits) (-1) (v + 2 ^ tbits)); lia.
        -- apply E. apply Z.div_small. lia.
  - intros r H.
    assert (r = to_uint tbits v) as ->.
    { destruct (assertf _) in H; simpl in H; congruence. }
    unfold to_uint. split; [reflexivity|]. apply Z.mod_pos_bound. lia.
Qed.

Lemma wconv_fits bits vbits v :
  0 < bits -> 0 <= v < 2 ^ bits -> wconv bits vbits v = Some v.
Proof.
  intros Hb Hv. unfold wconv.
  rewrite shiftr_ext by lia. rewrite Z.div_small by lia. simpl.
  destruct (bits <? vbits); simpl; unfold to_uint; rewrite Z.mod_small by lia; reflexivity.
Qed.

Ltac bytes_arith :=
  rewrite ?Z.shiftr_div_pow2 by lia;
  change 0xff with (Z.ones 8); change 0xffff with (Z.ones 16);
  change 0xffffffff with (Z.ones 32);
  rewrite ?Z.land_ones by lia;
  change (2 ^ 8) with 256 in *; change (2 ^ 16) with 65536 in *;
  change (2 ^ 32) with 4294967296 in *;
  change (2 ^ 64) with 18446744073709551616 in *;
  Z.div_mod_to_equations; lia.

Lemma _w_put_bytes bits f v :
  bits = 8 \/ bits = 16 \/ bits = 32 \/ bits = 64 ->
  0 <= v < 2 ^ bits ->
  exists bs, _w bits f v = put_bytes f bs /\
    List.length bs = Z.to_nat (bits / 8) /\
    be_value bs = v /\ Forall (fun b => 0 <= b < 256) bs.
Proof.
  intros [-> | [-> | [-> | ->]]] Hv.
  - exists [v]. split; [reflexivity|split; [reflexivity|split]].
    + unfold be_value; simpl. lia.
    + repeat constructor; lia.
  - exists [Z.shiftr v 8; Z.land v 0xff]. split; [reflexivity|split; [reflexivity|split]].
    + unfold be_value; simpl. bytes_arith.
    + repeat constructor; bytes_arith.
  - exists [Z.shiftr (Z.shiftr v 16) 8; Z.land (Z.shiftr v 16) 0xff;
            Z.shiftr (Z.land v 0xffff) 8; Z.land (Z.land v 0xffff) 0xff].
    split; [reflexivity|split; [reflexivity|split]].
    + unfold be_value; simpl. bytes_arith.
    + repeat constructor; bytes_arith.
  - exists [Z.shiftr (Z.shiftr (Z.shiftr v 32) 16) 8;
            Z.land (Z.shiftr (Z.shiftr v 32) 16) 0xff;
            Z.shiftr (Z.land (Z.shiftr v 32) 0xffff) 8;
            Z.land (Z.land (Z.shiftr v 32) 0xffff) 0xff;
            Z.shiftr (Z.shiftr (Z.land v 0xffffffff) 16) 8;
            Z.land (Z.shiftr (Z.land v 0xffffffff) 16) 0xff;
            Z.shiftr (Z.land (Z.land v 0xffffffff) 0xffff) 8;
            Z.land (Z.land (Z.land v 0xffffffff) 0xffff) 0xff].
    split; [reflexivity|split; [reflexivity|split]].
    + unfold be_value; simpl. bytes_arith.
    + repeat constructor; bytes_arith.
Qed.

Lemma field_eq f pos bits bs :
  0 <= pos -> 0 <= bits ->
  List.length bs = Z.to_nat (bits / 8) ->
  take (List.length bs) (drop (Z.to_nat pos) (data f)) = bs ->
  field f pos bits = bs.
Proof. intros _ _ Hl H. unfold field. rewrite <- Hl. exact H. Qed.

Lemma w_spec (bits vbits : Z) (f : FILE) (v : Z) :
  bits = 8 \/ bits = 16 \/ bits = 32 \/ bits = 64 ->
  0 <= fpos f -> 0 <= v < 2 ^ bits ->
  exists f',
    w bits vbits f v = Some f' /\
    fpos f' = fpos f + bits / 8 /\
    be_value (field f' (fpos f) bits) = v /\
    forall i : nat,
      (i < List.length (data f))%nat ->
      (Z.of_nat i < fpos f \/ fpos f + bits / 8 <= Z.of_nat i) ->
      data f' !! i = data f !! i.
Proof.
  intros Hb Hp Hv.
  assert (Hbits : 0 < bits /\ 0 <= bits / 8)
    by (destruct Hb as [-> | [-> | [-> | ->]]]; split; try lia; apply Z.div_pos; lia).
  destruct (_w_put_bytes bits f v Hb Hv) as (bs & Hw & Hlen & Hval & _).
  exists (_w bits f v). unfold w. rewrite wconv_fits by lia. simpl.
  split; [reflexivity|]. rewrite Hw.
  split; [rewrite put_bytes_pos, Hlen; lia|].
  split.
  - rewrite (field_eq _ _ _ bs); try lia; auto.
    apply field_put_bytes; lia.
  - intros i Hi Hout. rewrite put_bytes_lookup by lia.
    destruct (decide _) as [?|_]; [lia|].
    destruct (decide _) as [_|?]; [reflexivity | lia].
Qed.

(** X12.  A value written with [w8] .. [w64] reads back, most significant
    byte first, from the field that starts at the old file position; the
    position advances by the width, and no other byte of the file
    changes. *)
Theorem w_roundtrip (bits vbits : Z) (f : FILE) (v : Z) :
  bits = 8 \/ bits = 16 \/ bits = 32 \/ bits = 64 ->
  0 <= fpos f -> 0 <= v < 2 ^ bits ->
  exists f',
    w bits vbits f v = Some f' /\
    fpos f' = fpos f + bits / 8 /\
    be_value (field f' (fpos f) bits) = v /\
    forall i : nat,
      (i < List.length (data f))%nat ->
      (Z.of_nat i < fpos f \/ fpos f + bits / 8 <= Z.of_nat i) ->
      data f' !! i = data f !! i.
Proof. exact (w_spec bits vbits f v). Qed.

Lemma w_roundtrip_witness :
  exists f',
    w 32 32 (mk_file [1; 2; 3] 3) 0x11223344 = Some f' /\
    fpos f' = 3 + 32 / 8 /\
    be_value (field f' 3 32) = 0x11223344 /\
    forall i : nat,
      (i < 3)%nat ->
      (Z.of_nat i < 3 \/ 3 + 32 / 8 <= Z.of_nat i) ->
      data f' !! i = [1; 2; 3] !! i.
Proof.
  apply (w_roundtrip 32 32 (mk_file [1; 2; 3] 3) 0x11223344); simpl; lia.
Defined.

Lemma w_at_spec (bits vbits : Z) (f : FILE) (pos v : Z) :
  bits = 8 \/ bits = 16 \/ bits = 32 \/ bits = 64 ->
  0 <= fpos f -> 0 <= pos ->
  pos + bits / 8 <= Z.of_nat (List.length (data f)) ->
  0 <= v < 2 ^ bits ->
  exists f',
    w_at bits vbits f pos v = Some f' /\
    fpos f' = fpos f /\
    List.length (data f') = List.length (data f) /\
    be_value (field f' pos bits) = v /\
    forall i : nat,
      (Z.of_nat i < pos \/ pos + bits / 8 <= Z.of_nat i) ->
      data f' !! i = data f !! i.
Proof.
  intros Hb Hp Hpos Hin Hv.
  assert (Hbits : 0 < bits /\ 0 < bits / 8)
    by (destruct Hb as [-> | [-> | [-> | ->]]]; split; try lia; reflexivity).
  destruct (_w_put_bytes bits (fseek f pos) v Hb Hv) as (bs & Hw & Hlen & Hval & _).
  exists (fseek (_w bits (fseek f pos) v) (fpos f)).
  unfold w_at. rewrite wconv_fits by lia. simpl.
  unfold ftell. destruct (Z.geb_spec (fpos f) 0) as [_|?]; [|lia]. simpl.
  split; [reflexivity|]. split; [reflexivity|]. rewrite Hw.
  destruct bs as [|b bs]; [simpl in Hlen; lia|].
  split; [|split].
  - rewrite put_bytes_length by (simpl; lia). simpl fpos. simpl data.
    simpl List.length in Hlen. lia.
  - rewrite (field_eq _ _ _ (b :: bs)); try lia; auto.
    apply (field_put_bytes (fseek f pos)). simpl; lia.
  - intros i Hout. rewrite put_bytes_lookup by (simpl; lia).
    simpl fpos. simpl data.
    destruct (decide _) as [?|_]; [lia|].
    destruct (decide _) as [_|?]; [reflexivity|].
    destruct (decide _) as [?|_]; [lia|].
    symmetry. apply lookup_ge_None_2. lia.
Qed.

(** X13.  [w8_at] .. [w64_at] on a field that lies inside the file: the field
    holds the value, the file position and the length of the file are
    what they were, and no byte outside the field changes. *)
Theorem w_at_patches (bits vbits : Z) (f : FILE) (pos v : Z) :
  bits = 8 \/ bits = 16 \/ bits = 32 \/ bits = 64 ->
  0 <= fpos f -> 0 <= pos ->
  pos + bits / 8 <= Z.of_nat (List.length (data f)) ->
  0 <= v < 2 ^ bits ->
  exists f',
    w_at bits vbits f pos v = Some f' /\
    fpos f' = fpos f /\
    List.length (data f') = List.length (data f) /\
    be_value (field f' pos bits) = v /\
    forall i : nat,
      (Z.of_nat i < pos \/ pos + bits / 8 <= Z.of_nat i) ->
      data f' !! i = data f !! i.
Proof. exact (w_at_spec bits vbits f pos v). Qed.

Lemma w_at_patches_witness :
  exists f',
    w_at 16 64 (mk_file [1; 2; 3; 4; 5] 5) 1 0xABCD = Some f' /\
    fpos f' = 5 /\
    List.length (data f') = 5%nat /\
    be_value (field f' 1 16) = 0xABCD /\
    forall i : nat,
      (Z.of_nat i < 1 \/ 1 + 16 / 8 <= Z.of_nat i) ->
      data f' !! i = [1; 2; 3; 4; 5] !! i.
Proof.
  apply (w_at_patches 16 64 (mk_file [1; 2; 3; 4; 5] 5) 1 0xABCD); simpl; try lia.
  all: vm_compute; intuition congruence.
Defined.

Lemma w8_zero f : w 8 32 f 0 = Some (fputc 0 f).
Proof. reflexivity. Qed.

Lemma wpad_loop n : forall s f,
  foldl (fun of_ (_ : nat) => f ← of_; w 8 32 f 0) (Some f) (seq s n)
  = Some (put_bytes f (repeat 0 n)).
Proof.
  induction n as [|n IH]; intros s f; [reflexivity|].
  cbn [seq foldl repeat]. rewrite put_bytes_cons.
  change (Some f ≫= (fun f0 => w 8 32 f0 0)) with (w 8 32 f 0).
  rewrite w8_zero. apply IH.
Qed.

(** X14.  [wpad(f, size)] writes [size] zero bytes from the file position and
    touches nothing before it; with a negative [size] it has no result. *)
Theorem wpad_zeros (f : FILE) (size_ : Z) :
  0 <= fpos f ->
  (size_ < 0 -> wpad f size_ = None) /\
  (0 <= size_ ->
   exists f',
     wpad f size_ = Some f' /\
     fpos f' = fpos f + size_ /\
     (forall i : nat, fpos f <= Z.of_nat i < fpos f + size_ -> data f' !! i = Some 0) /\
     (forall i : nat, (i < List.length (data f))%nat ->
        (Z.of_nat i < fpos f \/ fpos f + size_ <= Z.of_nat i) ->
        data f' !! i = data f !! i)).
Proof.
  intros Hp. unfold wpad. split.
  - intros H. destruct (Z.ltb_spec size_ 0); [reflexivity | lia].
  - intros H. destruct (Z.ltb_spec size_ 0); [lia|].
    rewrite wpad_loop. eexists; split; [reflexivity|].
    split; [rewrite put_bytes_pos, repeat_length; lia|].
    split.
    + intros i Hi. rewrite put_bytes_lookup, repeat_length by lia.
      destruct (decide _) as [_|?]; [|lia].
      apply lookup_repeat. lia.
    + intros i Hi Hout. rewrite put_bytes_lookup, repeat_length by lia.
      destruct (decide _) as [?|_]; [lia|].
      destruct (decide _) as [_|?]; [reflexivity | lia].
Qed.

Lemma wpad_zeros_witness :
  (-1 < 0 -> wpad (mk_file [7; 7] 2) (-1) = None) /\
  (0 <= 3 ->
   exists f',
     wpad (mk_file [7; 7] 2) 3 = Some f' /\
     fpos f' = 2 + 3 /\
     (forall i : nat, 2 <= Z.of_nat i < 2 + 3 -> data f' !! i = Some 0) /\
     (forall i : nat, (i < 2)%nat ->
        (Z.of_nat i < 2 \/ 2 + 3 <= Z.of_nat i) ->
        data f' !! i = [7; 7] !! i)).
Proof.
  split.
  - apply (wpad_zeros (mk_file [7; 7] 2) (-1)). simpl; lia.
  - apply (wpad_zeros (mk_file [7; 7] 2) 3). simpl; lia.
Defined.

Lemma walign_loop_spec fuel : forall f pos align,
  0 < align -> 0 <= pos -> 0 <= fpos f ->
  ((- pos) mod align <= Z.of_nat fuel) ->
  walign_loop fuel f pos align
  = Some (put_bytes f (repeat 0 (Z.to_nat ((- pos) mod align)))).
Proof.
  induction fuel as [|fuel IH]; intros f pos align Ha Hpos Hf Hfuel.
  - pose proof (Z.mod_pos_bound (- pos) align Ha).
    assert (E : (- pos) mod align = 0) by lia.
    rewrite E. simpl.
    destruct (Z.eqb_spec align 0); [lia|]. simpl.
    assert (Z.rem pos align = 0) as ->.
    { rewrite Z.rem_mod_nonneg by lia.
      apply Z.mod_opp_l_z in E; [|lia]. rewrite Z.opp_involutive in E. exact E. }
    reflexivity.
  - cbn [walign_loop].
    destruct (Z.eqb_spec align 0); [lia|]. cbn [assertf negb mbind option_bind].
    rewrite Z.rem_mod_nonneg by lia.
    pose proof (Z.mod_pos_bound pos align Ha).
    pose proof (Z.mod_pos_bound (- pos) align Ha).
    destruct (Z.eqb_spec (pos mod align) 0) as [E|E]; cbn [negb].
    + rewrite Z.mod_opp_l_z by lia. reflexivity.
    + rewrite w8_zero. cbn [mbind option_bind].
      assert (Hm : (- pos) mod align = (- (pos + 1)) mod align + 1).
      { rewrite Z.mod_opp_l_nz by lia.
        assert (Hs : (pos + 1) mod align = (pos mod align + 1) mod align)
          by (rewrite Zplus_mod_idemp_l; reflexivity).
        destruct (Z.eq_dec (pos mod align + 1) align) as [E1|E1].
        - rewrite E1, Z.mod_same in Hs by lia.
          rewrite (Z.mod_opp_l_z (pos + 1)) by lia. lia.
        - rewrite (Z.mod_small (pos mod align + 1)) in Hs by lia.
          rewrite (Z.mod_opp_l_nz (pos + 1)) by lia. lia. }
      rewrite IH by (rewrite ?fputc_pos; lia).
      rewrite Hm.
      replace (Z.to_nat ((- (pos + 1)) mod align + 1))
        with (S (Z.to_nat ((- (pos + 1)) mod align)))
        by (pose proof (Z.mod_pos_bound (- (pos + 1)) align Ha); lia).
      reflexivity.
Qed.

(** X15.  [walign(f, align)] pads with the zero bytes [wpad] would write to
    reach the next multiple of [align]: fewer than [align] of them, none
    when the position is a multiple already. *)
Theorem walign_pads (f : FILE) (align : Z) :
  0 <= fpos f -> 0 < align ->
  let n := (- fpos f) mod align in
  walign f align = wpad f n /\
  0 <= n < align /\
  exists f', walign f align = Some f' /\
    fpos f' = fpos f + n /\ (fpos f') mod align = 0.
Proof.
  intros Hp Ha n.
  pose proof (Z.mod_pos_bound (- fpos f) align Ha) as Hn. fold n in Hn.
  assert (E : walign f align = Some (put_bytes f (repeat 0 (Z.to_nat n)))).
  { unfold walign, ftell. destruct (Z.geb_spec (fpos f) 0); [|lia].
    cbn [assertf mbind option_bind].
    apply walign_loop_spec; fold n; lia. }
  split; [|split; [exact Hn|]].
  - rewrite E. unfold wpad. destruct (Z.ltb_spec n 0); [lia|].
    symmetry. apply wpad_loop.
  - eexists; split; [exact E|].
    rewrite put_bytes_pos, repeat_length.
    split; [lia|].
    replace (fpos f + Z.of_nat (Z.to_nat n)) with (fpos f + n) by lia.
    unfold n. rewrite Zplus_mod_idemp_r. replace (fpos f + - fpos f) with 0 by lia.
    apply Z.mod_0_l. lia.
Qed.

Lemma walign_pads_witness :
  let n := (- 5) mod 8 in
  walign (mk_file [1; 2; 3; 4; 5] 5) 8 = wpad (mk_file [1; 2; 3; 4; 5] 5) n /\
  0 <= n < 8 /\
  exists f', walign (mk_file [1; 2; 3; 4; 5] 5) 8 = Some f' /\
    fpos f' = 5 + n /\ (fpos f') mod 8 = 0.
Proof.
  apply (walign_pads (mk_file [1; 2; 3; 4; 5] 5) 8); simpl; lia.
Defined.

(** X16.  A name referenced once, by a field of 8, 16 or 32 bits at a
    position [p] that an [int] holds, and not set yet.  Setting it writes the offset into the field at the
    position the pending array of the width holds: [p] itself for 32
    bits, but [p] modulo 2^8 or 2^16 for the 8- and 16-bit references,
    whose arrays have [uint8_t] and [uint16_t] elements.  So the
    reference is patched when [p] fits the element type, and otherwise
    another place of the file is overwritten and the reference is left
    as it was.  The file position and the end of the file do not move,
    no byte outside the field written changes, and the name is left set
    with nothing pending. *)
Theorem placeholder_set_patches (bits : Z) (s : state) (name : string) (p off : Z) :
  bits = 8 \/ bits = 16 \/ bits = 32 ->
  placeholder_hash s !! name = Some (push_pending bits (mk_pd (-1) [] [] [] []) p) ->
  0 <= fpos (file s) -> 0 <= p < 2 ^ 31 ->
  pending_pos bits p + bits / 8 <= Z.of_nat (List.length (data (file s))) ->
  0 <= off < 2 ^ bits ->
  let q := pending_pos bits p in
  q = (if bits =? 32 then p else p mod 2 ^ bits) /\
  (p < 2 ^ bits -> q = p) /\
  (bits <> 32 -> 2 ^ bits <= p -> q < 2 ^ bits <= p) /\
  exists s',
    placeholder_set_offset s off name = Some s' /\
    fpos (file s') = fpos (file s) /\
    List.length (data (file s')) = List.length (data (file s)) /\
    be_value (field (file s') q bits) = off /\
    (forall i : nat,
       (Z.of_nat i < q \/ q + bits / 8 <= Z.of_nat i) ->
       data (file s') !! i = data (file s) !! i) /\
    placeholder_hash s' !! name = Some (mk_pd off [] [] [] []).
Proof.
  intros Hb Hh Hp Hp0 Hin Hoff q.
  assert (Hq : q = (if bits =? 32 then p else p mod 2 ^ bits)).
  { subst q. unfold pending_pos, to_uint.
    destruct Hb as [-> | [-> | ->]]; reflexivity. }
  assert (Hpow : 0 < 2 ^ bits) by (apply Z.pow_pos_nonneg; lia).
  assert (Hq0 : 0 <= q).
  { rewrite Hq. destruct (bits =? 32); [lia | apply Z.mod_pos_bound; lia]. }
  split; [exact Hq|]. split; [|split].
  { intros Hlt. rewrite Hq. destruct (bits =? 32); [reflexivity|].
    apply Z.mod_small. lia. }
  { intros H32 Hge. rewrite Hq.
    destruct (Z.eqb_spec bits 32); [contradiction|].
    pose proof (Z.mod_pos_bound p (2 ^ bits) Hpow). lia. }
  destruct (w_at_spec bits 64 (file s) q off) as (f' & Hw & H1 & H2 & H3 & H4);
    try tauto; try lia.
  exists (mk_state f' (<[name := mk_pd off [] [] [] []]> (placeholder_hash s))).
  unfold placeholder_set_offset, __placeholder_make, __placeholder_get_data.
  rewrite Hh.
  split; [|split; [exact H1|split; [exact H2|split; [exact H3|split; [exact H4|]]]]].
  - subst q. clear Hq Hq0 Hin H3 H4.
    destruct Hb as [-> | [-> | ->]];
      cbv beta iota delta [push_pending pending_offsets_64 pending_offsets_32
                           pending_offsets_16 pending_offsets_8 offset
                           Z.eqb Pos.eqb app patch_all foldl];
      cbn [mbind option_bind]; rewrite Hw; reflexivity.
  - simpl. apply lookup_insert_eq.
Qed.

Lemma placeholder_set_patches_witness :
  let s := mk_state (mk_file (repeat 9 302) 302)
             {[ "x"%string := push_pending 8 (mk_pd (-1) [] [] [] []) 300 ]} in
  let q := pending_pos 8 300 in
  q = (if 8 =? 32 then 300 else 300 mod 2 ^ 8) /\
  (300 < 2 ^ 8 -> q = 300) /\
  (8 <> 32 -> 2 ^ 8 <= 300 -> q < 2 ^ 8 <= 300) /\
  exists s',
    placeholder_set_offset s 0x12 "x" = Some s' /\
    fpos (file s') = fpos (file s) /\
    List.length (data (file s')) = List.length (data (file s)) /\
    be_value (field (file s') q 8) = 0x12 /\
    (forall i : nat,
       (Z.of_nat i < q \/ q + 8 / 8 <= Z.of_nat i) ->
       data (file s') !! i = data (file s) !! i) /\
    placeholder_hash s' !! "x"%string = Some (mk_pd 0x12 [] [] [] []).
Proof.
  apply (placeholder_set_patches 8
           (mk_state (mk_file (repeat 9 302) 302)
              {[ "x"%string := push_pending 8 (mk_pd (-1) [] [] [] []) 300 ]})
           "x" 300 0x12).
  - lia.
  - apply lookup_singleton_eq.
  - cbn [file fpos]. lia.
  - lia.
  - cbn [file data]. rewrite repeat_length. vm_compute. intuition congruence.
  - vm_compute. intuition congruence.
Defined.

(** X17.  A reference to a name that is set already (to an offset that fits
    the field and is not the marker -1) writes the offset itself, for
    each of the four widths, and records nothing as pending. *)
Theorem placeholder_after_set (bits : Z) (s : state) (name : string)
    (d : placeholder_data) :
  bits = 8 \/ bits = 16 \/ bits = 32 \/ bits = 64 ->
  placeholder_hash s !! name = Some d ->
  0 <= offset d < 2 ^ bits ->
  0 <= fpos (file s) ->
  exists s',
    __w_placeholder_named bits s name = Some s' /\
    fpos (file s') = fpos (file s) + bits / 8 /\
    be_value (field (file s') (fpos (file s)) bits) = offset d /\
    placeholder_hash s' !! name = Some d.
Proof.
  intros Hb Hh Hoff Hp.
  destruct (w_spec bits 64 (file s) (offset d) Hb Hp Hoff)
    as (f' & Hw & H1 & H2 & _).
  exists (mk_state f' (<[name := d]> (placeholder_hash s))).
  unfold __w_placeholder_named, __placeholder_get_data. rewrite Hh.
  destruct (Z.eqb_spec (offset d) (-1)); [lia|].
  rewrite Hw. simpl.
  split; [reflexivity|]. split; [exact H1|]. split; [exact H2|].
  apply lookup_insert_eq.
Qed.

Lemma placeholder_after_set_witness :
  exists s',
    __w_placeholder_named 64
      (mk_state (mk_file [1; 2] 2) {[ "x"%string := mk_pd 15 [] [] [] [] ]}) "x"
    = Some s' /\
    fpos (file s') = 2 + 64 / 8 /\
    be_value (field (file s') 2 64) = 15 /\
    placeholder_hash s' !! "x"%string = Some (mk_pd 15 [] [] [] []).
Proof.
  apply (placeholder_after_set 64
           (mk_state (mk_file [1; 2] 2) {[ "x"%string := mk_pd 15 [] [] [] [] ]})
           "x" (mk_pd 15 [] [] [] [])).
  - lia.
  - apply lookup_singleton_eq.
  - cbn [offset]. vm_compute. intuition congruence.
  - cbn [file fpos]. lia.
Defined.

Lemma wconv_range_witness :
  0 < 8 < 32 /\
  (is_Some (wconv 8 32 (-200)) <-> - 2 ^ 8 <= -200 < 2 ^ 8) /\
  (forall r, wconv 8 32 (-200) = Some r -> r = (-200) mod 2 ^ 8 /\ 0 <= r < 2 ^ 8).
Proof.
  split; [lia|]. apply (wconv_range 8 32 (-200)). lia.
Defined.

End BinoutFacts.

(** ** The readers of the XM module loader *)

Module XmLoaderFacts.
Import Binout BinoutFacts XmLoader.

Lemma lor_shiftl_add hi lo k :
  0 <= k -> 0 <= lo < 2 ^ k -> Z.lor (Z.shiftl hi k) lo = hi * 2 ^ k + lo.
Proof.
  intros Hk Hlo.
  rewrite <- Z.lxor_lor, <- Z.add_nocarry_lxor, Z.shiftl_mul_pow2; try lia.
  all: apply Z.bits_inj'; intros n Hn; rewrite Z.land_spec, Z.bits_0;
    destruct (Z_lt_le_dec n k);
    [ rewrite Z.shiftl_spec_low by lia; reflexivity |].
  all: assert (E : Z.testbit lo n = false)
    by (apply Z.testbit_false; [lia|];
        rewrite Z.div_small; [reflexivity|]; split; [lia|];
        apply Z.lt_le_trans with (2 ^ k); [lia|];
        apply Z.pow_le_mono_r; lia).
  all: rewrite E; apply andb_false_r.
Qed.

Lemma fread1_at f (p : Z) b :
  0 <= p -> data f !! Z.to_nat p = Some b ->
  fread1 (mk_file (data f) p) = Some (b, mk_file (data f) (p + 1)).
Proof.
  intros Hp Hb. unfold fread1. simpl.
  destruct (Z.geb_spec p 0); [|lia]. simpl. rewrite Hb. reflexivity.
Qed.

Lemma R8_at d p b :
  0 <= p -> d !! Z.to_nat p = Some b ->
  _R8 (mk_file d p) = Some (b, mk_file d (p + 1)).
Proof. intros. apply (fread1_at (mk_file d p)); assumption. Qed.

Lemma R16_at d p b0 b1 :
  0 <= p -> d !! Z.to_nat p = Some b0 -> d !! Z.to_nat (p + 1) = Some b1 ->
  byte b1 ->
  _R16 (mk_file d p) = Some (b0 * 256 + b1, mk_file d (p + 2)).
Proof.
  intros Hp H0 H1 Hb. unfold _R16.
  rewrite (R8_at d p b0) by assumption. simpl.
  rewrite (R8_at d (p + 1) b1) by (assumption || lia). simpl.
  rewrite lor_shiftl_add by (unfold byte in *; simpl; lia).
  change (2 ^ 8) with 256.
  f_equal; apply (f_equal2 pair); [lia | f_equal; lia].
Qed.

Lemma R32_at d p b0 b1 b2 b3 :
  0 <= p ->
  d !! Z.to_nat p = Some b0 -> d !! Z.to_nat (p + 1) = Some b1 ->
  d !! Z.to_nat (p + 2) = Some b2 -> d !! Z.to_nat (p + 3) = Some b3 ->
  byte b0 -> byte b1 -> byte b2 -> byte b3 ->
  _R32 (mk_file d p)
  = Some (((b0 * 256 + b1) * 256 + b2) * 256 + b3, mk_file d (p + 4)).
Proof.
  intros Hp H0 H1 H2 H3 B0 B1 B2 B3. unfold _R32.
  rewrite (R16_at d p b0 b1) by assumption. simpl.
  replace (p + 3) with (p + 2 + 1) in H3 by lia.
  rewrite (R16_at d (p + 2) b2 b3) by (assumption || lia).
  simpl.
  rewrite lor_shiftl_add by (unfold byte in *; simpl; lia).
  change (2 ^ 16) with 65536.
  f_equal; apply (f_equal2 pair); [lia | f_equal; lia].
Qed.

Lemma R64_at d p b0 b1 b2 b3 b4 b5 b6 b7 :
  0 <= p ->
  d !! Z.to_nat p = Some b0 -> d !! Z.to_nat (p + 1) = Some b1 ->
  d !! Z.to_nat (p + 2) = Some b2 -> d !! Z.to_nat (p + 3) = Some b3 ->
  d !! Z.to_nat (p + 4) = Some b4 -> d !! Z.to_nat (p + 5) = Some b5 ->
  d !! Z.to_nat (p + 6) = Some b6 -> d !! Z.to_nat (p + 7) = Some b7 ->
  byte b0 -> byte b1 -> byte b2 -> byte b3 ->
  byte b4 -> byte b5 -> byte b6 -> byte b7 ->
  _R64 (mk_file d p)
  = Some (be_value [b0; b1; b2; b3; b4; b5; b6; b7], mk_file d (p + 8)).
Proof.
  intros Hp H0 H1 H2 H3 H4 H5 H6 H7 B0 B1 B2 B3 B4 B5 B6 B7. unfold _R64.
  rewrite (R32_at d p b0 b1 b2 b3) by assumption. simpl.
  replace (p + 5) with (p + 4 + 1) in H5 by lia.
  replace (p + 6) with (p + 4 + 2) in H6 by lia.
  replace (p + 7) with (p + 4 + 3) in H7 by lia.
  rewrite (R32_at d (p + 4) b4 b5 b6 b7) by (assumption || lia).
  simpl.
  rewrite lor_shiftl_add by (unfold byte in *; simpl; lia).
  change (2 ^ 32) with 4294967296.
  unfold be_value; simpl.
  f_equal; apply (f_equal2 pair); [lia | f_equal; lia].
Qed.

(** X18.  What [w8] .. [w64] of the asset tools write, the [R8] .. [R64]
    macros of the module loader read back: the same value, ending at the
    position where the writer ended. *)
Theorem reader_reads_writer (bits vbits : Z) (f f' : FILE) (v : Z) :
  bits = 8 \/ bits = 16 \/ bits = 32 \/ bits = 64 ->
  0 <= fpos f -> 0 <= v < 2 ^ bits ->
  w bits vbits f v = Some f' ->
  _R bits (fseek f' (fpos f)) = Some (v, f').
Proof.
  intros Hb Hp Hv Hw.
  assert (Hbits : 0 < bits)
    by (destruct Hb as [-> | [-> | [-> | ->]]]; lia).
  unfold w in Hw. rewrite wconv_fits in Hw by lia. simpl in Hw.
  injection Hw as <-.
  destruct (_w_put_bytes bits f v Hb Hv) as (bs & Hw & Hlen & Hval & Hall).
  assert (Hlk : forall k : nat, (k < List.length bs)%nat ->
            data (_w bits f v) !! Z.to_nat (fpos f + Z.of_nat k) = bs !! k).
  { intros k Hk. rewrite Hw, put_bytes_lookup by lia.
    destruct (decide _) as [_|?]; [|lia]. f_equal. lia. }
  assert (Hpos : fpos (_w bits f v) = fpos f + Z.of_nat (List.length bs))
    by (rewrite Hw; apply put_bytes_pos).
  unfold fseek. destruct (_w bits f v) as [d q] eqn:E. simpl in *.
  subst q. rewrite <- Hval.
  destruct Hb as [-> | [-> | [-> | ->]]]; unfold _R; simpl;
    change (Z.to_nat _) with 1%nat in Hlen || change (Z.to_nat _) with 2%nat in Hlen
    || change (Z.to_nat _) with 4%nat in Hlen || change (Z.to_nat _) with 8%nat in Hlen.
  - destruct bs as [|b0 [|]]; try discriminate.
    rewrite (R8_at d (fpos f) b0); [reflexivity | lia |].
    specialize (Hlk 0%nat ltac:(simpl; lia)). rewrite Z.add_0_r in Hlk. exact Hlk.
  - destruct bs as [|b0 [|b1 [|]]]; try discriminate.
    inversion Hall as [|? ? B0 Hall1]; subst. inversion Hall1 as [|? ? B1 _]; subst.
    rewrite (R16_at d (fpos f) b0 b1); try assumption.
    + unfold be_value; simpl. reflexivity.
    + specialize (Hlk 0%nat ltac:(simpl; lia)). rewrite Z.add_0_r in Hlk. exact Hlk.
    + exact (Hlk 1%nat ltac:(simpl; lia)).
  - destruct bs as [|b0 [|b1 [|b2 [|b3 [|]]]]]; try discriminate.
    repeat match goal with
           | H : Forall _ (_ :: _) |- _ => inversion H; subst; clear H
           end.
    rewrite (R32_at d (fpos f) b0 b1 b2 b3); try assumption.
    + unfold be_value; simpl. reflexivity.
    + specialize (Hlk 0%nat ltac:(simpl; lia)). rewrite Z.add_0_r in Hlk. exact Hlk.
    + exact (Hlk 1%nat ltac:(simpl; lia)).
    + exact (Hlk 2%nat ltac:(simpl; lia)).
    + exact (Hlk 3%nat ltac:(simpl; lia)).
  - destruct bs as [|b0 [|b1 [|b2 [|b3 [|b4 [|b5 [|b6 [|b7 [|]]]]]]]]];
      try discriminate.
    repeat match goal with
           | H : Forall _ (_ :: _) |- _ => inversion H; subst; clear H
           end.
    rewrite (R64_at d (fpos f) b0 b1 b2 b3 b4 b5 b6 b7); try assumption.
    + reflexivity.
    + specialize (Hlk 0%nat ltac:(simpl; lia)). rewrite Z.add_0_r in Hlk. exact Hlk.
    + exact (Hlk 1%nat ltac:(simpl; lia)).
    + exact (Hlk 2%nat ltac:(simpl; lia)).
    + exact (Hlk 3%nat ltac:(simpl; lia)).
    + exact (Hlk 4%nat ltac:(simpl; lia)).
    + exact (Hlk 5%nat ltac:(simpl; lia)).
    + exact (Hlk 6%nat ltac:(simpl; lia)).
    + exact (Hlk 7%nat ltac:(simpl; lia)).
Qed.

Lemma reader_reads_writer_witness :
  w 32 32 (mk_file [1; 2] 2) 0xCAFE0042
    = Some (mk_file [1; 2; 0xCA; 0xFE; 0x00; 0x42] 6) /\
  _R 32 (fseek (mk_file [1; 2; 0xCA; 0xFE; 0x00; 0x42] 6) 2)
    = Some (0xCAFE0042, mk_file [1; 2; 0xCA; 0xFE; 0x00; 0x42] 6).
Proof.
  split; [reflexivity|].
  apply (reader_reads_writer 32 32 (mk_file [1; 2] 2)
           (mk_file [1; 2; 0xCA; 0xFE; 0x00; 0x42] 6) 0xCAFE0042);
    simpl; try lia; reflexivity.
Defined.

End XmLoaderFacts.

(** ** The WAV64 container *)

Module Wav64Facts.
Import Wav64.

(** *** Loading, looping and closing *)

(** [internal_open] stores the attributes of the header as they are. *)
Lemma internal_open_wave w e fh fn content smode w' wav :
  internal_open w e fh fn content smode = Some (w', wav) ->
  bits (wave wav) = h_nbits (read_header content) /\
  len (wave wav) = h_len (read_header content) /\
  loop_len (wave wav) = h_loop_len (read_header content).
Proof.
  unfold internal_open. intros H. cbv zeta in H.
  do 6 (apply bind_Some in H as (? & _ & H)).
  apply bind_Some in H as ([[h1 st1] rd] & _ & H). cbv beta iota in H.
  match type of H with (if ?c then _ else _) = _ => destruct c end.
  - apply bind_Some in H as (? & _ & H).
    apply bind_Some in H as ([h2 st2] & _ & H). cbv beta iota in H.
    injection H as _ <-. simpl. auto.
  - injection H as _ <-. simpl. auto.
Qed.

Lemma set_loop_spec wav loop :
  loop_len (wave (wav64_set_loop wav loop)) =
    (let ll := if loop then len (wave wav) else 0 in
     if (bits (wave wav) =? 8) && Z.odd ll then ll - 1 else ll) /\
  bits (wave (wav64_set_loop wav loop)) = bits (wave wav).
Proof.
  unfold wav64_set_loop. simpl. split; [|reflexivity].
  set (ll := if loop then len (wave wav) else 0).
  assert (E : negb (Z.land ll 1 =? 0) = Z.odd ll).
  { rewrite land_1_mod2, Zodd_mod. destruct (Z.eqb_spec (ll mod 2) 0) as [->|Hn].
    - reflexivity.
    - pose proof (Z.mod_pos_bound ll 2).
      assert (ll mod 2 = 1) as -> by lia. reflexivity. }
  rewrite E. reflexivity.
Qed.

(** C3, as stated, fails: the file declares 8 bits and a loop of 17
    frames, and the waveform it loads has a loop of 17 frames. *)
Lemma loader_rounds_counterexample :
  h_nbits (read_header odd_loop_file) = 8 /\
  h_loop_len (read_header odd_loop_file) = 17 /\
  exists w' wav,
    wav64_open quiet env0 "rom:/a.wav64"%string odd_loop_file = Some (w', wav) /\
    loop_len (wave wav) <> 16.
Proof.
  split; [reflexivity|]. split; [reflexivity|].
  destruct (wav64_open quiet env0 "rom:/a.wav64"%string odd_loop_file)
    as [[w' wav]|] eqn:E; [|vm_compute in E; discriminate].
  exists w', wav. split; [reflexivity|]. unfold wav64_open in E.
  apply internal_open_wave in E as (_ & _ & ->). vm_compute. discriminate.
Qed.




Lemma alloc_Some a b h h' :
  alloc a b h = Some h' -> h !! a = None /\ h' = <[a := b]> h.
Proof.
  unfold alloc. destruct (h !! a) eqn:E; [discriminate|].
  intros H. injection H as <-. auto.
Qed.

Lemma delete_two_inserts (h : gmap Z block) a b x x' y :
  h !! a = None -> h !! b = None -> a <> b ->
  delete a (delete b (<[a := x]> (<[b := y]> (<[a := x']> h)))) = h.
Proof.
  intros Ha Hb Hne. apply map_eq. intros k.
  destruct (decide (k = a)) as [->|Hk1].
  { rewrite lookup_delete_eq. symmetry. exact Ha. }
  rewrite lookup_delete_ne by congruence.
  destruct (decide (k = b)) as [->|Hk2].
  { rewrite lookup_delete_eq. symmetry. exact Hb. }
  rewrite lookup_delete_ne by congruence.
  rewrite !lookup_insert_ne by congruence. reflexivity.
Qed.

(** What a [wav64_open] that returns has built: the state block, and the
    block its codec allocated. *)
Lemma open_shape w e fn content w1 wav :
  wav64_open w e fn content = Some (w1, wav) ->
  exists st1,
    st wav = Some (heap_addr e) /\
    heap w !! heap_addr e = None /\
    heap w1 !! heap_addr e = Some (StateBlock st1) /\
    flags st1 = WAV64_FLAG_OWNED_FD /\ current_fd st1 = new_fd e /\
    format st1 = h_format (read_header content) /\
    fds w1 = {[new_fd e]} ∪ fds w /\
    mixer w1 = mixer w /\ opus_registered w1 = opus_registered w /\
    ((format st1 = WAV64_FORMAT_RAW /\
      delete (heap_addr e) (heap w1) = heap w) \/
     (format st1 = WAV64_FORMAT_VADPCM /\
      Z.land (nth 2 (ext_of content) 0) VADPCM_FLAG_HUFFMAN <> 0 /\
      huff_tbl st1 = Some (tbl_addr e) /\ tbl_addr e <> heap_addr e /\
      is_Some (heap w1 !! tbl_addr e) /\
      delete (heap_addr e) (delete (tbl_addr e) (heap w1)) = heap w) \/
     (format st1 = WAV64_FORMAT_VADPCM /\
      Z.land (nth 2 (ext_of content) 0) VADPCM_FLAG_HUFFMAN = 0 /\
      huff_tbl st1 = ext_ptr (ext_of content) 4 /\
      delete (heap_addr e) (heap w1) = heap w) \/
     (format st1 = WAV64_FORMAT_OPUS /\ opus_registered w = true /\
      mode st1 = Some (mode_addr e) /\ mode_addr e <> heap_addr e /\
      is_Some (heap w1 !! mode_addr e) /\
      delete (heap_addr e) (delete (mode_addr e) (heap w1)) = heap w)).
Proof.
  unfold wav64_open, internal_open. intros H. cbv zeta in H.
  do 4 (apply bind_Some in H as (? & _ & H)).
  apply bind_Some in H as (? & Hreg & H). apply assertf_Some in Hreg.
  apply bind_Some in H as (h0 & Hh0 & H).
  apply alloc_Some in Hh0 as [Hfresh ->].
  apply bind_Some in H as ([[h1 st1] rd] & Hi & H). cbv beta iota in H.
  change (WAV64_STREAMING_FULL =? WAV64_STREAMING_NONE) with false in H.
  cbv iota in H. injection H as <- <-.
  change (-1 <? 0) with true in *. cbv iota in *.
  exists st1. cbn [st heap fds mixer opus_registered].
  split; [reflexivity|]. split; [exact Hfresh|].
  split; [apply lookup_insert_eq|].
  unfold algo_init in Hi. cbn [format] in Hi.
  set (st0 := mk_wav64_state _ _ _ _ _ _ _ _) in *.
  assert (Hplain : delete (heap_addr e)
                     (<[heap_addr e := StateBlock st1]>
                        (<[heap_addr e := StateBlock st0]> (heap w))) = heap w).
  { rewrite delete_insert_eq, delete_insert_eq. apply delete_id. exact Hfresh. }
  cbn [format] in Hi.
  destruct (Z.eqb_spec (h_format (read_header content)) WAV64_FORMAT_RAW) as [E0|E0].
  { injection Hi as <- <- <-. cbn [flags current_fd format].
    repeat split; try reflexivity. left. split; [exact E0 | exact Hplain]. }
  destruct (Z.eqb_spec (h_format (read_header content)) WAV64_FORMAT_VADPCM) as [E1|E1].
  { apply bind_Some in Hi as ([h' s'] & Hv & Hi). injection Hi as <- <- <-.
    unfold wav64_vadpcm_init in Hv.
    apply bind_Some in Hv as (? & _ & Hv).
    apply bind_Some in Hv as (ex & Hex & Hv).
    cbn [ext] in Hex. injection Hex as <-.
    destruct (Z.eqb_spec (Z.land (nth 2 (ext_of content) 0) VADPCM_FLAG_HUFFMAN) 0)
      as [Eh|Eh]; cbn [negb] in Hv.
    - injection Hv as <- <-. cbn [flags current_fd format huff_tbl].
      repeat split; try reflexivity. right. right. left.
      repeat split; try assumption.
    - apply bind_Some in Hv as (tables & _ & Hv).
      apply bind_Some in Hv as (h2 & Ha & Hv).
      apply alloc_Some in Ha as [Hnew ->].
      injection Hv as <- <-. cbn [flags current_fd format huff_tbl].
      assert (Hne : tbl_addr e <> heap_addr e).
      { intros Heq. rewrite Heq, lookup_insert_eq in Hnew. discriminate. }
      rewrite lookup_insert_ne in Hnew by congruence.
      repeat split; try reflexivity. right. left.
      split; [exact E1|]. split; [exact Eh|]. split; [reflexivity|].
      split; [exact Hne|].
      split; [rewrite lookup_insert_ne by congruence; rewrite lookup_insert_eq; eauto|].
      apply delete_two_inserts; [assumption | assumption | congruence]. }
  apply bind_Some in Hi as ([h' s'] & Hv & Hi). injection Hi as <- <- <-.
  unfold algo_registered in Hreg.
  destruct (Z.eqb_spec (h_format (read_header content)) WAV64_FORMAT_RAW);
    [contradiction|].
  destruct (Z.eqb_spec (h_format (read_header content)) WAV64_FORMAT_VADPCM);
    [contradiction|].
  cbn [orb] in Hreg. apply andb_true_iff in Hreg as [E3 Hop].
  apply Z.eqb_eq in E3.
  unfold wav64_opus_init, opus_custom_mode_create in Hv.
  apply bind_Some in Hv as ([h2 m] & Hc & Hv). cbv beta iota in Hv.
  apply bind_Some in Hv as (? & Hok & Hv). apply assertf_Some in Hok.
  rewrite Hok in Hc.
  apply bind_Some in Hc as (h3 & Ha & Hc). injection Hc as <- <-.
  apply alloc_Some in Ha as [Hnew ->].
  apply bind_Some in Hv as (? & _ & Hv). injection Hv as <- <-.
  cbn [flags current_fd format mode].
  assert (Hne : mode_addr e <> heap_addr e).
  { intros Heq. rewrite Heq, lookup_insert_eq in Hnew. discriminate. }
  rewrite lookup_insert_ne in Hnew by congruence.
  repeat split; try reflexivity. right. right. right.
  split; [exact E3|]. split; [exact Hop|]. split; [reflexivity|].
  split; [exact Hne|].
  split; [rewrite lookup_insert_ne by congruence; rewrite lookup_insert_eq; eauto|].
  apply delete_two_inserts; [assumption | assumption | congruence].
Qed.





(** *** Further properties *)



Lemma stop_playing_lookup (self : Z) (m : list (option Z)) (n : nat) :
  (n <= List.length m)%nat ->
  forall ch : nat,
    foldl (fun m i =>
             if bool_decide (mixer_ch_playing_waveform m i = Some self)
             then mixer_ch_stop m i else m) m (seq 0 n) !! ch
    = if bool_decide ((ch < n)%nat /\ m !! ch = Some (Some self))
      then Some None else m !! ch.
Proof.
  induction n as [|n IH]; intros Hn ch.
  - cbn [seq foldl]. rewrite bool_decide_eq_false_2 by lia. reflexivity.
  - rewrite seq_S, foldl_app. cbn [foldl]. change (0 + n)%nat with n.
    set (m' := foldl _ m (seq 0 n)) in *.
    specialize (IH ltac:(lia)).
    assert (Hn' : m' !! n = m !! n).
    { rewrite IH. rewrite bool_decide_eq_false_2 by lia. reflexivity. }
    assert (Hlen : List.length m' = List.length m).
    { subst m'. clear. generalize (seq 0 n). intros l. revert m.
      induction l as [|i l IHl]; intros m; [reflexivity|].
      cbn [foldl]. rewrite IHl. case_bool_decide; [|reflexivity].
      unfold mixer_ch_stop. apply length_insert. }
    unfold mixer_ch_playing_waveform. rewrite Hn'.
    destruct (m !! n) as [v|] eqn:En; [|apply lookup_ge_None_1 in En; lia].
    cbn [default].
    case_bool_decide as Hv; cbn [default] in Hv.
    + unfold id in Hv. subst v. unfold mixer_ch_stop.
      destruct (decide (ch = n)) as [->|Hne].
      * rewrite list_lookup_insert_eq by lia.
        rewrite bool_decide_eq_true_2 by (split; [lia | exact En]). reflexivity.
      * rewrite list_lookup_insert_ne by congruence. rewrite IH.
        case_bool_decide as A; case_bool_decide as B; try reflexivity; exfalso.
        -- apply B. destruct A; split; [lia | assumption].
        -- apply A. destruct B; split; [lia | assumption].
    + unfold id in Hv. rewrite IH.
      destruct (decide (ch = n)) as [->|Hne].
      * rewrite bool_decide_eq_false_2 by lia.
        rewrite bool_decide_eq_false_2 by (intros [_ ?]; congruence). reflexivity.
      * case_bool_decide as A; case_bool_decide as B; try reflexivity; exfalso.
        -- apply B. destruct A; split; [lia | assumption].
        -- apply A. destruct B; split; [lia | assumption].
Qed.

(** X20.  A wave that is closed is heard no more.  When [wav64_close] of an
    open [wav64_t] returns, every mixer channel that was playing its
    waveform is stopped, and the channels that were playing something
    else, or nothing, are as they were. *)
Theorem close_stops_channels w self wav h w2 wav2 :
  st wav = Some h ->
  wav64_close w self wav = Some (w2, wav2) ->
  List.length (mixer w2) = List.length (mixer w) /\
  forall ch : nat,
    mixer_ch_playing_waveform (mixer w2) ch <> Some self /\
    (mixer_ch_playing_waveform (mixer w) ch <> Some self ->
     mixer w2 !! ch = mixer w !! ch).
Proof.
  intros Hst H. unfold wav64_close in H. rewrite Hst in H.
  apply bind_Some in H as (s & _ & H).
  apply bind_Some in H as ([h1 s1] & _ & H). cbv beta iota in H.
  apply bind_Some in H as (h2 & _ & H). injection H as <- _.
  cbn [mixer].
  pose proof (stop_playing_lookup self (mixer w) (List.length (mixer w)) ltac:(lia)) as L.
  split.
  - generalize (seq 0 (List.length (mixer w))). intros l. generalize (mixer w).
    induction l as [|i l IHl]; intros m; [reflexivity|].
    cbn [foldl]. rewrite IHl. case_bool_decide; [|reflexivity].
    unfold mixer_ch_stop. apply length_insert.
  - intros ch. unfold mixer_ch_playing_waveform. rewrite L. split.
    + case_bool_decide as Hc; [simpl; discriminate|].
      destruct (mixer w !! ch) as [v|] eqn:E; simpl; [|discriminate].
      intros ->. apply Hc. split; [eapply lookup_lt_Some; eauto | reflexivity].
    + intros Hne. case_bool_decide as Hc; [|reflexivity].
      destruct Hc as [_ Hc]. rewrite Hc in Hne. simpl in Hne. congruence.
Qed.

Lemma close_stops_channels_witness :
  match wav64_open quiet env0 "rom:/a.wav64"%string odd_loop_file with
  | Some (w1, wav) =>
      let w := wav64_play w1 0x80100000 2 in
      mixer_ch_playing_waveform (mixer w) 2 = Some 0x80100000 /\
      match wav64_close w 0x80100000 wav with
      | Some (w2, wav2) =>
          List.length (mixer w2) = List.length (mixer w) /\
          forall ch : nat,
            mixer_ch_playing_waveform (mixer w2) ch <> Some 0x80100000 /\
            (mixer_ch_playing_waveform (mixer w) ch <> Some 0x80100000 ->
             mixer w2 !! ch = mixer w !! ch)
      | None => False
      end
  | None => False
  end.
Proof.
  assert (E : match wav64_open quiet env0 "rom:/a.wav64"%string odd_loop_file with
              | Some (w1, wav) =>
                  option_map (fun _ => mixer_ch_playing_waveform
                                         (mixer (wav64_play w1 0x80100000 2)) 2)
                    (wav64_close (wav64_play w1 0x80100000 2) 0x80100000 wav)
              | None => None
              end = Some (Some 0x80100000)) by (vm_compute; reflexivity).
  destruct (wav64_open quiet env0 "rom:/a.wav64"%string odd_loop_file)
    as [[w1 wav]|] eqn:E1; [|discriminate E].
  destruct (open_shape _ _ _ _ _ _ E1) as (st1 & Hst & _).
  cbv zeta.
  destruct (wav64_close (wav64_play w1 0x80100000 2) 0x80100000 wav)
    as [[w2 wav2]|] eqn:E2; [|discriminate E].
  split; [injection E as E; exact E|].
  exact (close_stops_channels _ _ _ _ _ _ Hst E2).
Defined.



End Wav64Facts.

(** ** The WAV64 writer of the converter *)

Module ConvWav64Facts.
Import Binout BinoutFacts Wav64 Wav64Facts ConvWav64.

(** *** The loop of a VADPCM waveform *)

Lemma copy_loop_steps (wav : wav_data_t) (k : nat) :
  0 <= loopOffset wav * channels wav ->
  (Z.to_nat (loopOffset wav * channels wav) < List.length (samples wav))%nat ->
  exists ext,
    List.length ext = k /\
    foldl (fun acc i =>
             l ← acc;
             _ ← assertf (0 <=? loopOffset wav * channels wav);
             v ← l !! (Z.to_nat (loopOffset wav * channels wav) + i)%nat;
             Some (l ++ [v]))
          (Some (samples wav)) (seq 0 k) = Some (samples wav ++ ext) /\
    forall i, (i < k)%nat ->
      (samples wav ++ ext) !! (List.length (samples wav) + i)%nat
      = (samples wav ++ ext) !! (Z.to_nat (loopOffset wav * channels wav) + i)%nat.
Proof.
  intros H0 Hlo. set (lo := Z.to_nat (loopOffset wav * channels wav)) in *.
  induction k as [|k (ext & Hlen & Hf & Hinv)].
  - exists []. split; [reflexivity|]. split; [rewrite app_nil_r; reflexivity|].
    intros i Hi. lia.
  - assert (Hv : is_Some ((samples wav ++ ext) !! (lo + k)%nat)).
    { apply lookup_lt_is_Some. rewrite length_app. lia. }
    destruct Hv as [v Hv].
    exists (ext ++ [v]). split; [rewrite length_app; simpl; lia|].
    split.
    + rewrite seq_S, foldl_app, Hf. change (0 + k)%nat with k. cbn [foldl mbind option_bind].
      destruct (Z.leb_spec 0 (loopOffset wav * channels wav)) as [_|?]; [|lia].
      cbn [assertf mbind option_bind]. rewrite Hv. cbn [mbind option_bind].
      rewrite <- app_assoc. reflexivity.
    + intros i Hi. rewrite !app_assoc.
      destruct (decide (i = k)) as [->|Hne].
      * rewrite (lookup_app_l _ [v] (lo + k)) by (rewrite length_app; lia).
        rewrite Hv. rewrite lookup_app_r by (rewrite length_app; lia).
        rewrite length_app, Hlen.
        replace (List.length (samples wav) + k - (List.length (samples wav) + k))%nat
          with 0%nat by lia.
        reflexivity.
      * rewrite !(lookup_app_l _ [v]) by (rewrite length_app; lia).
        apply Hinv. lia.
Qed.

(** X22.  The loop of a waveform written as VADPCM starts on a 32-frame
    boundary.  For a looping waveform whose loop is not empty, the first
    step of [wav64_write] moves the loop start forward to the next
    multiple of 32 frames, by less than 32, and lengthens the waveform by
    as much, so that the loop keeps its length; the samples that were
    there stay, and each frame added repeats the frame one loop length
    before it, so the waveform sounds as before.  The sample size becomes
    16 bits. *)
Theorem vadpcm_loop_aligned (wav : wav_data_t) :
  looping wav = true ->
  0 <= loopOffset wav < cnt wav -> 0 < channels wav ->
  List.length (samples wav) = Z.to_nat (cnt wav * channels wav) ->
  exists wav',
    adjust_loop wav 1 (initial_loop_len wav)
      = Some (wav', cnt wav - loopOffset wav) /\
    Z.rem (loopOffset wav') 32 = 0 /\
    loopOffset wav <= loopOffset wav' < loopOffset wav + 32 /\
    cnt wav' - loopOffset wav' = cnt wav - loopOffset wav /\
    bitsPerSample wav' = 16 /\ channels wav' = channels wav /\
    List.length (samples wav') = Z.to_nat (cnt wav' * channels wav') /\
    (forall i : nat, (i < List.length (samples wav))%nat ->
       samples wav' !! i = samples wav !! i) /\
    (forall j : nat,
       cnt wav * channels wav <= Z.of_nat j < cnt wav' * channels wav' ->
       samples wav' !! j
       = samples wav' !! (j - Z.to_nat ((cnt wav - loopOffset wav) * channels wav))%nat).
Proof.
  intros Hl Hoff Hch Hlen.
  assert (Hini : initial_loop_len wav = cnt wav - loopOffset wav).
  { unfold initial_loop_len. rewrite Hl.
    destruct (Z.ltb_spec (cnt wav - loopOffset wav) 0); [lia | reflexivity]. }
  unfold adjust_loop. change (1 =? 0) with false. change (1 =? 1) with true.
  cbv iota. rewrite Hl, Hini. cbn [andb].
  destruct (Z.eqb_spec (Z.rem (loopOffset wav) 32) 0) as [E|E]; cbn [negb].
  - cbn [mbind option_bind]. eexists. split; [reflexivity|]. cbn.
    repeat split; try lia; try assumption.
  - assert (Hr : 0 < Z.rem (loopOffset wav) 32 < 32).
    { pose proof (Z.rem_bound_pos (loopOffset wav) 32 ltac:(lia) ltac:(lia)). lia. }
    set (ncopy := 32 - Z.rem (loopOffset wav) 32) in *.
    assert (Hlo : (Z.to_nat (loopOffset wav * channels wav)
                   < List.length (samples wav))%nat) by (rewrite Hlen; nia).
    destruct (copy_loop_steps wav (Z.to_nat (ncopy * channels wav)) ltac:(nia) Hlo)
      as (ext & Hext & Hf & Hinv).
    unfold copy_loop_start. rewrite Hf. cbn [mbind option_bind].
    eexists. split.
    { f_equal. f_equal. lia. }
    cbn [loopOffset cnt bitsPerSample channels samples].
    split.
    { rewrite Z.rem_mod_nonneg by lia. subst ncopy.
      rewrite Z.rem_mod_nonneg by lia.
      replace (loopOffset wav + (32 - loopOffset wav mod 32))
        with (loopOffset wav - loopOffset wav mod 32 + 1 * 32) by lia.
      rewrite Z.mod_add by lia.
      rewrite (Z.div_mod (loopOffset wav) 32) at 1 by lia.
      replace (32 * (loopOffset wav / 32) + loopOffset wav mod 32 - loopOffset wav mod 32)
        with ((loopOffset wav / 32) * 32) by lia.
      apply Z.mod_mul. lia. }
    split; [lia|]. split; [lia|]. split; [reflexivity|]. split; [reflexivity|].
    split; [rewrite length_app, Hext, Hlen; nia|].
    split.
    { intros i Hi. apply lookup_app_l. exact Hi. }
    intros j Hj.
    specialize (Hinv (j - List.length (samples wav))%nat ltac:(rewrite Hlen; nia)).
    replace (List.length (samples wav) + (j - List.length (samples wav)))%nat
      with j in Hinv by (rewrite Hlen; nia).
    rewrite Hinv. f_equal. rewrite Hlen. nia.
Qed.

Lemma vadpcm_loop_aligned_witness :
  exists wav',
    adjust_loop late_loop 1 (initial_loop_len late_loop)
      = Some (wav', cnt late_loop - loopOffset late_loop) /\
    Z.rem (loopOffset wav') 32 = 0 /\
    loopOffset late_loop <= loopOffset wav' < loopOffset late_loop + 32 /\
    cnt wav' - loopOffset wav' = cnt late_loop - loopOffset late_loop /\
    bitsPerSample wav' = 16 /\ channels wav' = channels late_loop /\
    List.length (samples wav') = Z.to_nat (cnt wav' * channels wav') /\
    (forall i : nat, (i < List.length (samples late_loop))%nat ->
       samples wav' !! i = samples late_loop !! i) /\
    (forall j : nat,
       cnt late_loop * channels late_loop <= Z.of_nat j < cnt wav' * channels wav' ->
       samples wav' !! j
       = samples wav' !! (j - Z.to_nat ((cnt late_loop - loopOffset late_loop)
                                         * channels late_loop))%nat).
Proof.
  apply (vadpcm_loop_aligned late_loop); [reflexivity | simpl; lia | simpl; lia
                                          | reflexivity].
Defined.

(** *** The raw format: what is written is what is loaded *)

Lemma put_bytes_eof bs : forall d, put_bytes (eof d) bs = eof (d ++ bs).
Proof.
  induction bs as [|b bs IH]; intros d.
  - unfold put_bytes. simpl. rewrite app_nil_r. reflexivity.
  - rewrite put_bytes_cons.
    assert (E : fputc b (eof d) = eof (d ++ [b])).
    { unfold fputc, eof. cbn [data fpos]. rewrite Nat2Z.id, Nat.ltb_irrefl, Nat.sub_diag.
      cbn [repeat app]. f_equal. rewrite length_app. simpl. lia. }
    rewrite E, IH, <- app_assoc. reflexivity.
Qed.

Lemma put_bytes_inside bs : forall d (p : nat),
  (p + List.length bs <= List.length d)%nat ->
  put_bytes (mk_file d (Z.of_nat p)) bs
  = mk_file (take p d ++ bs ++ drop (p + List.length bs) d)
            (Z.of_nat (p + List.length bs)).
Proof.
  induction bs as [|b bs IH]; intros d p Hp.
  - unfold put_bytes. simpl. rewrite !Nat.add_0_r, take_drop. reflexivity.
  - rewrite put_bytes_cons. simpl List.length in *.
    assert (E : fputc b (mk_file d (Z.of_nat p))
                = mk_file (<[p := b]> d) (Z.of_nat (S p))).
    { unfold fputc. cbn [data fpos]. rewrite Nat2Z.id.
      destruct (Nat.ltb_spec p (List.length d)); [|lia]. f_equal. lia. }
    rewrite E, IH by (rewrite length_insert; lia).
    f_equal; [|f_equal; lia].
    rewrite (take_S_r _ _ b) by (apply list_lookup_insert_eq; lia).
    rewrite take_insert_ge by lia.
    rewrite drop_insert_lt by lia.
    replace (p + S (List.length bs))%nat with (S p + List.length bs)%nat by lia.
    rewrite <- app_assoc. reflexivity.
Qed.

Lemma w_eof bits vbits d v :
  bits = 8 \/ bits = 16 \/ bits = 32 \/ bits = 64 ->
  0 <= v < 2 ^ bits ->
  exists bs, w bits vbits (eof d) v = Some (eof (d ++ bs)) /\
    List.length bs = Z.to_nat (bits / 8) /\ be_value bs = v.
Proof.
  intros Hb Hv.
  destruct (_w_put_bytes bits (eof d) v Hb Hv) as (bs & Hw & Hlen & Hval & _).
  exists bs. unfold w. rewrite wconv_fits
    by (destruct Hb as [-> | [-> | [-> | ->]]]; lia).
  cbn [mbind option_bind]. rewrite Hw, put_bytes_eof. auto.
Qed.

Lemma w32_at_inside vbits d (p : nat) v :
  (p + 4 <= List.length d)%nat -> 0 <= v < 2 ^ 32 ->
  exists bs, w_at 32 vbits (eof d) (Z.of_nat p) v
             = Some (eof (take p d ++ bs ++ drop (p + 4) d)) /\
    List.length bs = 4%nat /\ be_value bs = v.
Proof.
  intros Hp Hv.
  destruct (_w_put_bytes 32 (fseek (eof d) (Z.of_nat p)) v ltac:(tauto) Hv)
    as (bs & Hw & Hlen & Hval & _).
  change (Z.to_nat (32 / 8)) with 4%nat in Hlen.
  exists bs. unfold w_at. rewrite wconv_fits by lia.
  cbn [mbind option_bind]. unfold ftell. change (fpos (eof d)) with (Z.of_nat (List.length d)).
  destruct (Z.geb_spec (Z.of_nat (List.length d)) 0) as [_|?]; [|lia].
  cbn [assertf mbind option_bind]. rewrite Hw.
  unfold fseek, eof. cbn [data fpos]. rewrite put_bytes_inside by lia.
  cbn [data]. rewrite Hlen. split; [|auto].
  do 2 f_equal. rewrite !length_app, length_take, length_drop, Hlen. lia.
Qed.

Lemma one_byte bs v : List.length bs = 1%nat -> be_value bs = v -> bs = [v].
Proof.
  destruct bs as [|x [|]]; try discriminate. intros _ <-.
  unfold be_value. simpl. reflexivity.
Qed.

Lemma names_differ (outfn : string) :
  (outfn ++ "/samples")%string <> (outfn ++ "/state_size")%string.
Proof.
  induction outfn as [|c outfn IH]; simpl.
  - discriminate.
  - intros H. injection H as H. exact (IH H).
Qed.

Lemma byte_range x : 0 <= Z.land x 0xFF < 256.
Proof.
  change 0xFF with (Z.ones 8). rewrite Z.land_ones by lia.
  apply Z.mod_pos_bound. lia.
Qed.

Lemma swap16_bytes v :
  host_bytes (swap16 v) = [Z.land (Z.shiftr v 8) 0xFF; Z.land v 0xFF].
Proof.
  unfold host_bytes, swap16.
  rewrite Z.shiftr_land. change (Z.shiftr 0xFF00 8) with 0xFF.
  pose proof (byte_range (Z.shiftr v 8)) as Hhi. pose proof (byte_range v) as Hlo.
  set (hi := Z.land (Z.shiftr v 8) 0xFF) in *. set (lo := Z.land v 0xFF) in *.
  rewrite Z.lor_comm, (XmLoaderFacts.lor_shiftl_add lo hi 8) by lia.
  change (2 ^ 8) with 256.
  assert (E : exists k, to_int16 (lo * 256 + hi) = hi + (lo + k * 256) * 256).
  { unfold to_int16, to_uint. change (2 ^ 16) with 65536.
    rewrite Z.mod_small by lia.
    destruct (lo * 256 + hi <? 32768); [exists 0 | exists (-1)]; lia. }
  destruct E as [k ->].
  change 0xFF with (Z.ones 8). rewrite !Z.land_ones by lia.
  rewrite Z.shiftr_div_pow2 by lia. change (2 ^ 8) with 256.
  rewrite Z.mod_add by lia. rewrite Z.div_add by lia.
  rewrite (Z.mod_small hi) by lia. rewrite (Z.div_small hi) by lia.
  rewrite Z.add_0_l, Z.mod_add by lia. rewrite (Z.mod_small lo) by lia.
  reflexivity.
Qed.

Lemma swap_sample_bytes bits v :
  take (if bits =? 8 then 1 else 2) (host_bytes (swap16 v)) = sample_bytes bits v.
Proof.
  rewrite swap16_bytes. unfold sample_bytes. destruct (bits =? 8); reflexivity.
Qed.

Lemma write_samples_steps (wav : wav_data_t) (d : list Z) (k : nat) :
  (k <= List.length (samples wav))%nat ->
  exists smp,
    foldl (fun acc i =>
             '(f, smp) ← acc;
             v ← smp !! i;
             let v := swap16 v in
             Some (put_bytes f
                     (take (if bitsPerSample wav =? 8 then 1 else 2) (host_bytes v)),
                   <[i := v]> smp))
          (Some (eof d, samples wav)) (seq 0 k)
    = Some (eof (d ++ flat_map (sample_bytes (bitsPerSample wav))
                        (take k (samples wav))), smp) /\
    List.length smp = List.length (samples wav) /\
    forall i : nat, (k <= i)%nat -> smp !! i = samples wav !! i.
Proof.
  induction k as [|k IH]; intros Hk.
  - exists (samples wav). cbn [seq foldl take flat_map]. rewrite app_nil_r. auto.
  - destruct (IH ltac:(lia)) as (smp & Hf & Hlen & Hrest).
    destruct (lookup_lt_is_Some_2 (samples wav) k ltac:(lia)) as [v Hv].
    exists (<[k := swap16 v]> smp).
    split; [|split].
    + rewrite seq_S, foldl_app, Hf. change (0 + k)%nat with k.
      cbn [foldl mbind option_bind]. rewrite (Hrest k) by lia. rewrite Hv.
      cbn [mbind option_bind]. rewrite swap_sample_bytes, put_bytes_eof.
      rewrite (take_S_r _ _ v Hv), flat_map_app. cbn [flat_map].
      rewrite app_nil_r, app_assoc. reflexivity.
    + rewrite length_insert. exact Hlen.
    + intros i Hi. rewrite list_lookup_insert_ne by lia. apply Hrest. lia.
Qed.

Lemma land1_odd ll : negb (Z.land ll 1 =? 0) = Z.odd ll.
Proof.
  rewrite land_1_mod2, Zodd_mod.
  destruct (Z.eqb_spec (ll mod 2) 0) as [->|Hn]; [reflexivity|].
  pose proof (Z.mod_pos_bound ll 2 ltac:(lia)).
  assert (ll mod 2 = 1) as -> by lia. reflexivity.
Qed.

Lemma adjust_loop_raw (wav : wav_data_t) :
  exists off,
    adjust_loop wav 0 (initial_loop_len wav)
    = Some (mk_wav (samples wav) (cnt wav) (channels wav) (bitsPerSample wav)
              (sampleRate wav) (looping wav) off, raw_loop_len wav).
Proof.
  unfold adjust_loop, raw_loop_len. change (0 =? 0) with true. cbv iota zeta.
  rewrite land1_odd.
  destruct (Z.odd (initial_loop_len wav) && (bitsPerSample wav =? 8)).
  - eexists. reflexivity.
  - exists (loopOffset wav). destruct wav; reflexivity.
Qed.

Lemma raw_loop_len_range (wav : wav_data_t) :
  0 <= cnt wav -> 0 <= loopOffset wav ->
  0 <= raw_loop_len wav <= cnt wav /\
  (bitsPerSample wav = 8 -> Z.even (raw_loop_len wav) = true).
Proof.
  intros Hc Ho. unfold raw_loop_len. cbv zeta.
  assert (Hi : 0 <= initial_loop_len wav <= cnt wav).
  { unfold initial_loop_len.
    destruct (looping wav); cbv zeta;
      match goal with |- context [?a <? 0] => destruct (Z.ltb_spec a 0) end; lia. }
  destruct (Z.odd (initial_loop_len wav)) eqn:Eo; cbn [andb].
  - destruct (Z.eqb_spec (bitsPerSample wav) 8) as [E|E].
    + split.
      * assert (initial_loop_len wav <> 0) by (intros E0; rewrite E0 in Eo; discriminate).
        lia.
      * intros _. rewrite Z.even_sub, <- Z.negb_odd, Eo. reflexivity.
    + split; [lia | intros; contradiction].
  - split; [lia|]. intros _. rewrite <- Z.negb_odd, Eo. reflexivity.
Qed.

Lemma placeholder32_fresh (name : string) (D : list Z)
    (h : gmap string placeholder_data) :
  h !! name = None ->
  exists z,
    __w32_placeholder_named (mk_state (eof D) h) name
    = Some (mk_state (eof (D ++ z))
              (<[name := mk_pd (-1) [] [Z.of_nat (List.length D)] [] []]> h)) /\
    List.length z = 4%nat /\ be_value z = 0.
Proof.
  intros Hn. destruct (w_eof 32 32 D 0) as (z & Hw & Hl & Hv); [tauto | simpl; lia |].
  exists z. split; [|auto].
  unfold __w32_placeholder_named, __w_placeholder_named, __placeholder_get_data.
  cbn [placeholder_hash file]. rewrite Hn. cbn [offset].
  change (-1 =? -1) with true. cbv iota. rewrite Hw. reflexivity.
Qed.

Lemma placeholder32_set (name : string) (D : list Z)
    (h : gmap string placeholder_data) (p : nat) (off : Z) :
  h !! name = Some (mk_pd (-1) [] [Z.of_nat p] [] []) ->
  (p + 4 <= List.length D)%nat -> 0 <= off < 2 ^ 32 ->
  exists bs,
    placeholder_set_offset (mk_state (eof D) h) off name
    = Some (mk_state (eof (take p D ++ bs ++ drop (p + 4) D))
              (<[name := mk_pd off [] [] [] []]> h)) /\
    List.length bs = 4%nat /\ be_value bs = off.
Proof.
  intros Hn Hp Hoff.
  destruct (w32_at_inside 64 D p off Hp Hoff) as (bs & Hw & Hl & Hv).
  exists bs. split; [|auto].
  unfold placeholder_set_offset, __placeholder_make, __placeholder_get_data.
  cbn [placeholder_hash file]. rewrite Hn.
  cbn [pending_offsets_64 pending_offsets_32 pending_offsets_16 pending_offsets_8].
  unfold patch_all. cbn [foldl mbind option_bind]. rewrite Hw. reflexivity.
Qed.

Ltac step_w Hl Hv :=
  match goal with
  | |- context [w ?b ?vb (eof ?d) ?v] =>
      let bs := fresh "bs" in
      let Hw := fresh "Hw" in
      destruct (w_eof b vb d v) as (bs & Hw & Hl & Hv);
      [tauto | simpl; lia | rewrite Hw; clear Hw; cbn [mbind option_bind]]
  end.

Section Raw.
Variable write_compressed :
  Z -> string -> Z -> state -> wav_data_t -> option (state * wav_data_t * bool).

Lemma raw_written (outfn : string) (d : list Z)
    (h : gmap string placeholder_data) (wav : wav_data_t) :
  h !! (outfn ++ "/samples")%string = None ->
  h !! (outfn ++ "/state_size")%string = None ->
  0 <= channels wav < 128 -> 0 <= bitsPerSample wav < 128 ->
  0 <= sampleRate wav < 2 ^ 31 -> 0 <= cnt wav < 2 ^ 31 ->
  0 <= loopOffset wav ->
  (Z.to_nat (cnt wav * channels wav) <= List.length (samples wav))%nat ->
  exists r c l o z h' wav',
    wav64_write write_compressed outfn (mk_state (eof d) h) wav 0
    = Some (true,
            mk_state
              (eof (d ++ (WV64 ++ [4; 0; channels wav; bitsPerSample wav]
                          ++ r ++ c ++ l ++ o ++ z)
                      ++ flat_map (sample_bytes (bitsPerSample wav))
                           (take (Z.to_nat (cnt wav * channels wav)) (samples wav))))
              h', wav') /\
    List.length r = 4%nat /\ be_value r = sampleRate wav /\
    List.length c = 4%nat /\ be_value c = cnt wav /\
    List.length l = 4%nat /\ be_value l = raw_loop_len wav /\
    List.length o = 4%nat /\ be_value o = 28 /\
    List.length z = 4%nat /\ be_value z = 0.
Proof.
  intros Hn1 Hn2 Hch Hbits Hrate Hcnt Hoff Hsmp.
  destruct (raw_loop_len_range wav ltac:(lia) Hoff) as [Hll _].
  unfold wav64_write. destruct (adjust_loop_raw wav) as [off ->].
  cbn [mbind option_bind file placeholder_hash channels bitsPerSample sampleRate
       cnt samples looping loopOffset].
  rewrite put_bytes_eof.
  step_w L1 V1. step_w L2 V2. step_w L3 V3. step_w L4 V4.
  step_w L5 V5. step_w L6 V6. step_w L7 V7.
  apply one_byte in V1; [|exact L1]. apply one_byte in V2; [|exact L2].
  apply one_byte in V3; [|exact L3]. apply one_byte in V4; [|exact L4].
  subst. clear L1 L2 L3 L4.
  change (Z.to_nat (32 / 8)) with 4%nat in *.
  set (D0 := (_ ++ bs5)).
  destruct (placeholder32_fresh (outfn ++ "/samples") D0 h Hn1)
    as (o0 & -> & Lo0 & _).
  cbn [mbind option_bind].
  destruct (placeholder32_fresh (outfn ++ "/state_size") (D0 ++ o0)
              (<[(outfn ++ "/samples")%string :=
                   mk_pd (-1) [] [Z.of_nat (List.length D0)] [] []]> h))
    as (z0 & -> & Lz0 & _).
  { rewrite lookup_insert_ne by apply names_differ. exact Hn2. }
  cbn [mbind option_bind]. change (0 =? 0) with true. cbv iota.
  match goal with |- context [placeholder_set_offset (mk_state (eof ?D) ?hh) 0 ?n] =>
    destruct (placeholder32_set n D hh (List.length (D0 ++ o0)) 0)
      as (z & -> & Lz & Vz)
  end.
  { apply lookup_insert_eq. }
  { rewrite !length_app. lia. }
  { simpl; lia. }
  cbn [mbind option_bind file].
  rewrite take_app_length.
  rewrite (drop_app_add' _ _ (List.length (D0 ++ o0)) 4) by reflexivity.
  rewrite (drop_ge z0 4) by lia.
  assert (Hlen0 : List.length D0 = (List.length d + 20)%nat).
  { subst D0. rewrite !length_app, L5, L6, L7. simpl. lia. }
  assert (Hpos : ftell (eof ((D0 ++ o0) ++ z ++ [])) - ftell (eof d) = 28).
  { unfold ftell, eof. cbn [fpos]. rewrite !length_app, Hlen0, Lo0, Lz. simpl. lia. }
  rewrite Hpos.
  match goal with |- context [placeholder_set_offset (mk_state (eof ?D) ?hh) 28 ?n] =>
    destruct (placeholder32_set n D hh (List.length D0) 28)
      as (o & -> & Lo & Vo)
  end.
  { rewrite lookup_insert_ne by (intros E; symmetry in E; revert E; apply names_differ).
    rewrite lookup_insert_ne by (intros E; symmetry in E; revert E; apply names_differ).
    apply lookup_insert_eq. }
  { rewrite !length_app. lia. }
  { simpl; lia. }
  cbn [mbind option_bind file placeholder_hash].
  rewrite <- (app_assoc D0 o0), take_app_length.
  rewrite (drop_app_add' _ _ (List.length D0) 4) by reflexivity.
  rewrite (drop_app_length' o0) by (symmetry; exact Lo0).
  match goal with |- context [write_samples (eof ?D) ?W] =>
    destruct (write_samples_steps W D (Z.to_nat (cnt wav * channels wav)) Hsmp)
      as (smp & Hws & _ & _);
    unfold write_samples; cbn [samples cnt channels bitsPerSample] in Hws |- *;
    rewrite Hws; clear Hws
  end.
  cbn [mbind option_bind].
  exists bs3, bs4, bs5, o, z. eexists. eexists.
  split.
  { do 3 f_equal. f_equal. subst D0. rewrite app_nil_r.
    rewrite <- !app_assoc. reflexivity. }
  repeat split; assumption.
Qed.

Lemma as_signed_small (n v : Z) : 0 <= v < 2 ^ (n - 1) -> as_signed n v = v.
Proof.
  intros Hv. unfold as_signed.
  destruct (Z.ltb_spec v (2 ^ (n - 1))); [reflexivity | lia].
Qed.

(** X23.  A raw WAV64 written by the converter is the file the player
    expects.  For a waveform whose attributes fit their header fields,
    written at the end of the output under a name not used before,
    [wav64_write] with format 0 returns and reports success; it leaves
    what was in the output before as it was and adds the 28 bytes of the
    header and then, for each sample, its high byte (and for 16 bits per
    sample its low byte).  [wav64_open] accepts what was added: the
    waveform it gives has the channels, sample size, frequency and length
    of the source, is read by the raw codec with no state and with samples
    that begin at offset 28, and has the loop length of the source made
    even for 8-bit samples. *)
Theorem raw_file_loads (outfn fn : string) (s : state) (wav : wav_data_t)
    (wd : world) (e : open_env) :
  fpos (file s) = Z.of_nat (List.length (data (file s))) ->
  placeholder_hash s !! (outfn ++ "/samples")%string = None ->
  placeholder_hash s !! (outfn ++ "/state_size")%string = None ->
  0 <= channels wav < 128 -> 0 <= bitsPerSample wav < 128 ->
  0 <= sampleRate wav < 2 ^ 31 -> 0 <= cnt wav < 2 ^ 31 ->
  0 <= loopOffset wav ->
  (Z.to_nat (cnt wav * channels wav) <= List.length (samples wav))%nat ->
  heap wd !! heap_addr e = None ->
  exists s' wav' wd' wv st1,
    wav64_write write_compressed outfn s wav 0 = Some (true, s', wav') /\
    take (List.length (data (file s))) (data (file s')) = data (file s) /\
    drop (List.length (data (file s)) + 28) (data (file s'))
      = flat_map (sample_bytes (bitsPerSample wav))
          (take (Z.to_nat (cnt wav * channels wav)) (samples wav)) /\
    wav64_open wd e fn (drop (List.length (data (file s))) (data (file s')))
      = Some (wd', wv) /\
    Wav64.channels (wave wv) = channels wav /\
    bits (wave wv) = bitsPerSample wav /\
    frequency (wave wv) = sampleRate wav /\
    len (wave wv) = cnt wav /\
    loop_len (wave wv) = raw_loop_len wav /\
    (bitsPerSample wav = 8 -> Z.even (loop_len (wave wv)) = true) /\
    state_size (wave wv) = 0 /\
    read (wave wv) = Some wav64_none_read /\
    heap wd' !! heap_addr e = Some (StateBlock st1) /\
    format st1 = WAV64_FORMAT_RAW /\ base_offset st1 = 28.
Proof.
  intros Hend Hn1 Hn2 Hch Hbits Hrate Hcnt Hoff Hsmp Hfresh.
  destruct s as [[d p] h]. cbn [file data fpos placeholder_hash] in *. subst p.
  change (mk_file d (Z.of_nat (List.length d))) with (eof d).
  destruct (raw_written outfn d h wav Hn1 Hn2 Hch Hbits Hrate Hcnt Hoff Hsmp)
    as (r & c & l & o & z & h' & wav' & Hw & Lr & Vr & Lc & Vc & Ll & Vl
        & Lo & Vo & Lz & Vz).
  destruct (raw_loop_len_range wav ltac:(lia) Hoff) as [Hll Heven].
  set (S := flat_map _ _) in *.
  destruct r as [|r0 [|r1 [|r2 [|r3 [|]]]]]; try discriminate.
  destruct c as [|c0 [|c1 [|c2 [|c3 [|]]]]]; try discriminate.
  destruct l as [|l0 [|l1 [|l2 [|l3 [|]]]]]; try discriminate.
  destruct o as [|o0 [|o1 [|o2 [|o3 [|]]]]]; try discriminate.
  destruct z as [|z0 [|z1 [|z2 [|z3 [|]]]]]; try discriminate.
  set (HDR := WV64 ++ _) in Hw.
  assert (Hh : read_header (HDR ++ S)
               = mk_header WAV64_ID (as_signed 8 4) (as_signed 8 0)
                   (as_signed 8 (channels wav)) (as_signed 8 (bitsPerSample wav))
                   (as_signed 32 (be_value [r0; r1; r2; r3]))
                   (as_signed 32 (be_value [c0; c1; c2; c3]))
                   (as_signed 32 (be_value [l0; l1; l2; l3]))
                   (be_value [o0; o1; o2; o3]) (be_value [z0; z1; z2; z3]))
    by reflexivity.
  rewrite Vr, Vc, Vl, Vo, Vz in Hh.
  rewrite !as_signed_small in Hh by (simpl; lia).
  set (st1 := mk_wav64_state WAV64_FORMAT_RAW (Some (ext_of (HDR ++ S)))
                (ext_ptr (ext_of (HDR ++ S)) 4) (ext_ptr (ext_of (HDR ++ S)) 12)
                None (new_fd e) (28 + 0) WAV64_FLAG_OWNED_FD).
  eexists _, wav', _, _, st1.
  split; [exact Hw|]. unfold eof. cbn [file data].
  split; [apply take_app_length|].
  split.
  { rewrite app_assoc.
    apply (drop_app_length' (d ++ HDR)). rewrite length_app. reflexivity. }
  rewrite drop_app_length.
  unfold wav64_open, internal_open. cbv zeta. rewrite Hh.
  cbn [h_id h_version h_format h_channels h_nbits h_freq h_len h_loop_len
       h_start_offset h_state_size].
  rewrite bool_decide_eq_true_2 by reflexivity.
  change (4 =? 4) with true.
  change (0 <? WAV64_NUM_FORMATS) with true.
  change (0 <? 0) with false.
  change (algo_registered wd 0) with true.
  cbn [assertf mbind option_bind].
  unfold alloc. change (-1 <? 0) with true. cbv iota. rewrite Hfresh.
  cbn [mbind option_bind].
  unfold algo_init. cbn [format]. change (0 =? WAV64_FORMAT_RAW) with true.
  cbv iota. cbn [mbind option_bind].
  change (WAV64_STREAMING_FULL =? WAV64_STREAMING_NONE) with false. cbv iota.
  split; [reflexivity|].
  cbn [wave Wav64.channels bits frequency len loop_len state_size read heap].
  repeat split; try reflexivity.
  - exact Heven.
  - rewrite lookup_insert_eq. reflexivity.
Qed.

(** The header [wav64_write] writes for the raw format, as the loader
    reads it. *)
Lemma raw_header (outfn : string) (d : list Z)
    (h : gmap string placeholder_data) (wav : wav_data_t) :
  h !! (outfn ++ "/samples")%string = None ->
  h !! (outfn ++ "/state_size")%string = None ->
  0 <= channels wav < 128 -> 0 <= bitsPerSample wav < 128 ->
  0 <= sampleRate wav < 2 ^ 31 -> 0 <= cnt wav < 2 ^ 31 ->
  0 <= loopOffset wav ->
  (Z.to_nat (cnt wav * channels wav) <= List.length (samples wav))%nat ->
  exists s' wav',
    wav64_write write_compressed outfn (mk_state (eof d) h) wav 0
      = Some (true, s', wav') /\
    read_header (drop (List.length d) (data (file s')))
      = mk_header WAV64_ID 4 0 (channels wav) (bitsPerSample wav)
          (sampleRate wav) (cnt wav) (raw_loop_len wav) 28 0.
Proof.
  intros Hn1 Hn2 Hch Hbits Hrate Hcnt Hoff Hsmp.
  destruct (raw_written outfn d h wav Hn1 Hn2 Hch Hbits Hrate Hcnt Hoff Hsmp)
    as (r & c & l & o & z & h' & wav' & Hw & Lr & Vr & Lc & Vc & Ll & Vl
        & Lo & Vo & Lz & Vz).
  destruct (raw_loop_len_range wav ltac:(lia) Hoff) as [Hll _].
  set (S := flat_map _ _) in *.
  destruct r as [|r0 [|r1 [|r2 [|r3 [|]]]]]; try discriminate.
  destruct c as [|c0 [|c1 [|c2 [|c3 [|]]]]]; try discriminate.
  destruct l as [|l0 [|l1 [|l2 [|l3 [|]]]]]; try discriminate.
  destruct o as [|o0 [|o1 [|o2 [|o3 [|]]]]]; try discriminate.
  destruct z as [|z0 [|z1 [|z2 [|z3 [|]]]]]; try discriminate.
  set (HDR := WV64 ++ _) in Hw.
  assert (Hh : read_header (HDR ++ S)
               = mk_header WAV64_ID (as_signed 8 4) (as_signed 8 0)
                   (as_signed 8 (channels wav)) (as_signed 8 (bitsPerSample wav))
                   (as_signed 32 (be_value [r0; r1; r2; r3]))
                   (as_signed 32 (be_value [c0; c1; c2; c3]))
                   (as_signed 32 (be_value [l0; l1; l2; l3]))
                   (be_value [o0; o1; o2; o3]) (be_value [z0; z1; z2; z3]))
    by reflexivity.
  rewrite Vr, Vc, Vl, Vo, Vz in Hh.
  rewrite !as_signed_small in Hh by (simpl; lia).
  eexists _, wav'. split; [exact Hw|].
  unfold eof. cbn [file data]. rewrite drop_app_length. exact Hh.
Qed.

(** C3 (amended).  Loading keeps the loop length of the header, whatever
    the sample size.  The loop of an 8-bit waveform is made even
    elsewhere: by [wav64_set_loop], which sets the loop to the whole
    length, or to no loop, less one frame when the waveform has 8 bits
    and that length is odd; and by the converter, whose [wav64_write]
    for the raw format takes one frame off an odd loop of an 8-bit
    waveform (moving the loop start one frame on) and writes that length
    in the header the loader reads. *)
Theorem loader_keeps_loop_len (w : world) (e : open_env) (fh : Z) (fn : string)
    (content : list Z) (smode : Z) (w' : world) (wav : wav64_t)
    (outfn : string) (s : state) (wv : wav_data_t) :
  internal_open w e fh fn content smode = Some (w', wav) ->
  loop_len (wave wav) = h_loop_len (read_header content) /\
  (forall loop : bool,
     loop_len (wave (wav64_set_loop wav loop)) =
       (let ll := if loop then h_len (read_header content) else 0 in
        if (h_nbits (read_header content) =? 8) && Z.odd ll then ll - 1 else ll) /\
     (h_nbits (read_header content) = 8 ->
      Z.even (loop_len (wave (wav64_set_loop wav loop))) = true)) /\
  (exists off,
     adjust_loop wv 0 (initial_loop_len wv) =
       Some (mk_wav (samples wv) (cnt wv) (channels wv) (bitsPerSample wv)
               (sampleRate wv) (looping wv) off,
             let ll := initial_loop_len wv in
             if Z.odd ll && (bitsPerSample wv =? 8) then ll - 1 else ll) /\
     off = (if Z.odd (initial_loop_len wv) && (bitsPerSample wv =? 8)
            then loopOffset wv + 1 else loopOffset wv)) /\
  (fpos (file s) = Z.of_nat (List.length (data (file s))) ->
   placeholder_hash s !! (outfn ++ "/samples")%string = None ->
   placeholder_hash s !! (outfn ++ "/state_size")%string = None ->
   0 <= channels wv < 128 -> 0 <= bitsPerSample wv < 128 ->
   0 <= sampleRate wv < 2 ^ 31 -> 0 <= cnt wv < 2 ^ 31 ->
   0 <= loopOffset wv ->
   (Z.to_nat (cnt wv * channels wv) <= List.length (samples wv))%nat ->
   exists s' wv',
     wav64_write write_compressed outfn s wv 0 = Some (true, s', wv') /\
     let written := drop (List.length (data (file s))) (data (file s')) in
     h_nbits (read_header written) = bitsPerSample wv /\
     h_loop_len (read_header written) =
       (let ll := initial_loop_len wv in
        if Z.odd ll && (bitsPerSample wv =? 8) then ll - 1 else ll) /\
     (bitsPerSample wv = 8 ->
      Z.even (h_loop_len (read_header written)) = true)).
Proof.
  intros H. apply Wav64Facts.internal_open_wave in H as (Hb & Hn & Hl).
  split; [exact Hl|]. split; [|split].
  - intros loop. destruct (Wav64Facts.set_loop_spec wav loop) as [-> _].
    rewrite Hb, Hn. cbv zeta. split; [reflexivity|]. intros ->.
    change (8 =? 8) with true. cbn [andb].
    destruct (Z.odd _) eqn:E; [|rewrite <- Z.negb_odd, E; reflexivity].
    rewrite Z.even_sub, <- Z.negb_odd, E. reflexivity.
  - unfold adjust_loop. change (0 =? 0) with true. cbv iota zeta.
    rewrite land1_odd.
    destruct (Z.odd (initial_loop_len wv) && (bitsPerSample wv =? 8)).
    + eexists. split; reflexivity.
    + exists (loopOffset wv). split; [destruct wv; reflexivity | reflexivity].
  - intros Hend Hn1 Hn2 Hch Hbits Hrate Hcnt Hoff Hsmp.
    destruct s as [[d p] h]. cbn [file data fpos placeholder_hash] in *. subst p.
    change (mk_file d (Z.of_nat (List.length d))) with (eof d).
    destruct (raw_header outfn d h wv Hn1 Hn2 Hch Hbits Hrate Hcnt Hoff Hsmp)
      as (s' & wv' & Hw & Hh).
    destruct (raw_loop_len_range wv ltac:(lia) Hoff) as [_ Heven].
    exists s', wv'. split; [exact Hw|]. cbv zeta. rewrite Hh.
    cbn [h_nbits h_loop_len]. split; [reflexivity|]. split; [reflexivity|].
    exact Heven.
Qed.

End Raw.

Lemma loader_keeps_loop_len_witness :
  match wav64_open quiet env0 "rom:/a.wav64" odd_loop_file with
  | Some (w', wav) =>
      loop_len (wave wav) = 17 /\
      loop_len (wave (wav64_set_loop wav true)) = 16 /\
      exists s' wv',
        wav64_write no_encoder "a.wav64" empty odd_loop 0 = Some (true, s', wv') /\
        h_nbits (read_header (data (file s'))) = 8 /\
        h_loop_len (read_header (data (file s'))) = 2
  | None => False
  end.
Proof.
  destruct (wav64_open quiet env0 "rom:/a.wav64" odd_loop_file)
    as [[w' wav]|] eqn:E; [|vm_compute in E; discriminate].
  unfold wav64_open in E.
  destruct (loader_keeps_loop_len no_encoder _ _ _ _ _ _ _ _
              "a.wav64" empty odd_loop E) as (Hl & Hs & _ & Hc).
  split; [rewrite Hl; reflexivity|].
  split; [destruct (Hs true) as [-> _]; reflexivity|].
  destruct Hc as (s' & wv' & Hw & Hb & Hll & _);
    try reflexivity; try (simpl; lia).
  exists s', wv'. split; [exact Hw|].
  change (drop (List.length (data (file empty))) (data (file s')))
    with (data (file s')) in Hb, Hll.
  split; [rewrite Hb; reflexivity | rewrite Hll; reflexivity].
Defined.

Lemma raw_file_loads_witness :
  exists s' wav' wd' wv st1,
    wav64_write no_encoder "a.wav64" empty odd_loop 0 = Some (true, s', wav') /\
    take (List.length (data (file empty))) (data (file s')) = data (file empty) /\
    drop (List.length (data (file empty)) + 28) (data (file s'))
      = flat_map (sample_bytes (bitsPerSample odd_loop))
          (take (Z.to_nat (cnt odd_loop * channels odd_loop)) (samples odd_loop)) /\
    wav64_open quiet env0 "rom:/a.wav64"
        (drop (List.length (data (file empty))) (data (file s')))
      = Some (wd', wv) /\
    Wav64.channels (wave wv) = channels odd_loop /\
    bits (wave wv) = bitsPerSample odd_loop /\
    frequency (wave wv) = sampleRate odd_loop /\
    len (wave wv) = cnt odd_loop /\
    loop_len (wave wv) = raw_loop_len odd_loop /\
    (bitsPerSample odd_loop = 8 -> Z.even (loop_len (wave wv)) = true) /\
    state_size (wave wv) = 0 /\
    read (wave wv) = Some wav64_none_read /\
    heap wd' !! heap_addr env0 = Some (StateBlock st1) /\
    format st1 = WAV64_FORMAT_RAW /\ base_offset st1 = 28.
Proof.
  apply (raw_file_loads no_encoder "a.wav64" "rom:/a.wav64" empty odd_loop
           quiet env0);
    try reflexivity; try (simpl; lia).
Defined.

End ConvWav64Facts.

(** ** The VADPCM read hook *)

Module VadpcmFacts.
Import SampleBuffer SampleBufferFacts Vadpcm.

(** *** Seeking in a stream without Huffman *)

Section Hook.
Variable huffv : vadpcm_wav -> codec -> Z -> Z -> option codec.

Lemma decode_loop_log fuel : forall wav c s wpos_ wlen hp c' s' wpos' hp',
  is_huffman wav = false ->
  decode_loop huffv fuel wav c s wpos_ wlen hp = Some (c', s', wpos', hp') ->
  exists evs, log c' = log c ++ evs.
Proof.
  induction fuel as [|fuel IH];
    intros wav c s wpos_ wlen hp c' s' wpos' hp' Hnh H; simpl in H.
  - destruct (wlen >? 0); [discriminate|]. injection H as <- _ _ _.
    exists []. rewrite app_nil_r. reflexivity.
  - destruct (wlen >? 0).
    2:{ injection H as <- _ _ _. exists []. rewrite app_nil_r. reflexivity. }
    apply bind_Some in H as ([dest s1] & _ & H). cbv beta iota in H.
    apply bind_Some in H as (c1 & Hc1 & H).
    apply bind_Some in H as (u & _ & H).
    apply IH in H as [evs Hevs]; [|exact Hnh]. rewrite Hevs.
    assert (Hl : exists e1, log c1 = log c ++ e1).
    { rewrite Hnh in Hc1.
      unfold read_file in Hc1. apply bind_Some in Hc1 as (u1 & _ & Hc1).
      injection Hc1 as <-. simpl. eauto. }
    destruct Hl as [e1 He1]. simpl.
    destruct hp; simpl; rewrite He1, <- ?app_assoc; eauto.
Qed.

Lemma decode_loop_done fuel wav c s wpos_ wlen hp :
  wlen <= 0 -> decode_loop huffv fuel wav c s wpos_ wlen hp = Some (c, s, wpos_, hp).
Proof.
  intros Hw. assert (E : (wlen >? 0) = false).
  { rewrite Z.gtb_ltb. apply Z.ltb_ge. lia. }
  destruct fuel; simpl; rewrite E; reflexivity.
Qed.

Lemma decode_loop_step fuel wav c s wpos_ wlen hp :
  0 < wlen ->
  decode_loop huffv (S fuel) wav c s wpos_ wlen hp =
    (let max_vadpcm_frames :=
       if channels wav =? 1 then MAX_VADPCM_FRAMES
       else Z.quot MAX_VADPCM_FRAMES 2 in
     let nframes := MIN (Z.quot wlen 16) max_vadpcm_frames in
     '(dest, s) ← samplebuffer_append s (nframes * 16);
     let src_bytes := 9 * nframes * channels wav in
     c ← (if is_huffman wav then
            huffv wav c (Z.quot wpos_ 16) src_bytes
          else
            let '(c, read_bytes) := read_file wav c src_bytes in
            _ ← assertf (src_bytes =? read_bytes);
            Some c);
     let c := if hp then c else emit c [HighpriBegin] in
     _ ← assertf ((nframes >? 0) && (nframes <=? 256));
     let c := emit c [RspDecompress nframes (channels wav =? 2)] in
     decode_loop huffv fuel wav c s (wpos_ + 16 * nframes) (wlen - 16 * nframes) true).
Proof.
  intros Hw. assert (E : (wlen >? 0) = true) by (apply Z.gtb_lt; lia).
  simpl. rewrite E. reflexivity.
Qed.

Lemma vadpcm_seek_spec wav c wpos_ c1 :
  is_huffman wav = false -> wpos_ <> 0 ->
  vadpcm_seek wav c wpos_ true = Some c1 ->
  exists sp,
    find_skip_point wav wpos_ = Some sp /\
    c1 = mk_codec (base_offset wav + Z.quot wpos_ 16 * 9) (sp_bitpos sp)
           (log c ++ [HighpriBegin; RspCopyState (Some (sp_state sp));
                      Lseek (base_offset wav + Z.quot wpos_ 16 * 9);
                      HighpriEnd]).
Proof.
  intros Hnh Hw H. unfold vadpcm_seek in H.
  apply Z.eqb_neq in Hw. rewrite Hw, Hnh in H.
  destruct (find_skip_point wav wpos_) as [sp|]; [|discriminate].
  simpl in H. injection H as <-. exists sp. split; [reflexivity|].
  unfold emit, lseek, set_bitpos. simpl. rewrite <- !app_assoc. reflexivity.
Qed.

Lemma vadpcm_seek_start wav c :
  vadpcm_seek wav c 0 true
  = Some (mk_codec (base_offset wav) 0
            (log c ++ [HighpriBegin; RspCopyState None;
                       Lseek (base_offset wav); HighpriEnd])).
Proof.
  unfold vadpcm_seek, emit, lseek, set_bitpos. simpl.
  rewrite <- !app_assoc. reflexivity.
Qed.

Lemma vadpcm_seek_unregistered wav c wpos_ :
  wpos_ <> 0 -> find_skip_point wav wpos_ = None ->
  vadpcm_seek wav c wpos_ true = None.
Proof.
  intros Hw Hf. unfold vadpcm_seek. apply Z.eqb_neq in Hw. rewrite Hw, Hf.
  reflexivity.
Qed.

(** What the hook does on a mono stream without Huffman once the seek is
    done, [c1] being the codec the seek left: asked for 16 samples, it
    reads 18 bytes and decodes two frames, and keeps the bit position. *)
Lemma read_hook_decode wav c1 s wpos_ wlen c' s' :
  is_huffman wav = false -> channels wav = 1 ->
  (if ROUND_UP wlen 32 =? 0 then Some (c1, s) else
   match decode_loop huffv (Z.to_nat (ROUND_UP wlen 32)) wav c1 s wpos_
           (ROUND_UP wlen 32) false with
   | None => None
   | Some (c, s, wpos_, highpri) =>
       let c := if highpri : bool then emit c [HighpriEnd] else c in
       if negb (loop_len wav =? 0) && (wpos_ >? len wav) then
         b ← samplebuffer_undo (sb s) (wpos_ - len wav);
         Some (emit c [HighpriSync], mk_sbstate b (mem s))
       else Some (c, s)
   end) = Some (c', s') ->
  exists rest,
    log c' = log c1 ++ rest /\
    (wlen = 16 ->
     bitpos c' = bitpos c1 /\
     exists tail,
       rest = [Read 18; HighpriBegin; RspDecompress 2 false; HighpriEnd] ++ tail
       /\ (tail = [] \/ tail = [HighpriSync])).
Proof.
  intros Hnh Hch H.
  destruct (ROUND_UP wlen 32 =? 0) eqn:E0.
  - injection H as <- <-. exists []. rewrite app_nil_r. split; [reflexivity|].
    intros ->. vm_compute in E0. discriminate.
  - destruct (decode_loop huffv _ wav c1 s wpos_ (ROUND_UP wlen 32) false)
      as [[[[c2 s2] wpos2] hp2]|] eqn:Ed; [|discriminate].
    destruct (decode_loop_log _ _ _ _ _ _ _ _ _ _ _ Hnh Ed) as [evs Hevs].
    assert (Hlog : exists rest, log c' = log c1 ++ rest).
    { destruct (negb (loop_len wav =? 0) && (wpos2 >? len wav)).
      - apply bind_Some in H as (b & _ & H). injection H as <- _.
        destruct hp2; simpl; rewrite Hevs, <- ?app_assoc; eauto.
      - injection H as <- _. destruct hp2; simpl; rewrite Hevs, <- ?app_assoc; eauto. }
    destruct Hlog as [rest Hrest]. exists rest. split; [exact Hrest|].
    intros ->. clear evs Hevs.
    change (ROUND_UP 16 32) with 32 in Ed.
    change (Z.to_nat 32) with (S 31) in Ed.
    rewrite decode_loop_step in Ed by lia. cbv zeta in Ed.
    rewrite Hnh, Hch in Ed.
    change (MIN (Z.quot 32 16) (if 1 =? 1 then MAX_VADPCM_FRAMES
                                  else Z.quot MAX_VADPCM_FRAMES 2)) with 2 in Ed.
    apply bind_Some in Ed as ([dest s1] & _ & Ed). cbv beta iota in Ed.
    apply bind_Some in Ed as (c3 & Hc3 & Ed).
    apply bind_Some in Ed as (u2 & _ & Ed).
    rewrite decode_loop_done in Ed by lia.
    injection Ed as <- <- <- <-.
    unfold read_file in Hc3. apply bind_Some in Hc3 as (u3 & _ & Hc3).
    injection Hc3 as <-.
    destruct (negb (loop_len wav =? 0) && (wpos_ + 16 * 2 >? len wav)).
    + apply bind_Some in H as (b & _ & H). injection H as <- _.
      simpl in Hrest |- *. split; [reflexivity|].
      exists [HighpriSync]. split; [|right; reflexivity].
      rewrite <- !app_assoc in Hrest. apply app_inv_head in Hrest.
      subst rest. reflexivity.
    + injection H as <- _. simpl in Hrest |- *. split; [reflexivity|].
      exists []. split; [|left; reflexivity].
      rewrite <- !app_assoc in Hrest. apply app_inv_head in Hrest.
      subst rest. reflexivity.
Qed.

(** On a mono stream without Huffman, a read hook invoked with
    [seeking = true] at [wpos <> 0] that returns has found a skip point
    registered at [wpos], restored what it saved and moved the file;
    asked for 16 samples, it then reads 18 bytes and decodes two frames. *)
Lemma read_hook_seek wav c s wpos_ wlen c' s' :
  is_huffman wav = false -> channels wav = 1 -> wpos_ <> 0 ->
  waveform_vadpcm_read huffv wav c s wpos_ wlen true = Some (c', s') ->
  exists sp rest,
    find_skip_point wav wpos_ = Some sp /\
    log c' = log c ++ [HighpriBegin; RspCopyState (Some (sp_state sp));
                       Lseek (base_offset wav
                              + Z.quot wpos_ 16 * 9 * channels wav);
                       HighpriEnd] ++ rest /\
    (wlen = 16 ->
     bitpos c' = sp_bitpos sp /\
     exists tail,
       rest = [Read 18; HighpriBegin; RspDecompress 2 false; HighpriEnd] ++ tail
       /\ (tail = [] \/ tail = [HighpriSync])).
Proof.
  intros Hnh Hch Hw H. unfold waveform_vadpcm_read in H.
  apply bind_Some in H as (u & _ & H).
  apply bind_Some in H as (c1 & Hs & H).
  apply vadpcm_seek_spec in Hs as (sp & Hsp & ->); [|assumption..].
  exists sp. rewrite Hch, Z.mul_1_r. cbv zeta in H.
  apply read_hook_decode in H as (rest & Hl & Hw16); [|assumption..].
  exists rest. split; [exact Hsp|]. split; [|exact Hw16].
  rewrite Hl. simpl. rewrite <- !app_assoc. reflexivity.
Qed.

(** The same at [wpos = 0]: no skip point is looked for; the state is
    cleared and the file moved to the start of the samples. *)
Lemma read_hook_rewind wav c s wlen c' s' :
  is_huffman wav = false -> channels wav = 1 ->
  waveform_vadpcm_read huffv wav c s 0 wlen true = Some (c', s') ->
  exists rest,
    log c' = log c ++ [HighpriBegin; RspCopyState None;
                       Lseek (base_offset wav); HighpriEnd] ++ rest /\
    (wlen = 16 ->
     bitpos c' = 0 /\
     exists tail,
       rest = [Read 18; HighpriBegin; RspDecompress 2 false; HighpriEnd] ++ tail
       /\ (tail = [] \/ tail = [HighpriSync])).
Proof.
  intros Hnh Hch H. unfold waveform_vadpcm_read in H.
  apply bind_Some in H as (u & _ & H).
  rewrite vadpcm_seek_start in H. cbn [mbind option_bind] in H. cbv zeta in H.
  apply read_hook_decode in H as (rest & Hl & Hw16); [|assumption..].
  exists rest. split; [|exact Hw16].
  rewrite Hl. simpl. rewrite <- !app_assoc. reflexivity.
Qed.

(** C2 (amended).  On a mono VADPCM stream without Huffman, the first
    access [get(wpos, wlen)] of a 16-bit voice buffer runs the read hook
    with [seeking = true].  At [wpos > 0], if it returns, a skip point is
    registered at [wpos], the hook has restored the bit position and the
    predictor state saved there, and it has moved the file to
    [base_offset + (wpos / 16) * 9 * channels] before decoding; for
    [get(32, 16)] that offset is [base_offset + 18], and two frames are
    decoded from there.  Only [wpos = 0] needs no skip point: there the
    hook clears the state, sets the bit position to 0 and moves the file
    back to [base_offset] before decoding, and the seek itself returns
    whatever the skip points are, while at any other position with no
    skip point registered it does not return. *)
Theorem first_access_seek wav c s wpos_ wlen p wlen' c' s' :
  is_huffman wav = false -> channels wav = 1 ->
  SAMPLES_BPS_SHIFT (sb s) = 1 -> widx (sb s) = 0 -> wnext (sb s) = -1 ->
  0 <= wpos_ ->
  samplebuffer_get (waveform_vadpcm_read huffv wav) c s wpos_ wlen
    = Some (p, wlen', c', s') ->
  (0 < wpos_ ->
   exists sp rest,
     find_skip_point wav wpos_ = Some sp /\
     log c' = log c ++ [HighpriBegin; RspCopyState (Some (sp_state sp));
                        Lseek (base_offset wav
                               + Z.quot wpos_ 16 * 9 * channels wav);
                        HighpriEnd] ++ rest /\
     (wlen = 16 ->
      bitpos c' = sp_bitpos sp /\
      (wpos_ = 32 -> Z.quot wpos_ 16 * 9 * channels wav = 18) /\
      exists tail,
        rest = [Read 18; HighpriBegin; RspDecompress 2 false; HighpriEnd] ++ tail
        /\ (tail = [] \/ tail = [HighpriSync]))) /\
  (wpos_ = 0 ->
   exists rest,
     log c' = log c ++ [HighpriBegin; RspCopyState None;
                        Lseek (base_offset wav); HighpriEnd] ++ rest /\
     (wlen = 16 ->
      bitpos c' = 0 /\
      exists tail,
        rest = [Read 18; HighpriBegin; RspDecompress 2 false; HighpriEnd] ++ tail
        /\ (tail = [] \/ tail = [HighpriSync]))) /\
  (forall c0,
     vadpcm_seek wav c0 0 true
     = Some (mk_codec (base_offset wav) 0
               (log c0 ++ [HighpriBegin; RspCopyState None;
                           Lseek (base_offset wav); HighpriEnd]))) /\
  (forall c0 w,
     w <> 0 -> find_skip_point wav w = None ->
     vadpcm_seek wav c0 w true = None /\
     forall s0 n, waveform_vadpcm_read huffv wav c0 s0 w n true = None).
Proof.
  intros Hnh Hch Hbps Hwi Hwn Hw H.
  apply get_paths in H. cbv zeta in H.
  assert (Hr : get_restarts (sb s) wpos_ = true).
  { unfold get_restarts. rewrite Hwi. reflexivity. }
  destruct H as [(_ & s0 & Hrd & ->) | [(Hc & _) | (Hc & _)]];
    [|rewrite Hr in Hc; discriminate..].
  assert (Hodd : bits_set wpos_ (SAMPLES_BPS_SHIFT (sb s)) 1 = false).
  { rewrite Hbps, bits_set_1 by lia. change (2 ^ 1) with 2.
    rewrite Z.mod_mul by lia. reflexivity. }
  unfold get_seek_buf, get_seek_len in Hrd. simpl in Hrd.
  rewrite Hodd, Hwn in Hrd. simpl in Hrd.
  assert (Hs : (wpos_ =? -1) = false) by (apply Z.eqb_neq; lia).
  rewrite Hs in Hrd. simpl in Hrd. rewrite Hbps in Hrd.
  split; [|split; [|split]].
  - intros Hpos.
    apply read_hook_seek in Hrd as (sp & rest & Hsp & Hlog & H16);
      [|assumption|assumption|lia].
    exists sp, rest. split; [exact Hsp|]. split; [exact Hlog|].
    intros ->.
    destruct (H16 eq_refl) as (Hb & tail & Ht).
    split; [exact Hb|]. split; [intros ->; rewrite Hch; reflexivity|].
    exists tail. exact Ht.
  - intros ->.
    apply read_hook_rewind in Hrd as (rest & Hlog & H16); [|assumption..].
    exists rest. split; [exact Hlog|]. intros ->. exact (H16 eq_refl).
  - intros c0. apply vadpcm_seek_start.
  - intros c0 w Hw0 Hf. split; [apply vadpcm_seek_unregistered; assumption|].
    intros s1 n. unfold waveform_vadpcm_read.
    rewrite vadpcm_seek_unregistered by assumption.
    destruct (assertf _); reflexivity.
Qed.

End Hook.

Lemma first_access_seek_witness :
  (samplebuffer_get (waveform_vadpcm_read no_huffv with_skip) idle voice 32 16
   = Some (0xA0100000, 16, mk_codec (0x100 + 36) 0 seek_events,
           mk_sbstate (mk_samplebuffer 0xA0100001 64 32 32 0 64 0xA0100080 48)
                      (fun _ => 0)) /\
   exists sp rest,
     find_skip_point with_skip 32 = Some sp /\
     seek_events
     = log idle ++ [HighpriBegin; RspCopyState (Some (sp_state sp));
                    Lseek (base_offset with_skip
                           + Z.quot 32 16 * 9 * channels with_skip);
                    HighpriEnd] ++ rest /\
     (16 = 16 ->
      0 = sp_bitpos sp /\
      (32 = 32 -> Z.quot 32 16 * 9 * channels with_skip = 18) /\
      exists tail,
        rest = [Read 18; HighpriBegin; RspDecompress 2 false; HighpriEnd] ++ tail
        /\ (tail = [] \/ tail = [HighpriSync]))) /\
  (find_skip_point plain 0 = None /\
   match samplebuffer_get (waveform_vadpcm_read no_huffv plain) idle voice 0 16 with
   | Some (_, _, c', _) =>
       exists rest,
         log c' = log idle ++ [HighpriBegin; RspCopyState None;
                               Lseek (base_offset plain); HighpriEnd] ++ rest /\
         (16 = 16 ->
          bitpos c' = 0 /\
          exists tail,
            rest = [Read 18; HighpriBegin; RspDecompress 2 false; HighpriEnd]
                   ++ tail
            /\ (tail = [] \/ tail = [HighpriSync]))
   | None => False
   end).
Proof.
  split.
  - assert (E : samplebuffer_get (waveform_vadpcm_read no_huffv with_skip)
                  idle voice 32 16
                = Some (0xA0100000, 16, mk_codec (0x100 + 36) 0 seek_events,
                        mk_sbstate
                          (mk_samplebuffer 0xA0100001 64 32 32 0 64 0xA0100080 48)
                          (fun _ => 0)))
      by (vm_compute; reflexivity).
    split; [exact E|].
    apply (first_access_seek no_huffv with_skip idle voice 32 16
             0xA0100000 16 (mk_codec (0x100 + 36) 0 seek_events)
             (mk_sbstate (mk_samplebuffer 0xA0100001 64 32 32 0 64 0xA0100080 48)
                         (fun _ => 0))
             eq_refl eq_refl eq_refl eq_refl eq_refl ltac:(lia) E).
    reflexivity.
  - split; [reflexivity|].
    destruct (samplebuffer_get (waveform_vadpcm_read no_huffv plain)
                idle voice 0 16) as [[[[p n] c'] s']|] eqn:E.
    + apply (first_access_seek no_huffv plain idle voice 0 16 p n c' s'
               eq_refl eq_refl eq_refl eq_refl eq_refl ltac:(lia) E).
      reflexivity.
    + vm_compute in E. discriminate.
Defined.

(** C2, as stated, fails: without a skip point registered at sample 32 the
    first access [get(32, 16)] aborts on [assertf(found, ...)]; with one,
    the state restored is the one saved in the skip point, not zero. *)
Lemma first_access_counterexample :
  is_huffman plain = false /\
  samplebuffer_get (waveform_vadpcm_read no_huffv plain) idle voice 32 16 = None /\
  option_map (fun r => nth 1 (log (snd (fst r))) HighpriSync)
    (samplebuffer_get (waveform_vadpcm_read no_huffv with_skip) idle voice 32 16)
  = Some (RspCopyState (Some saved)) /\
  RspCopyState (Some saved) <> RspCopyState None.
Proof.
  split; [reflexivity|]. split; [vm_compute; reflexivity|].
  split; [vm_compute; reflexivity|]. discriminate.
Qed.

(** *** Further properties *)

Section Window.
Variable huffv : vadpcm_wav -> codec -> Z -> Z -> option codec.

Lemma decode_loop_window fuel : forall wav c s wpos_ wlen hp c' s' wpos' hp',
  cursors_ok (sb s) -> 0 <= wlen -> wlen mod 16 = 0 ->
  decode_loop huffv fuel wav c s wpos_ wlen hp = Some (c', s', wpos', hp') ->
  cursors_ok (sb s') /\ wpos' = wpos_ + wlen /\
  wpos (sb s') + widx (sb s') = wpos (sb s) + widx (sb s) + wlen /\
  widx (sb s') - ridx (sb s') = widx (sb s) - ridx (sb s) + wlen.
Proof.
  induction fuel as [|fuel IH];
    intros wav c s wpos_ wlen hp c' s' wpos' hp' Hok Hn Hm H.
  - simpl in H. destruct (Z.gtb_spec wlen 0); [discriminate|].
    injection H as _ <- <- _. repeat split; try lia; apply Hok.
  - destruct (Z_le_gt_dec wlen 0) as [Hle|Hgt].
    { rewrite decode_loop_done in H by lia. injection H as _ <- <- _.
      repeat split; try lia; apply Hok. }
    rewrite decode_loop_step in H by lia. cbv zeta in H.
    set (nframes := MIN (Z.quot wlen 16) _) in H.
    apply bind_Some in H as ([dest s1] & Ha & H). cbv beta iota in H.
    apply bind_Some in H as (c1 & _ & H).
    apply bind_Some in H as (u & Hu & H).
    apply assertf_Some in Hu. apply andb_true_iff in Hu as [Hu1 Hu2].
    apply Z.gtb_gt in Hu1.
    assert (Hnf : nframes <= Z.quot wlen 16).
    { subst nframes. unfold MIN. destruct (Z.ltb_spec (Z.quot wlen 16)
        (if channels wav =? 1 then MAX_VADPCM_FRAMES else Z.quot MAX_VADPCM_FRAMES 2)); lia. }
    rewrite Z.quot_div_nonneg in Hnf by lia.
    pose proof (Z.div_mod wlen 16 ltac:(lia)) as Hdm. rewrite Hm in Hdm.
    destruct (append_cursors s (nframes * 16) dest s1 Hok ltac:(lia) Ha) as [Hok1 Hd1].
    pose proof (append_end _ _ _ _ Ha) as He1.
    apply IH in H as (A & B & C & D); [| exact Hok1 | lia |].
    + repeat split; try lia; apply A.
    + replace (wlen - 16 * nframes) with (wlen + (- nframes) * 16) by lia.
      rewrite Z.mod_add by lia. exact Hm.
Qed.

Lemma ROUND_UP_32 n :
  0 <= n -> n <= ROUND_UP n 32 < n + 32 /\ ROUND_UP n 32 mod 16 = 0.
Proof.
  intros Hn. unfold ROUND_UP. rewrite Z.quot_div_nonneg by lia.
  pose proof (Z.div_mod (n + 32 - 1) 32 ltac:(lia)).
  pose proof (Z.mod_pos_bound (n + 32 - 1) 32 ltac:(lia)).
  split; [lia|].
  replace ((n + 32 - 1) / 32 * 32) with ((n + 32 - 1) / 32 * 2 * 16) by lia.
  apply Z.mod_mul. lia.
Qed.

(** X24.  What the VADPCM read hook leaves in the sample buffer.  Asked for
    [wlen] frames from a position not after the end of the waveform, the
    hook, when it returns, has moved the end of the window on by [wlen]
    rounded up to 32 frames, or up to the end of the waveform when the
    waveform loops and the request crosses it; it never retracts a frame
    that was there before, so the cursors stay ordered. *)
Theorem vadpcm_read_window (wav : vadpcm_wav) (c : codec) (s : sbstate)
    (wpos_ wlen : Z) (seeking : bool) (c' : codec) (s' : sbstate) :
  cursors_ok (sb s) -> 0 <= wlen -> wpos_ <= len wav ->
  waveform_vadpcm_read huffv wav c s wpos_ wlen seeking = Some (c', s') ->
  cursors_ok (sb s') /\
  0 <= frames_kept wav wpos_ wlen <= ROUND_UP wlen 32 /\
  wpos (sb s') + widx (sb s')
    = wpos (sb s) + widx (sb s) + frames_kept wav wpos_ wlen /\
  widx (sb s') - ridx (sb s')
    = widx (sb s) - ridx (sb s) + frames_kept wav wpos_ wlen.
Proof.
  intros Hok Hn Hw H. unfold waveform_vadpcm_read in H.
  destruct (ROUND_UP_32 wlen Hn) as [Hr1 Hr2].
  apply bind_Some in H as (u & _ & H).
  apply bind_Some in H as (c1 & _ & H).
  unfold frames_kept.
  destruct (Z.eqb_spec (ROUND_UP wlen 32) 0) as [E0|E0].
  - injection H as _ <-. rewrite E0.
    destruct (negb (loop_len wav =? 0) && (wpos_ + 0 >? len wav)) eqn:El.
    + apply andb_true_iff in El as [_ El]. apply Z.gtb_gt in El. lia.
    + repeat split; try lia; apply Hok.
  - destruct (decode_loop huffv _ wav c1 s wpos_ (ROUND_UP wlen 32) false)
      as [[[[c2 s2] wpos2] hp2]|] eqn:Ed; [|discriminate].
    apply decode_loop_window in Ed as (A & -> & B & C); try assumption; try lia.
    destruct (negb (loop_len wav =? 0) && (wpos_ + ROUND_UP wlen 32 >? len wav)) eqn:El.
    + apply andb_true_iff in El as [_ El]. apply Z.gtb_gt in El.
      apply bind_Some in H as (b & Hb & H). injection H as _ <-.
      apply undo_spec in Hb as [Hb ->]. simpl.
      destruct A as (A1 & A2 & A3). destruct Hok as (O1 & O2 & O3).
      unfold cursors_ok; simpl.
      repeat split; lia.
    + injection H as _ <-. repeat split; try lia; apply A.
Qed.

End Window.

Lemma vadpcm_read_window_witness :
  match waveform_vadpcm_read no_huffv bundled idle voice_at_32 32 48 false with
  | Some (c', s') =>
      cursors_ok (sb s') /\
      0 <= frames_kept bundled 32 48 <= ROUND_UP 48 32 /\
      wpos (sb s') + widx (sb s')
        = wpos (sb voice_at_32) + widx (sb voice_at_32) + frames_kept bundled 32 48 /\
      widx (sb s') - ridx (sb s')
        = widx (sb voice_at_32) - ridx (sb voice_at_32) + frames_kept bundled 32 48
  | None => False
  end.
Proof.
  destruct (waveform_vadpcm_read no_huffv bundled idle voice_at_32 32 48 false)
    as [[c' s']|] eqn:E.
  - apply (vadpcm_read_window no_huffv bundled idle voice_at_32 32 48 false c' s');
      [unfold cursors_ok; simpl; lia | lia | simpl; lia | exact E].
  - apply (f_equal (option_map (fun r => widx (sb (snd r))))) in E.
    vm_compute in E. discriminate.
Defined.

End VadpcmFacts.

(** ** The XM64 player tick *)

Module Xm64Facts.
Import Xm64.

Section TickFacts.
Context {F : Type} {ops : FloatOps F}.
Variable xm_tick : xm_context_t F -> xm_context_t F.

(** *** What a tick does to the voices *)

Lemma upd_eq (mx : mixer F) ch v : upd mx ch v ch = v.
Proof. unfold upd. rewrite Nat.eqb_refl. reflexivity. Qed.

Lemma upd_ne (mx : mixer F) ch v u : u <> ch -> upd mx ch v u = mx u.
Proof. unfold upd. intros H. apply Nat.eqb_neq in H. rewrite H. reflexivity. Qed.

Lemma dispatch_one_spec gvol v c (mx mx' : mixer F) :
  dispatch_one gvol v c mx = Some mx' ->
  voice_after gvol c (mx v) = Some (mx' v) /\
  forall u, u <> v -> mx' u = mx u.
Proof.
  unfold dispatch_one, voice_after. intros H.
  destruct (sample c) as [smp|].
  2:{ injection H as <-. unfold mixer_ch_stop. rewrite upd_eq. split; [reflexivity|].
      intros u Hu. apply upd_ne. exact Hu. }
  destruct (Fge0 (sample_position c)).
  2:{ injection H as <-. unfold mixer_ch_stop. rewrite upd_eq. split; [reflexivity|].
      intros u Hu. apply upd_ne. exact Hu. }
  apply bind_Some in H as (m & Hm & H). rewrite Hm. simpl. injection H as <-.
  unfold mixer_ch_set_vol, mixer_ch_set_freq, mixer_ch_set_pos,
    mixer_ch_playing_waveform, wav64_play, mixer_ch_play.
  destruct (bool_decide (v_wave (mx v) = Some (wave smp))) eqn:E; split.
  - unfold upd. rewrite !Nat.eqb_refl. simpl.
    apply bool_decide_eq_true in E. rewrite E. destruct m; reflexivity.
  - intros u Hu. rewrite !upd_ne by exact Hu. reflexivity.
  - unfold upd. rewrite !Nat.eqb_refl. simpl. destruct m; reflexivity.
  - intros u Hu. rewrite !upd_ne by exact Hu. reflexivity.
Qed.

Lemma dispatch_spec gvol fc chs : forall i (mx mx' : mixer F),
  dispatch gvol fc i chs mx = Some mx' ->
  (forall u, (u < fc + i \/ fc + i + List.length chs <= u)%nat -> mx' u = mx u) /\
  (forall k c, chs !! k = Some c ->
     voice_after gvol c (mx (fc + i + k)%nat) = Some (mx' (fc + i + k)%nat)).
Proof.
  induction chs as [|c0 rest IH]; intros i mx mx' H; simpl in H.
  - injection H as <-. split; [reflexivity|]. intros k c Hk. discriminate.
  - apply bind_Some in H as (mx1 & H1 & H).
    apply dispatch_one_spec in H1 as [Hv Hother].
    apply IH in H as [Hout Hin]. split.
    + intros u Hu. simpl in Hu. rewrite Hout by lia. apply Hother. lia.
    + intros k c Hk. destruct k as [|k]; simpl in Hk.
      * injection Hk as <-. rewrite Nat.add_0_r. rewrite Hout by lia. exact Hv.
      * specialize (Hin k c Hk).
        replace (fc + i + S k)%nat with (fc + S i + k)%nat by lia.
        rewrite <- Hin. f_equal. symmetry. apply Hother. lia.
Qed.

Lemma stop_all_spec fc n : forall i (mx : mixer F) u,
  stop_all fc i n mx u =
    if ((fc + i <=? u) && (u <? fc + i + n))%nat then stopped (mx u) else mx u.
Proof.
  induction n as [|n IH]; intros i mx u; simpl.
  - destruct (fc + i <=? u)%nat eqn:E1; simpl; [|reflexivity].
    destruct (u <? fc + i + 0)%nat eqn:E2; [|reflexivity].
    apply Nat.leb_le in E1. apply Nat.ltb_lt in E2. lia.
  - rewrite IH. unfold mixer_ch_stop.
    destruct (Nat.eq_dec u (fc + i)%nat) as [->|Hne].
    + rewrite upd_eq.
      replace ((fc + S i <=? fc + i)%nat) with false
        by (symmetry; apply Nat.leb_gt; lia).
      replace ((fc + i <=? fc + i)%nat) with true
        by (symmetry; apply Nat.leb_le; lia).
      replace ((fc + i <? fc + i + S n)%nat) with true
        by (symmetry; apply Nat.ltb_lt; lia).
      reflexivity.
    + rewrite upd_ne by exact Hne.
      destruct (Nat.leb_spec (fc + S i) u); destruct (Nat.leb_spec (fc + i) u);
        destruct (Nat.ltb_spec u (fc + S i + n));
        destruct (Nat.ltb_spec u (fc + i + S n)); simpl; try reflexivity; lia.
Qed.

Lemma stop_all_in fc n (mx : mixer F) i :
  (i < n)%nat -> stop_all fc 0 n mx (fc + i)%nat = stopped (mx (fc + i)%nat).
Proof.
  intros Hi. rewrite stop_all_spec.
  destruct (Nat.leb_spec (fc + 0) (fc + i)); [|lia].
  destruct (Nat.ltb_spec (fc + i) (fc + 0 + n)); [|lia]. reflexivity.
Qed.

Lemma stopped_idem (v : voice F) : stopped (stopped v) = stopped v.
Proof. reflexivity. Qed.

Lemma before_dispatch_stopped (xmp : xm64player_t F) (mx : mixer F) u :
  stopped (before_dispatch xmp mx u) = stopped (mx u).
Proof.
  unfold before_dispatch. destruct (seek_patidx xmp >=? 0); [|reflexivity].
  rewrite stop_all_spec. destruct (_ && _); reflexivity.
Qed.

Lemma tick_voice (xmp : xm64player_t F) (mx : mixer F) delay xmp' mx' :
  tick xm_tick xmp mx = Some (delay, xmp', mx') ->
  forall i c, channels (ctx xmp') !! i = Some c ->
    let u := (first_ch xmp + i)%nat in
    if ends xmp xmp' then mx' u = stopped (mx u)
    else voice_after
           (Fmul (global_volume (ctx xmp')) (amplification (ctx xmp')))
           c (before_dispatch xmp mx u) = Some (mx' u).
Proof.
  unfold tick, ends. intros H i c Hc. cbv zeta.
  set (x1 := set_channels (ctx xmp) _) in H.
  assert (Hlen1 : List.length (channels x1) = List.length (channels (ctx xmp))).
  { subst x1. simpl. unfold sync_positions. apply length_imap. }
  change (stop_requested (with_ctx xmp x1)) with (stop_requested xmp) in H.
  destruct (stop_requested xmp) eqn:Es; simpl.
  - simpl in H. injection H as _ <- <-. simpl in Hc.
    apply lookup_lt_Some in Hc. apply stop_all_in. exact Hc.
  - destruct (do_seek (with_ctx xmp x1) mx) as [xmp2 mx2] eqn:Ed.
    assert (Hd : first_ch xmp2 = first_ch xmp /\ looping xmp2 = looping xmp /\
                 forall u, mx2 u = before_dispatch xmp mx u).
    { unfold do_seek in Ed. simpl in Ed. unfold before_dispatch.
      destruct (seek_patidx xmp >=? 0).
      - injection Ed as <- <-. simpl. repeat split.
        intros u. rewrite length_map. unfold sync_positions.
        rewrite length_imap. reflexivity.
      - injection Ed as <- <-. simpl. repeat split. }
    destruct Hd as (Hfc & Hlp & Hmx).
    apply bind_Some in H as (u0 & _ & H). simpl in H. rewrite Hlp, Hfc in H.
    destruct (negb (looping xmp) && (loop_count (xm_tick (ctx xmp2)) >? 0)) eqn:El.
    + injection H as _ <- <-. simpl in *. rewrite El.
      apply lookup_lt_Some in Hc. rewrite stop_all_in by exact Hc.
      rewrite Hmx. apply before_dispatch_stopped.
    + apply bind_Some in H as (mx3 & Hdis & H). injection H as _ <- <-.
      simpl in *. rewrite El.
      apply dispatch_spec in Hdis as [_ Hin]. specialize (Hin i c Hc).
      rewrite Nat.add_0_r in Hin. rewrite <- Hmx. exact Hin.
Qed.

(** C9 (amended).  On a tick that does not end the playback, the voice of
    a channel whose sample is NULL or whose position is negative is
    stopped; the voice of a channel with a sample and a position [>= 0]
    plays the WAV64 of the sample, started only if the voice was not
    already playing it, at the position and frequency of the channel,
    with both volumes zero when the channel or its instrument is muted.
    On a tick that ends the playback (stop requested, or song looped with
    looping off) every voice of the player is stopped and none is
    started. *)
Theorem tick_dispatches (xmp : xm64player_t F) (mx : mixer F) delay xmp' mx' :
  tick xm_tick xmp mx = Some (delay, xmp', mx') ->
  forall i c, channels (ctx xmp') !! i = Some c ->
    let u := (first_ch xmp + i)%nat in
    let gvol := Fmul (global_volume (ctx xmp')) (amplification (ctx xmp')) in
    (ends xmp xmp' = true ->
     v_wave (mx' u) = None /\ v_starts (mx' u) = v_starts (mx u)) /\
    (ends xmp xmp' = false ->
     (sample c = None \/ Fge0 (sample_position c) = false ->
      v_wave (mx' u) = None /\ v_starts (mx' u) = v_starts (mx u)) /\
     (forall smp,
        sample c = Some smp -> Fge0 (sample_position c) = true ->
        exists m,
          channel_muted c = Some m /\
          v_wave (mx' u) = Some (wave smp) /\
          v_starts (mx' u) =
            (if bool_decide (v_wave (before_dispatch xmp mx u) = Some (wave smp))
             then v_starts (mx u) else S (v_starts (mx u))) /\
          v_pos (mx' u) = sample_position c /\
          v_freq (mx' u) = frequency c /\
          v_vol (mx' u) =
            (if m : bool then (Fint 0, Fint 0)
             else (Fmul gvol (fst (actual_volume c)),
                   Fmul gvol (snd (actual_volume c)))))).
Proof.
  intros H i c Hc. cbv zeta.
  pose proof (tick_voice _ _ _ _ _ H i c Hc) as Hv. cbv zeta in Hv.
  assert (Hst : v_starts (before_dispatch xmp mx (first_ch xmp + i)%nat)
                = v_starts (mx (first_ch xmp + i)%nat)).
  { change (v_starts (stopped (before_dispatch xmp mx (first_ch xmp + i)%nat))
            = v_starts (stopped (mx (first_ch xmp + i)%nat))).
    rewrite before_dispatch_stopped. reflexivity. }
  split; intros He; rewrite He in Hv.
  - rewrite Hv. split; reflexivity.
  - unfold voice_after in Hv. split.
    + intros [Hs|Hp].
      * rewrite Hs in Hv. injection Hv as <-. simpl. auto.
      * destruct (sample c); [rewrite Hp in Hv|];
          injection Hv as <-; simpl; auto.
    + intros smp Hs Hp. rewrite Hs, Hp in Hv.
      apply bind_Some in Hv as (m & Hm & Hv). injection Hv as <-.
      exists m. simpl. rewrite Hst. repeat split; auto.
Qed.

End TickFacts.

(** *** A two-channel module, with integers for the floats *)

Lemma tick_dispatches_witness :
  match tickZ false with
  | Some (delay, xmp', mx') =>
      channels (ctx xmp') !! 0%nat = Some lead /\
      (ends (player false) xmp' = true ->
       v_wave (mx' 0%nat) = None /\
       v_starts (mx' 0%nat) = v_starts (silent 0%nat)) /\
      (ends (player false) xmp' = false ->
       (sample lead = None \/ (0 <=? sample_position lead) = false ->
        v_wave (mx' 0%nat) = None /\
        v_starts (mx' 0%nat) = v_starts (silent 0%nat)) /\
       (forall smp,
          sample lead = Some smp -> (0 <=? sample_position lead) = true ->
          exists m,
            channel_muted lead = Some m /\
            v_wave (mx' 0%nat) = Some (wave smp) /\
            v_starts (mx' 0%nat) =
              (if bool_decide
                    (v_wave (before_dispatch (player false) silent 0%nat)
                     = Some (wave smp))
               then v_starts (silent 0%nat)
               else S (v_starts (silent 0%nat))) /\
            v_pos (mx' 0%nat) = sample_position lead /\
            v_freq (mx' 0%nat) = frequency lead /\
            v_vol (mx' 0%nat) =
              (if m : bool then (0, 0)
               else (global_volume (ctx xmp') * amplification (ctx xmp')
                     * fst (actual_volume lead),
                     global_volume (ctx xmp') * amplification (ctx xmp')
                     * snd (actual_volume lead)))))
  | None => False
  end.
Proof.
  assert (Hx : option_map (fun r => channels (ctx (snd (fst r)))) (tickZ false)
               = Some [lead; rest_]) by (vm_compute; reflexivity).
  destruct (tickZ false) as [[[delay xmp'] mx']|] eqn:E; [|discriminate].
  simpl in Hx. injection Hx as Hx.
  assert (Hc : channels (ctx xmp') !! 0%nat = Some lead)
    by (rewrite Hx; reflexivity).
  split; [exact Hc|].
  exact (tick_dispatches (fun x => x) (player false) silent delay xmp' mx' E
           0%nat lead Hc).
Defined.

(** C9, as stated, fails on a tick that finds a stop request: the first
    channel has a sample and a position [>= 0], and its voice is stopped
    without the WAV64 ever being started. *)
Lemma every_tick_counterexample :
  sample lead = Some (mk_sample 0x80100000) /\
  (0 <=? sample_position lead) = true /\
  option_map (fun r => (v_wave (snd r 0%nat), v_starts (snd r 0%nat)))
    (tickZ true) = Some (None, 0%nat) /\
  option_map (fun r => (v_wave (snd r 0%nat), v_starts (snd r 0%nat)))
    (tickZ false) = Some (Some 0x80100000, 1%nat).
Proof. vm_compute. repeat split; reflexivity. Qed.

(** *** Further properties *)

Section MoreFacts.
Context {F : Type} {ops : FloatOps F}.
Variable xm_tick : xm_context_t F -> xm_context_t F.

Lemma stop_all_out fc n (mx : mixer F) u :
  (u < fc \/ fc + n <= u)%nat -> stop_all fc 0 n mx u = mx u.
Proof.
  intros Hu. rewrite stop_all_spec.
  destruct (Nat.leb_spec (fc + 0) u); [|reflexivity].
  destruct (Nat.ltb_spec u (fc + 0 + n)); [lia | reflexivity].
Qed.

(** X25.  A tick leaves the voices of the other players alone.  Whatever the
    tick does (stop, seek, play), a mixer channel below [first_ch], or at
    or above [first_ch] plus the number of channels of the module, is
    after the tick as it was before. *)
Theorem tick_confined (xmp : xm64player_t F) (mx : mixer F) delay xmp' mx' :
  tick xm_tick xmp mx = Some (delay, xmp', mx') ->
  forall u : nat,
    (u < first_ch xmp \/
     first_ch xmp + Nat.max (List.length (channels (ctx xmp)))
                            (List.length (channels (ctx xmp'))) <= u)%nat ->
    mx' u = mx u.
Proof.
  unfold tick. intros H u Hu.
  set (x1 := set_channels (ctx xmp) _) in H.
  assert (Hlen1 : List.length (channels x1) = List.length (channels (ctx xmp))).
  { subst x1. simpl. unfold sync_positions. apply length_imap. }
  change (stop_requested (with_ctx xmp x1)) with (stop_requested xmp) in H.
  destruct (stop_requested xmp).
  - simpl in H. injection H as _ <- <-. cbn [ctx first_ch with_ctx] in Hu |- *.
    apply stop_all_out.
    change (sync_positions (first_ch xmp) mx (channels (ctx xmp))) with (channels x1).
    lia.
  - destruct (do_seek (with_ctx xmp x1) mx) as [xmp2 mx2] eqn:Ed.
    assert (Hd : first_ch xmp2 = first_ch xmp /\ mx2 u = mx u).
    { unfold do_seek in Ed. simpl in Ed.
      destruct (seek_patidx xmp >=? 0); injection Ed as <- <-; simpl.
      - split; [reflexivity|]. apply stop_all_out. rewrite length_map.
        unfold sync_positions. rewrite length_imap. lia.
      - split; reflexivity. }
    destruct Hd as [Hfc Hmx].
    apply bind_Some in H as (u0 & _ & H). simpl in H. rewrite Hfc in H.
    destruct (negb (looping xmp2) && (loop_count (xm_tick (ctx xmp2)) >? 0)).
    + injection H as _ <- <-. simpl in *. rewrite stop_all_out by lia. exact Hmx.
    + apply bind_Some in H as (mx3 & Hdis & H). injection H as _ <- <-.
      simpl in *. apply dispatch_spec in Hdis as [Hout _].
      rewrite Hout by lia. exact Hmx.
Qed.

Lemma sync_stopped fc n (mx : mixer F) (chs : list (xm_channel_context_t F)) :
  (List.length chs <= n)%nat ->
  sync_positions fc (stop_all fc 0 n mx) chs = chs.
Proof.
  intros Hn. unfold sync_positions. apply list_eq. intros i.
  rewrite list_lookup_imap. destruct (chs !! i) as [c|] eqn:E; [|reflexivity].
  simpl. apply lookup_lt_Some in E.
  unfold mixer_ch_playing. rewrite stop_all_in by lia. reflexivity.
Qed.

Lemma rewind_sync fc (mx : mixer F) (chs : list (xm_channel_context_t F)) p :
  map (fun c => set_position c p) (sync_positions fc mx chs)
  = map (fun c => set_position c p) chs.
Proof.
  unfold sync_positions. apply list_eq. intros i.
  rewrite !list_lookup_fmap, list_lookup_imap.
  destruct (chs !! i) as [c|]; [|reflexivity]. simpl.
  destruct (mixer_ch_playing mx (fc + i)); reflexivity.
Qed.

Lemma tick_keeps_no_seek (xmp : xm64player_t F) (mx : mixer F) delay xmp' mx' :
  tick xm_tick xmp mx = Some (delay, xmp', mx') ->
  (seek_patidx xmp <? 0) = true -> seek_patidx xmp' = seek_patidx xmp.
Proof.
  unfold tick. intros H Hs.
  set (x1 := set_channels (ctx xmp) _) in H.
  change (stop_requested (with_ctx xmp x1)) with (stop_requested xmp) in H.
  destruct (stop_requested xmp).
  - simpl in H. injection H as _ <- _. reflexivity.
  - unfold do_seek in H. simpl in H.
    destruct (Z.geb_spec (seek_patidx xmp) 0) as [?|_]; [apply Z.ltb_lt in Hs; lia|].
    apply bind_Some in H as (u0 & _ & H). simpl in H.
    destruct (negb (looping xmp) && (loop_count (xm_tick x1) >? 0)).
    + injection H as _ <- _. reflexivity.
    + apply bind_Some in H as (mx3 & _ & H). injection H as _ <- _. reflexivity.
Qed.

(** X26.  A seek requested with [xm64player_seek] is done by the next tick.
    For a position in the range of the parameters of [xm_seek] and a
    player with no stop request, the tick after the request is the tick
    of the player sought at once - engine at the position, every channel
    rewound to sample position 0 - on a mixer where the voices of the
    player are stopped; and the request is consumed: after the tick no
    seek is pending. *)
Theorem seek_then_tick (xmp : xm64player_t F) (mx : mixer F) (patidx row tick_ : Z) :
  stop_requested xmp = false ->
  0 <= patidx < 256 -> 0 <= row < 256 -> 0 <= tick_ < 65536 ->
  tick xm_tick (xm64player_seek xmp patidx row tick_) mx
  = tick xm_tick (sought xmp patidx row tick_)
      (stop_all (first_ch xmp) 0 (List.length (channels (ctx xmp))) mx) /\
  forall delay xmp' mx',
    tick xm_tick (xm64player_seek xmp patidx row tick_) mx
      = Some (delay, xmp', mx') ->
    seek_patidx xmp' = -1.
Proof.
  intros Hs Hp _ _.
  assert (E : tick xm_tick (xm64player_seek xmp patidx row tick_) mx
              = tick xm_tick (sought xmp patidx row tick_)
                  (stop_all (first_ch xmp) 0 (List.length (channels (ctx xmp))) mx)).
  { unfold tick at 1 2. cbv zeta.
    change (stop_requested (with_ctx (xm64player_seek xmp patidx row tick_) _))
      with (stop_requested xmp).
    change (stop_requested (with_ctx (sought xmp patidx row tick_) _))
      with (stop_requested xmp).
    rewrite Hs. unfold do_seek.
    cbn [seek_patidx with_ctx xm64player_seek sought ctx first_ch playing
         stop_requested looping seek_row seek_tick].
    destruct (Z.geb_spec patidx 0) as [_|?]; [|lia].
    change (-1 >=? 0) with false. cbv iota.
    cbn [channels set_channels xm_seek].
    rewrite sync_stopped by (rewrite length_map; lia).
    rewrite rewind_sync, length_map.
    reflexivity. }
  split; [exact E|].
  intros delay xmp' mx' H. rewrite E in H.
  apply tick_keeps_no_seek in H; [|reflexivity]. exact H.
Qed.

End MoreFacts.

Lemma tick_confined_witness :
  match tickZ false with
  | Some (delay, xmp', mx') => mx' 5%nat = silent 5%nat
  | None => False
  end.
Proof.
  assert (Hx : option_map (fun r => channels (ctx (snd (fst r)))) (tickZ false)
               = Some [lead; rest_]) by (vm_compute; reflexivity).
  destruct (tickZ false) as [[[delay xmp'] mx']|] eqn:E; [|discriminate].
  simpl in Hx. injection Hx as Hx.
  apply (tick_confined (fun x => x) (player false) silent delay xmp' mx' E 5%nat).
  right. rewrite Hx. simpl. lia.
Defined.

Lemma seek_then_tick_witness :
  tick (fun x => x) (xm64player_seek (player false) 1 2 3) silent
  = tick (fun x => x) (sought (player false) 1 2 3)
      (stop_all 0 0 2 silent) /\
  forall delay xmp' mx',
    tick (fun x => x) (xm64player_seek (player false) 1 2 3) silent
      = Some (delay, xmp', mx') ->
    seek_patidx xmp' = -1.
Proof.
  apply (seek_then_tick (fun x => x) (player false) silent 1 2 3);
    [reflexivity | lia | lia | lia].
Defined.

End Xm64Facts.
